(** * File_Manager: the scanner thread and the folder aggregation of Storage.py

    A shallow embedding of [FileProcessorThread] (constructor, size probe,
    the two loops of [run], the control methods) and of the parts of
    [FileAnalyzerUI] that build the scan request ([start_scan]), group the
    streamed rows by folder ([add_row]) and rank them for the chart
    ([render_funnel_chart]), and of the slots that show a scan in the
    window and export it.

    Conventions.
    - A Python [str] is a [string] whose characters are code points below 256.
    - A Python [float] is the rational number it denotes ([Q]); every
      arithmetic operation rounds its exact result to binary64 with
      [round64].  The exponent range is not bounded, so the model is exact
      whenever the rounded result is a normal binary64 number; subnormal
      numbers, infinities and NaN are outside it.
    - The text produced by a [.2f] format is kept as its number of
      hundredths ([Z]); [float] of such a text is [float_of_fixed2].
    - The operating system is a record [OS] of the answers the scan gets
      from [os.walk], [os.path.abspath], [os.path.exists] and
      [os.path.getsize].
    - The tree widget sorts its items ([setSortingEnabled(True)]); the
      order in which it gives them back is a [Sorting], of which the
      properties assume only that it rearranges the items. *)

From Stdlib Require Import ZArith QArith Qabs Qround Qpower Lia List Bool String Ascii.
From Stdlib Require Import DecimalString Permutation Sorted Floats.
Import ListNotations.

Open Scope string_scope.
Open Scope list_scope.
Open Scope Z_scope.

(* ------------------------------------------------------------------ *)
(** ** Python strings *)

(** [str.lower] on one code point below 256: A-Z and the Latin-1 capitals
    (U+00C0 to U+00DE without the multiplication sign U+00D7). *)
Definition lower_char (c : ascii) : ascii :=
  let n := N_of_ascii c in
  if ((65 <=? n) && (n <=? 90))%N
     || ((192 <=? n) && (n <=? 222) && negb (n =? 215))%N
  then ascii_of_N (n + 32) else c.

Fixpoint lower (s : string) : string :=
  match s with
  | EmptyString => EmptyString
  | String c s' => String (lower_char c) (lower s')
  end.

(** [str.isspace] on one code point below 256. *)
Definition isspace (c : ascii) : bool :=
  let n := N_of_ascii c in
  (((9 <=? n) && (n <=? 13)) || ((28 <=? n) && (n <=? 32))
   || (n =? 133) || (n =? 160))%N.

Fixpoint lstrip (s : string) : string :=
  match s with
  | EmptyString => EmptyString
  | String c s' => if isspace c then lstrip s' else s
  end.

(** Drops the trailing white space: a character is kept when it is not a
    space or when something is kept after it. *)
Fixpoint rstrip (s : string) : string :=
  match s with
  | EmptyString => EmptyString
  | String c s' =>
      match rstrip s' with
      | EmptyString => if isspace c then EmptyString else String c EmptyString
      | r => String c r
      end
  end.

Definition strip (s : string) : string := rstrip (lstrip s).

(** Truth value of a string: non-empty. *)
Definition truthy (s : string) : bool :=
  match s with EmptyString => false | String _ _ => true end.

(** [s.endswith(suffix)]. *)
Definition endswith (s suffix : string) : bool :=
  let n := String.length s in
  let k := String.length suffix in
  (k <=? n)%nat && String.eqb (substring (n - k) k s) suffix.

(** [s.split(sep)] for a one-character separator. *)
Fixpoint split (sep : ascii) (s : string) : list string :=
  match s with
  | EmptyString => [EmptyString]
  | String c s' =>
      if Ascii.eqb c sep then EmptyString :: split sep s'
      else match split sep s' with
           | [] => [String c EmptyString]
           | w :: ws => String c w :: ws
           end
  end.

(** [str(n)] for an integer. *)
Definition str_of_int (n : Z) : string := NilZero.string_of_int (Z.to_int n).

(* ------------------------------------------------------------------ *)
(** ** posixpath *)

Definition sep : ascii := "/"%char.

(** [(p[:i], p[i:])] with [i = p.rfind('/') + 1]. *)
Fixpoint rsplit_sep (p : string) : string * string :=
  match p with
  | EmptyString => (EmptyString, EmptyString)
  | String c p' =>
      let (h, t) := rsplit_sep p' in
      match h with
      | EmptyString =>
          if Ascii.eqb c sep then (String c EmptyString, t)
          else (EmptyString, String c t)
      | _ => (String c h, t)
      end
  end.

(** [head.rstrip('/')]. *)
Fixpoint rstrip_sep (s : string) : string :=
  match s with
  | EmptyString => EmptyString
  | String c s' =>
      match rstrip_sep s' with
      | EmptyString => if Ascii.eqb c sep then EmptyString else String c EmptyString
      | r => String c r
      end
  end.

(** [os.path.dirname]: the head is kept whole when it consists of slashes
    only, otherwise its trailing slashes are removed. *)
Definition dirname (p : string) : string :=
  let head := fst (rsplit_sep p) in
  if truthy head && truthy (rstrip_sep head) then rstrip_sep head else head.

Definition basename (p : string) : string := snd (rsplit_sep p).

(** [os.path.join(a, b)] for two components. *)
Definition join (a b : string) : string :=
  match b with
  | String c _ =>
      if Ascii.eqb c sep then b
      else if negb (truthy a) || endswith a "/" then (a ++ b)%string
      else (a ++ "/" ++ b)%string
  | EmptyString =>
      if negb (truthy a) || endswith a "/" then a else (a ++ "/")%string
  end.

(* ------------------------------------------------------------------ *)
(** ** Python floats *)

(** The integer nearest to [n / d] ([d] positive), ties to even. *)
Definition rne (n d : Z) : Z :=
  let q := n / d in
  match 2 * (n mod d) ?= d with
  | Lt => q
  | Gt => q + 1
  | Eq => if Z.even q then q else q + 1
  end.

(** The integer nearest to a rational, ties to even. *)
Definition nearest (x : Q) : Z := rne (Qnum x) (Z.pos (Qden x)).

(** The power [2^e] as a rational, for any integer [e]. *)
Definition p2 (e : Z) : Q := (2 ^ e)%Q.

(** The rational [m * 2^e]. *)
Definition dyadic (m e : Z) : Q :=
  if 0 <=? e then inject_Z (m * 2 ^ e) else Qmake m (Z.to_pos (2 ^ (- e))).

(** binary64 rounding of the positive rational [n / d]: [ulp_exp] is the
    exponent [e] with [2^52 <= (n/d) / 2^e < 2^53], the significand is the
    quotient rounded to the nearest integer, ties to even. *)
Definition ulp_exp (n d : positive) : Z :=
  let K := Z.log2 (Z.pos d) + 1 in
  Z.log2 (Z.pos n * 2 ^ K / Z.pos d) - K - 52.

Definition significand (n d : positive) (e : Z) : Z :=
  if 0 <=? e then rne (Z.pos n) (Z.pos d * 2 ^ e)
  else rne (Z.pos n * 2 ^ (- e)) (Z.pos d).

Definition round_pos (n d : positive) : Q :=
  let e := ulp_exp n d in dyadic (significand n d e) e.

Definition round64 (x : Q) : Q :=
  match Qnum x with
  | Z0 => 0%Q
  | Z.pos n => round_pos n (Qden x)
  | Z.neg n => Qopp (round_pos n (Qden x))
  end.

(** [float(n)] for an integer, [a / b] for integers ([b] positive: the
    quotient of the exact integers, rounded once), and the float
    operations the scan uses. *)
Definition float_of_int (n : Z) : Q := round64 (inject_Z n).
Definition int_truediv (a b : Z) : Q := round64 (Qmake a (Z.to_pos b)).
Definition float_mul (x y : Q) : Q := round64 (x * y).
Definition float_div (x y : Q) : Q := round64 (x / y).
Definition float_sub (x y : Q) : Q := round64 (x - y).

(** [int(x)]: truncation toward zero. *)
Definition py_int (x : Q) : Z := Z.quot (Qnum x) (Z.pos (Qden x)).

(** [f"{x:.2f}"], as the number of hundredths printed: the exact value of
    the float is rounded to two decimals, ties to even. *)
Definition format_2f (x : Q) : Z := rne (Qnum x * 100) (Z.pos (Qden x)).

(** [float(text)] for a text printed by [format_2f]. *)
Definition float_of_fixed2 (h : Z) : Q := round64 (Qmake h 100).

(** The literals [0.1], [1.0], [5.0] of the source. *)
Definition float_0_1 : Q := round64 (1 # 10).
Definition float_1_0 : Q := 1%Q.
Definition float_5_0 : Q := 5%Q.

(** [x > y] and truth value of a float. *)
Definition float_gt (x y : Q) : bool :=
  match (x ?= y)%Q with Gt => true | _ => false end.
Definition float_truthy (x : Q) : bool := negb (Qeq_bool x 0).

(** The rational denoted by a hardware binary64 number, and the percentage
    of the scan computed with the hardware operations; they serve to
    compare [round64] with the machine on instances. *)
Definition Q_of_prim (f : PrimFloat.float) : option Q :=
  match Prim2SF f with
  | S754_zero _ => Some 0%Q
  | S754_finite s m e => Some (dyadic (if s then Z.neg m else Z.pos m) e)
  | _ => None
  end.

Definition prim_percent (i total_files : nat) : option Z :=
  let f k := PrimFloat.of_uint63 (Uint63.of_Z (Z.of_nat k)) in
  option_map py_int
    (Q_of_prim (PrimFloat.mul (PrimFloat.div (f (S i)) (f total_files)) (f 100%nat))).

(* ------------------------------------------------------------------ *)
(** ** The operating system seen by one scan *)

(** [os_walk root] lists the triples [(dirpath, dirnames, filenames)] that
    [os.walk(root)] yields, in order; [os_path_getsize] is [None] where
    [os.path.getsize] raises. *)
Record OS := mkOS {
  os_walk : string -> list (string * list string * list string);
  os_path_abspath : string -> string;
  os_path_exists : string -> bool;
  os_path_getsize : string -> option N
}.

(* ------------------------------------------------------------------ *)
(** ** FileProcessorThread *)

Record FileProcessorThread := mkThread {
  root_directory : string;
  threshold_gb : Q;
  extensions : list string;
  cancel_requested : bool;
  paused : bool
}.

(** A candidate [(filename, file_path, size_mb, size_gb)] and an emitted
    row [(filename, file_path, f"{size_mb:.2f}", f"{size_gb:.2f}")]. *)
Definition Candidate : Type := string * string * Q * Q.
Definition Row : Type := string * string * Z * Z.

Inductive Signal :=
| progress_update (value : Z) (status_text : string)
| result_ready (results : list Row)
| cancelled
| live_file_signal (row : Row)
| eta_signal (eta : string).

Definition __init__ (root : string) (threshold : Q) (exts : list string)
  : FileProcessorThread :=
  {| root_directory := root;
     threshold_gb := if float_truthy threshold then threshold else float_1_0;
     extensions := map (fun ext => lower (strip ext))
                       (filter (fun ext => truthy (strip ext)) exts);
     cancel_requested := false;
     paused := false |}.

Definition get_file_size (os : OS) (file_path : string) : option Q * option Q :=
  match os_path_getsize os file_path with
  | Some size => (Some (int_truediv (Z.of_N size) (1024 ^ 2)),
                  Some (int_truediv (Z.of_N size) (1024 ^ 3)))
  | None => (None, None)
  end.

Definition cancel (self : FileProcessorThread) : FileProcessorThread :=
  {| root_directory := root_directory self; threshold_gb := threshold_gb self;
     extensions := extensions self; cancel_requested := true;
     paused := paused self |}.

Definition pause (self : FileProcessorThread) : FileProcessorThread :=
  {| root_directory := root_directory self; threshold_gb := threshold_gb self;
     extensions := extensions self; cancel_requested := cancel_requested self;
     paused := true |}.

Definition resume (self : FileProcessorThread) : FileProcessorThread :=
  {| root_directory := root_directory self; threshold_gb := threshold_gb self;
     extensions := extensions self; cancel_requested := cancel_requested self;
     paused := false |}.

(** The extension test of the first loop: [true] when the file goes on to
    the size probe. *)
Definition extension_ok (self : FileProcessorThread) (filename : string) : bool :=
  match extensions self with
  | [] => true
  | _ => existsb (fun ext => endswith (lower filename) ext) (extensions self)
  end.

(** The body of the inner loop of [run] after its cancel check: what, if
    anything, the file adds to [files_to_process]. *)
Definition examine (os : OS) (self : FileProcessorThread)
           (dirpath filename : string) : option Candidate :=
  let file_path := os_path_abspath os (join dirpath filename) in
  if negb (extension_ok self filename) then None
  else if negb (os_path_exists os file_path) then None
  else match get_file_size os file_path with
       | (Some size_mb, Some size_gb) =>
           if float_gt size_gb (threshold_gb self)
           then Some (filename, file_path, size_mb, size_gb)
           else None
       | _ => None
       end.

Definition row_of (c : Candidate) : Row :=
  let '(filename, file_path, size_mb, size_gb) := c in
  (filename, file_path, format_2f size_mb, format_2f size_gb).

(** [int((i + 1) / total_files * 100)]. *)
Definition progress_percent (i total_files : nat) : Z :=
  py_int (float_mul (int_truediv (Z.of_nat i + 1) (Z.of_nat total_files))
                    (float_of_int 100)).

(** [int((elapsed / (i + 1)) * (total_files - i - 1))]. *)
Definition remaining_seconds (elapsed : Q) (i total_files : nat) : Z :=
  py_int (float_mul (float_div elapsed (float_of_int (Z.of_nat i + 1)))
                    (float_of_int (Z.of_nat total_files - Z.of_nat i - 1))).

(** Where [run] stands.
    - [Enumerating pending]: in the first loop; [pending] are the items
      [os.walk] has still to give, the first one with the file names of
      the current directory that are still to be examined.
    - [PauseWait i todo]: at the head of the second loop, [i] candidates
      done and [todo] still to come, or inside [while self.paused].
    - [CancelCheck i c rest]: past the pause loop, at
      [if self.cancel_requested], with candidate [c] in hand.
    - [Finished]: [run] has returned. *)
Inductive Pc :=
| Enumerating (pending : list (string * list string * list string))
| PauseWait (i : nat) (todo : list Candidate)
| CancelCheck (i : nat) (c : Candidate) (rest : list Candidate)
| Finished.

(** The local variables of [run]. *)
Record Frame := mkFrame {
  pc : Pc;
  files_to_process : list Candidate;
  results : list Row;
  start_time : Q
}.

Definition goto (fr : Frame) (p : Pc) : Frame :=
  {| pc := p; files_to_process := files_to_process fr;
     results := results fr; start_time := start_time fr |}.

Definition run_entry (os : OS) (self : FileProcessorThread) : Frame :=
  {| pc := Enumerating (os_walk os (root_directory self));
     files_to_process := []; results := []; start_time := 0%Q |}.

(** One step of [run]: at most one read of a control flag.  [now] is what
    [time.time()] answers during the step.  The calls
    [QApplication.processEvents()] and [self.msleep(50)] that end an
    emission change nothing of the state kept here. *)
Definition run_step (os : OS) (now : Q) (self : FileProcessorThread)
           (fr : Frame) : Frame * list Signal :=
  match pc fr with
  | Enumerating [] =>
      let total_files := List.length (files_to_process fr) in
      if (total_files =? 0)%nat
      then (goto fr Finished,
            [progress_update 100 "No files found above threshold.";
             result_ready []])
      else ({| pc := PauseWait 0 (files_to_process fr);
               files_to_process := files_to_process fr;
               results := results fr; start_time := now |}, [])
  | Enumerating ((dirpath, dirnames, []) :: pending) =>
      (goto fr (Enumerating pending), [])
  | Enumerating ((dirpath, dirnames, filename :: filenames) :: pending) =>
      if cancel_requested self then (goto fr Finished, [cancelled])
      else
        let next := Enumerating ((dirpath, dirnames, filenames) :: pending) in
        match examine os self dirpath filename with
        | Some c =>
            ({| pc := next; files_to_process := files_to_process fr ++ [c];
                results := results fr; start_time := start_time fr |}, [])
        | None => (goto fr next, [])
        end
  | PauseWait i [] => (goto fr Finished, [result_ready (results fr)])
  | PauseWait i (c :: rest) =>
      if paused self then (fr, [])
      else (goto fr (CancelCheck i c rest), [])
  | CancelCheck i c rest =>
      if cancel_requested self then (goto fr Finished, [cancelled])
      else
        let total_files := List.length (files_to_process fr) in
        let elapsed := float_sub now (start_time fr) in
        let remaining := remaining_seconds elapsed i total_files in
        let filename := fst (fst (fst c)) in
        ({| pc := PauseWait (S i) rest;
            files_to_process := files_to_process fr;
            results := results fr ++ [row_of c];
            start_time := start_time fr |},
         [live_file_signal (row_of c);
          progress_update (progress_percent i total_files)
            (filename ++ " | " ++ str_of_int (Z.of_nat i + 1) ++ " of "
             ++ str_of_int (Z.of_nat total_files) ++ " | ~"
             ++ str_of_int remaining ++ "s left")%string;
          eta_signal ("ETA: ~" ++ str_of_int remaining ++ "s")%string])
  | Finished => (fr, [])
  end.

(** The scanner thread and the thread that owns the controls interleave:
    a tick is a call of a control method or a step of [run].  A step reads
    a control flag at most once, and first; a call that falls inside a step
    therefore has the effect of the same call placed after the step. *)
Inductive Tick :=
| call_cancel
| call_pause
| call_resume
| step (now : Q).

Definition State : Type := FileProcessorThread * Frame.

Definition tick (os : OS) (t : Tick) (st : State) : State * list Signal :=
  let (self, fr) := st in
  match t with
  | call_cancel => ((cancel self, fr), [])
  | call_pause => ((pause self, fr), [])
  | call_resume => ((resume self, fr), [])
  | step now => let (fr', out) := run_step os now self fr in ((self, fr'), out)
  end.

Fixpoint exec (os : OS) (ticks : list Tick) (st : State) : State * list Signal :=
  match ticks with
  | [] => (st, [])
  | t :: ticks' =>
      let (st1, out1) := tick os t st in
      let (st2, out2) := exec os ticks' st1 in
      (st2, out1 ++ out2)
  end.

(** [thread.start()]: the thread as constructed, [run] at its entry. *)
Definition start (os : OS) (self : FileProcessorThread) : State :=
  (self, run_entry os self).

(** Readings of a signal stream. *)
Definition discovered (out : list Signal) : list Row :=
  flat_map (fun s => match s with live_file_signal r => [r] | _ => [] end) out.

Definition percents (out : list Signal) : list Z :=
  flat_map (fun s => match s with progress_update v _ => [v] | _ => [] end) out.

Definition is_result_ready (s : Signal) : bool :=
  match s with result_ready _ => true | _ => false end.

Definition is_cancelled (s : Signal) : bool :=
  match s with cancelled => true | _ => false end.

(** What the first loop collects when no cancel stops it. *)
Definition candidates (os : OS) (self : FileProcessorThread) : list Candidate :=
  flat_map (fun item =>
              let '(dirpath, _, filenames) := item in
              flat_map (fun filename =>
                          match examine os self dirpath filename with
                          | Some c => [c]
                          | None => []
                          end) filenames)
           (os_walk os (root_directory self)).

(* ------------------------------------------------------------------ *)
(** ** FileAnalyzerUI *)

(** A tree item: its four column texts (the size columns of a folder item
    are empty, [None]), whether column 3 is painted red, and its children.
    Items live in a store and are named by their index in it, because the
    dictionary [folder_items] and the table hold the same folder item.
    [children], like the list [table] of the window, holds the items in the
    order they were added: [addChild] and [addTopLevelItem] put the new
    item at the end.  The widget sorts, so this is not the order in which
    [child(i)] and [topLevelItem(i)] give the items back: see [Sorting]. *)
Record QTreeWidgetItem := mkItem {
  text0 : string;
  text1 : string;
  text2 : option Z;
  text3 : option Z;
  red_background : bool;
  children : list nat
}.

(** [folder_items] is a [dict], kept in insertion order; [table] lists the
    top-level items of the tree widget in the order they were added
    ([topLevelItem] gives them in the order of the sort). *)
Record FileAnalyzerUI := mkUI {
  folder_items : list (string * nat);
  table : list nat;
  items : list QTreeWidgetItem
}.

(** The state after [self.table.clear()] and [self.folder_items.clear()]. *)
Definition cleared : FileAnalyzerUI :=
  {| folder_items := []; table := []; items := [] |}.

Fixpoint dict_get (k : string) (d : list (string * nat)) : option nat :=
  match d with
  | [] => None
  | (k', v) :: d' => if String.eqb k k' then Some v else dict_get k d'
  end.

(** [parent.addChild(child)] in the store: the child goes to the end of the
    list of its parent.  The widget sorts that list before it is read;
    [child] reads it through the sort. *)
Fixpoint addChild (parent child : nat) (store : list QTreeWidgetItem)
  : list QTreeWidgetItem :=
  match store, parent with
  | [], _ => []
  | it :: store', O =>
      {| text0 := text0 it; text1 := text1 it; text2 := text2 it;
         text3 := text3 it; red_background := red_background it;
         children := children it ++ [child] |} :: store'
  | it :: store', S p => it :: addChild p child store'
  end.

(** [add_row].  [addTopLevelItem] puts a new folder item at the end of the
    list of the table, as [addChild] does with the child; the dictionary
    entry of a new folder goes to the end of the dictionary.  What the
    widget gives back of the two lists is read through [topLevelItem] and
    [child]. *)
Definition add_row (ui : FileAnalyzerUI) (row_data : Row) : FileAnalyzerUI :=
  let '(filename, filepath, size_mb, size_gb) := row_data in
  let folder := dirname filepath in
  let '(ui1, folder_item) :=
    match dict_get folder (folder_items ui) with
    | None =>
        let h := List.length (items ui) in
        ({| folder_items := folder_items ui ++ [(folder, h)];
            table := table ui ++ [h];
            items := items ui ++ [mkItem (basename folder) folder None None false []] |},
         h)
    | Some h => (ui, h)
    end in
  let child := List.length (items ui1) in
  let child_item :=
    mkItem filename filepath (Some size_mb) (Some size_gb)
           (float_gt (float_of_fixed2 size_gb) float_5_0) [] in
  {| folder_items := folder_items ui1;
     table := table ui1;
     items := addChild folder_item child (items ui1 ++ [child_item]) |}.

(** The row that a file item carries, the rows of the children of an item
    and the folder groups [(folder path, child rows)] behind a list of
    handles, all in the order the items were added. *)
Definition item_row (it : QTreeWidgetItem) : list Row :=
  match text2 it, text3 it with
  | Some mb, Some gb => [(text0 it, text1 it, mb, gb)]
  | _, _ => []
  end.

Definition child_rows (store : list QTreeWidgetItem) (it : QTreeWidgetItem)
  : list Row :=
  flat_map (fun c => match nth_error store c with
                     | Some ch => item_row ch
                     | None => []
                     end) (children it).

Definition groups_of (store : list QTreeWidgetItem) (handles : list nat)
  : list (string * list Row) :=
  flat_map (fun h => match nth_error store h with
                     | Some it => [(text1 it, child_rows store it)]
                     | None => []
                     end) handles.

(** The groups behind the top-level items, in the order the items were
    added. *)
Definition as_added (ui : FileAnalyzerUI) : list (string * list Row) :=
  groups_of (items ui) (table ui).

(** The tree widget sorts: [init_ui] calls [setSortingEnabled(True)], and
    from then on [topLevelItem(i)] and [child(i)] give the items of a list
    in the order of the view's sort at the time of the call (the column and
    the direction of the sort indicator, which a click on a header
    changes), not in the order they were added.  A [Sorting] is that
    order: from the store and the handles of a list as added, the handles
    as the widget gives them. *)
Definition Sorting : Type := list QTreeWidgetItem -> list nat -> list nat.

(** [item.child(0)], [item.child(1)], ... and [table.topLevelItem(0)],
    [table.topLevelItem(1)], ... *)
Definition child (srt : Sorting) (store : list QTreeWidgetItem)
           (it : QTreeWidgetItem) : list nat :=
  srt store (children it).

Definition topLevelItem (srt : Sorting) (ui : FileAnalyzerUI) : list nat :=
  srt (items ui) (table ui).

(** The rows read from the children of an item and the folder groups read
    from a list of folder items, through [child]. *)
Definition rows_under (srt : Sorting) (store : list QTreeWidgetItem)
           (it : QTreeWidgetItem) : list Row :=
  flat_map (fun c => match nth_error store c with
                     | Some ch => item_row ch
                     | None => []
                     end) (child srt store it).

Definition groups_under (srt : Sorting) (store : list QTreeWidgetItem)
           (handles : list nat) : list (string * list Row) :=
  flat_map (fun h => match nth_error store h with
                     | Some it => [(text1 it, rows_under srt store it)]
                     | None => []
                     end) handles.

(** The tree as the widget gives it (top-level items, then their
    children) and as reached through the dictionary (its values in key
    insertion order, their children as the widget gives them). *)
Definition tree (srt : Sorting) (ui : FileAnalyzerUI) : list (string * list Row) :=
  groups_under srt (items ui) (topLevelItem srt ui).

Definition indexed (srt : Sorting) (ui : FileAnalyzerUI)
  : list (string * list Row) :=
  groups_under srt (items ui) (map snd (folder_items ui)).

(** Two sorts that the view offers: by the text of the first column,
    ascending or descending ([descending] is the direction of the sort
    indicator).  The sort is stable; texts are compared by code point,
    which is the order of the locale on the names used here. *)
Fixpoint insert_handle (before : string -> string -> bool) (key : nat -> string)
         (h : nat) (l : list nat) : list nat :=
  match l with
  | [] => [h]
  | x :: l' =>
      if before (key h) (key x) then h :: l
      else x :: insert_handle before key h l'
  end.

Definition by_name (descending : bool) : Sorting :=
  fun store handles =>
    let key h := match nth_error store h with
                 | Some it => text0 it
                 | None => EmptyString
                 end in
    let before a b := if descending then String.ltb b a else String.ltb a b in
    fold_left (fun acc h => insert_handle before key h acc) handles [].

(** [sorted(..., reverse=True)] on [(size, label)] tuples: tuples compare
    by size, then by label; the sort is stable and [reverse] keeps the
    order of equal tuples (the list is reversed, sorted, reversed). *)
Definition tuple_lt (a b : Q * string) : bool :=
  match (fst a ?= fst b)%Q with
  | Lt => true
  | Gt => false
  | Eq => String.ltb (snd a) (snd b)
  end.

Fixpoint insert_sorted (x : Q * string) (l : list (Q * string)) : list (Q * string) :=
  match l with
  | [] => [x]
  | y :: l' => if tuple_lt y x then y :: insert_sorted x l' else x :: l
  end.

Fixpoint sorted (l : list (Q * string)) : list (Q * string) :=
  match l with
  | [] => []
  | x :: l' => insert_sorted x (sorted l')
  end.

Definition sorted_reverse (l : list (Q * string)) : list (Q * string) :=
  rev (sorted (rev l)).

(** The two lists filled by the loops of [render_funnel_chart]: the
    dictionary in key insertion order, the children of each folder item
    through [child]. *)
Definition chart_points (srt : Sorting) (ui : FileAnalyzerUI) : list (Q * string) :=
  flat_map (fun entry =>
              match nth_error (items ui) (snd entry) with
              | Some item =>
                  flat_map (fun c =>
                              match nth_error (items ui) c with
                              | Some child =>
                                  match text3 child with
                                  | Some gb => [(float_of_fixed2 gb, text0 child)]
                                  | None => []
                                  end
                              | None => []
                              end) (child srt (items ui) item)
              | None => []
              end) (folder_items ui).

Inductive Chart :=
| NoData
| Funnel (sizes : list Q) (labels : list string).

(** [render_funnel_chart] up to the sorted [sizes] and [labels]; the
    drawing calls that follow are not part of the embedding. *)
Definition render_funnel_chart (srt : Sorting) (ui : FileAnalyzerUI) : Chart :=
  let sizes := map fst (chart_points srt ui) in
  let labels := map snd (chart_points srt ui) in
  match sizes with
  | [] => NoData
  | _ =>
      let sorted_data := sorted_reverse (combine sizes labels) in
      Funnel (map fst sorted_data) (map snd sorted_data)
  end.

(** [start_scan]: the status text when no scan starts, or the thread it
    constructs.  [float] is Python's [float(text)], [None] where it raises
    [ValueError]. *)
Definition start_scan (float : string -> option Q) (folder_path : option string)
           (size_input ext_input : string) : string + FileProcessorThread :=
  match folder_path with
  | None => inl "Please select a folder."
  | Some folder =>
      if negb (truthy folder) then inl "Please select a folder."
      else
        match (if truthy size_input then float size_input else Some float_0_1) with
        | None => inl "Invalid size value."
        | Some threshold =>
            inr (__init__ folder threshold (split ","%char ext_input))
        end
  end.

(* ------------------------------------------------------------------ *)
(** ** Reference definitions used to state the properties *)

(** The distinct elements of a list, in the order of their first
    occurrence. *)
Fixpoint distinct (l : list string) : list string :=
  match l with
  | [] => []
  | x :: l' => x :: filter (fun y => negb (String.eqb y x)) (distinct l')
  end.

Definition folder_of (r : Row) : string := dirname (snd (fst (fst r))).

(** One group per distinct folder, in first-seen order, holding the rows
    of that folder in arrival order. *)
Definition group_by_folder (rows : list Row) : list (string * list Row) :=
  map (fun f => (f, filter (fun r => String.eqb (folder_of r) f) rows))
      (distinct (map folder_of rows)).

(** Arrival of one row in a list of groups: it joins the group of its
    folder, or opens a new last group. *)
Fixpoint ingest (groups : list (string * list Row)) (r : Row)
  : list (string * list Row) :=
  match groups with
  | [] => [(folder_of r, [r])]
  | (f, kids) :: groups' =>
      if String.eqb (folder_of r) f then (f, kids ++ [r]) :: groups'
      else (f, kids) :: ingest groups' r
  end.

(** The dictionary entry [entry] stands for the group [group]: its handle
    names a folder item of that path whose children, in the order they
    were added, are the rows of the group; the children are items of the
    store that are not top-level items. *)
Definition folder_ok (store : list QTreeWidgetItem) (top : list nat)
           (entry : string * nat) (group : string * list Row) : Prop :=
  fst entry = fst group /\
  exists it,
    nth_error store (snd entry) = Some it /\ text1 it = fst group /\
    child_rows store it = snd group /\
    Forall (fun c => (c < List.length store)%nat /\ ~ In c top) (children it).

(** The window state [ui] holds exactly the groups [groups]: the list of
    the table, as added, names the folder items of the dictionary, in the
    same order, each once. *)
Definition represents (ui : FileAnalyzerUI) (groups : list (string * list Row))
  : Prop :=
  table ui = map snd (folder_items ui) /\
  NoDup (table ui) /\
  Forall2 (folder_ok (items ui) (table ui)) (folder_items ui) groups.

(** [a] is not above [b] in the tuple order: the test the sort makes. *)
Definition tuple_le (a b : Q * string) : Prop := tuple_lt b a = false.

(** What is assumed of the sort of the view: it gives back the items it
    is given, each once. *)
Definition rearranges (srt : Sorting) : Prop :=
  forall store handles, Permutation (srt store handles) handles.

(** Two groups of the same folder with the same rows, and two lists of
    groups that hold the same groups, whatever the order of the groups
    and of the rows in each. *)
Definition group_matches (a b : string * list Row) : Prop :=
  fst a = fst b /\ Permutation (snd a) (snd b).

Definition same_groups (a b : list (string * list Row)) : Prop :=
  exists c, Permutation a c /\ Forall2 group_matches c b.

(** [a] may stand before [b] in the chart: its size is not smaller and,
    when the sizes are equal, its label is not smaller either. *)
Definition ranks_before (a b : Q * string) : Prop :=
  (fst b <= fst a)%Q /\
  ((fst a == fst b)%Q -> String.ltb (snd a) (snd b) = false).

Definition chart_sizes (c : Chart) : list Q :=
  match c with NoData => [] | Funnel sizes _ => sizes end.

Definition chart_labels (c : Chart) : list string :=
  match c with NoData => [] | Funnel _ labels => labels end.

(** All white space (or empty). *)
Fixpoint all_space (s : string) : bool :=
  match s with
  | EmptyString => true
  | String c s' => isspace c && all_space s'
  end.

(** [core] is [e] stripped of the white space around it: [e] is [core]
    between two runs of white space, and [core] neither starts nor ends
    with white space. *)
Definition starts_with_space (s : string) : bool :=
  match s with
  | EmptyString => false
  | String c _ => isspace c
  end.

Fixpoint ends_with_space (s : string) : bool :=
  match s with
  | EmptyString => false
  | String c EmptyString => isspace c
  | String _ s' => ends_with_space s'
  end.

Definition stripped_of (e core : string) : Prop :=
  exists pre post,
    e = (pre ++ core ++ post)%string /\
    all_space pre = true /\ all_space post = true /\
    starts_with_space core = false /\ ends_with_space core = false.

(** The capital letters below code point 256 with their small letters:
    A to Z, and the capitals of Latin-1 (192 to 222, without the
    multiplication sign 215), whose small letters stand 32 places
    further.  [small_letter] is the small letter of a capital and any
    other character itself. *)
Definition letter_pairs : list (ascii * ascii) :=
  combine (list_ascii_of_string "ABCDEFGHIJKLMNOPQRSTUVWXYZ")
          (list_ascii_of_string "abcdefghijklmnopqrstuvwxyz")
  ++ filter (fun p => negb (Ascii.eqb (fst p) (ascii_of_nat 215)))
            (combine (map ascii_of_nat (seq 192 31)) (map ascii_of_nat (seq 224 31))).

Definition small_letter (c : ascii) : ascii :=
  match find (fun p => Ascii.eqb (fst p) c) letter_pairs with
  | Some p => snd p
  | None => c
  end.

(** [x] is [core] in lower case: the same length, and at every place the
    small letter of the character of [core]. *)
Definition lowercase_of (core x : string) : Prop :=
  String.length x = String.length core /\
  forall k, String.get k x = option_map small_letter (String.get k core).

(** Two threads that carry the same request (the control flags may differ). *)
Definition same_request (a b : FileProcessorThread) : Prop :=
  root_directory a = root_directory b /\
  threshold_gb a = threshold_gb b /\
  extensions a = extensions b.

(** The candidates that the items [pending] of the walk still hold. *)
Definition found (os : OS) (self : FileProcessorThread)
           (pending : list (string * list string * list string)) : list Candidate :=
  flat_map (fun item =>
              let '(dirpath, _, filenames) := item in
              flat_map (fun filename =>
                          match examine os self dirpath filename with
                          | Some c => [c]
                          | None => []
                          end) filenames)
           pending.

(** Steps of the first loop that [pending] still takes: one per file and
    one per directory. *)
Fixpoint work (pending : list (string * list string * list string)) : nat :=
  match pending with
  | [] => O
  | (_, _, filenames) :: pending' => S (List.length filenames + work pending')
  end.

Definition is_step (t : Tick) : bool :=
  match t with step _ => true | _ => false end.

Definition steps (ticks : list Tick) : nat :=
  List.length (filter is_step ticks).

Definition no_cancel (ticks : list Tick) : bool :=
  forallb (fun t => match t with call_cancel => false | _ => true end) ticks.

Definition no_pause (ticks : list Tick) : bool :=
  forallb (fun t => match t with call_pause => false | _ => true end) ticks.

Definition no_resume (ticks : list Tick) : bool :=
  forallb (fun t => match t with call_resume => false | _ => true end) ticks.

(** A signal that does not end the scan. *)
Definition quiet (s : Signal) : bool :=
  negb (is_result_ready s || is_cancelled s).

(** [out] is what the second loop has sent after [i] of the candidates
    [cs]: their rows in order, one percentage each, nothing final. *)
Definition emitted_upto (cs : list Candidate) (i : nat) (out : list Signal) : Prop :=
  discovered out = map row_of (firstn i cs) /\
  percents out = map (fun k => progress_percent k (List.length cs)) (seq 0 i) /\
  forallb quiet out = true.

(** What holds of a scan of the request [self0] that has sent [out] and
    stands in state [st]. *)
Definition scan_inv (os : OS) (self0 : FileProcessorThread) (st : State)
           (out : list Signal) : Prop :=
  same_request self0 (fst st) /\
  let cs := candidates os self0 in
  match pc (snd st) with
  | Enumerating pending =>
      out = [] /\ results (snd st) = [] /\
      files_to_process (snd st) ++ found os self0 pending = cs
  | PauseWait i todo =>
      files_to_process (snd st) = cs /\ cs <> [] /\ todo = skipn i cs /\
      (i <= List.length cs)%nat /\
      results (snd st) = map row_of (firstn i cs) /\ emitted_upto cs i out
  | CancelCheck i c rest =>
      files_to_process (snd st) = cs /\ c :: rest = skipn i cs /\
      results (snd st) = map row_of (firstn i cs) /\ emitted_upto cs i out
  | Finished =>
      (cancel_requested (fst st) = true /\ out = [cancelled]) \/
      (cs = [] /\
       out = [progress_update 100 "No files found above threshold."; result_ready []]) \/
      (cancel_requested (fst st) = true /\
       exists i body, (i < List.length cs)%nat /\ emitted_upto cs i body /\
                      out = body ++ [cancelled]) \/
      (cs <> [] /\
       exists body, emitted_upto cs (List.length cs) body /\
                    out = body ++ [result_ready (map row_of cs)])
  end.

(** Candidate number [i] is pending: [run] is in the pause loop or at the
    cancel check of that iteration. *)
Definition awaiting (i : nat) (fr : Frame) : Prop :=
  exists c rest, pc fr = PauseWait i (c :: rest) \/ pc fr = CancelCheck i c rest.

Definition in_second_loop (st : State) : bool :=
  match pc (snd st) with
  | PauseWait _ _ | CancelCheck _ _ _ => true
  | _ => false
  end.

(* ------------------------------------------------------------------ *)
(** ** Worked inputs *)

(** A root [/r] with [big.mp4] (2 GiB), [small.txt] (about 0.01 GiB) and
    [half.bin] (one byte more than half a GiB). *)
Definition three_files : OS :=
  mkOS (fun _ => [("/r", [], ["big.mp4"; "small.txt"; "half.bin"])])
       (fun p => p)
       (fun _ => true)
       (fun p => if String.eqb p "/r/big.mp4" then Some 2147483648%N
                 else if String.eqb p "/r/small.txt" then Some 10737418%N
                 else if String.eqb p "/r/half.bin" then Some 536870913%N
                 else None).

(** A root that lists no file. *)
Definition empty_root : OS :=
  mkOS (fun _ => [("/r", [], [])]) (fun p => p) (fun _ => false) (fun _ => None).

(** A root with a hundred files of 2 GiB, [f1] to [f100]. *)
Definition hundred_files : OS :=
  mkOS (fun _ => [("/r", [],
                   map (fun k => ("f" ++ str_of_int (Z.of_nat k))%string) (seq 1 100))])
       (fun p => p)
       (fun _ => true)
       (fun _ => Some 2147483648%N).

(** The request [/r], threshold 0.5, no filter. *)
Definition half_scan : FileProcessorThread := __init__ "/r" (1 # 2) [].

Definition half_row : Row := ("half.bin", "/r/half.bin", 51200, 50).

(** Three rows in two folders, and three rows of which the first and the
    last have the same size. *)
Definition x_row : Row := ("x.txt", "/a/b/x.txt", 204800, 200).
Definition y_row : Row := ("y.txt", "/a/b/y.txt", 307200, 300).
Definition z_row : Row := ("z.txt", "/a/c/z.txt", 409600, 400).

Definition tie_rows : list Row :=
  [("a.bin", "/a/b/a.bin", 512000, 500);
   ("z.bin", "/a/b/z.bin", 102400, 100);
   ("b.bin", "/a/c/b.bin", 512000, 500)].

(* ------------------------------------------------------------------ *)
(** ** The rest of the window: the slots, the chart bars, the export *)

(** [QProgressBar.setValue] on the bar of the window, whose range is
    0..100: a value outside the range is ignored. *)
Definition setValue (bar value : Z) : Z :=
  if (0 <=? value) && (value <=? 100) then value else bar.

(** [max] of a sequence of floats ([None] on an empty one) and
    [x / y] on floats ([None] is [ZeroDivisionError]). *)
Definition py_max (l : list Q) : option Q :=
  match l with
  | [] => None
  | x :: l' => Some (fold_left (fun m y => if float_gt y m then y else m) l' x)
  end.

Definition float_truediv (x y : Q) : option Q :=
  if Qeq_bool y 0 then None else Some (float_div x y).

(** What [render_funnel_chart] hands to the canvas: the "no data" text,
    or the bars (sorted sizes and labels, [width = s / max(sizes)],
    [left = (1 - w) / 2]), or the [ZeroDivisionError] that the computation
    of the widths raises. *)
Inductive Drawing :=
| no_data_text
| bars (sizes : list Q) (labels : list string) (width left : list Q)
| ZeroDivisionError.

Fixpoint widths_of (sizes : list Q) (m : Q) : option (list Q) :=
  match sizes with
  | [] => Some []
  | s :: sizes' =>
      match float_truediv s m with
      | None => None
      | Some w =>
          match widths_of sizes' m with
          | None => None
          | Some ws => Some (w :: ws)
          end
      end
  end.

Definition draw_funnel (srt : Sorting) (ui : FileAnalyzerUI) : Drawing :=
  let sizes := map fst (chart_points srt ui) in
  let labels := map snd (chart_points srt ui) in
  match sizes with
  | [] => no_data_text
  | _ =>
      let sorted_data := sorted_reverse (combine sizes labels) in
      let sizes := map fst sorted_data in
      let labels := map snd sorted_data in
      match py_max sizes with
      | None => bars sizes labels [] []
      | Some m =>
          match widths_of sizes m with
          | None => ZeroDivisionError
          | Some width =>
              bars sizes labels width
                   (map (fun w => float_div (float_sub 1 w) (float_of_int 2)) width)
          end
      end
  end.

(** The widgets that the slots write.  [chart_canvas] is what the last
    [render_funnel_chart] produced, [None] before any. *)
Record Window := mkWindow {
  view : FileAnalyzerUI;
  progress_bar : Z;
  status_label : string;
  window_title : string;
  cancel_button : bool;
  pause_button : bool;
  export_button : bool;
  chart_canvas : option Drawing
}.

Definition update_progress (w : Window) (value : Z) (status_text : string) : Window :=
  {| view := view w;
     progress_bar := setValue (progress_bar w) value;
     status_label := ("Processing: " ++ status_text)%string;
     window_title := window_title w;
     cancel_button := cancel_button w; pause_button := pause_button w;
     export_button := export_button w; chart_canvas := chart_canvas w |}.

Definition update_eta_title (w : Window) (eta : string) : Window :=
  {| view := view w; progress_bar := progress_bar w;
     status_label := status_label w;
     window_title := ("File Analyzer - " ++ eta)%string;
     cancel_button := cancel_button w; pause_button := pause_button w;
     export_button := export_button w; chart_canvas := chart_canvas w |}.

(** [show_results]; the call of [adjust_columns_to_fit] that it leaves to
    a timer is not part of it. *)
Definition show_results (srt : Sorting) (w : Window) (results : list Row)
  : Window :=
  {| view := view w; progress_bar := progress_bar w;
     status_label := ("Completed. " ++ str_of_int (Z.of_nat (List.length results))
                      ++ " large files found.")%string;
     window_title := "File Analyzer - Done";
     cancel_button := false; pause_button := false;
     export_button := true;
     chart_canvas := Some (draw_funnel srt (view w)) |}.

Definition thread_cancelled (w : Window) : Window :=
  {| view := view w; progress_bar := setValue (progress_bar w) 0;
     status_label := "Scan cancelled.";
     window_title := "File Analyzer - Cancelled";
     cancel_button := false; pause_button := false;
     export_button := export_button w; chart_canvas := chart_canvas w |}.

(** What [start_scan] does to the widgets once it has its threshold. *)
Definition scan_started (w : Window) : Window :=
  {| view := cleared; progress_bar := setValue (progress_bar w) 0;
     status_label := "Scanning...";
     window_title := window_title w;
     cancel_button := true; pause_button := true;
     export_button := false; chart_canvas := chart_canvas w |}.

(** The connections made by [start_scan]: the slot each signal runs. *)
Definition deliver (srt : Sorting) (w : Window) (s : Signal) : Window :=
  match s with
  | progress_update value status_text => update_progress w value status_text
  | result_ready results => show_results srt w results
  | cancelled => thread_cancelled w
  | live_file_signal row =>
      {| view := add_row (view w) row; progress_bar := progress_bar w;
         status_label := status_label w; window_title := window_title w;
         cancel_button := cancel_button w; pause_button := pause_button w;
         export_button := export_button w; chart_canvas := chart_canvas w |}
  | eta_signal eta => update_eta_title w eta
  end.

(** A cell of the exported table: a text, or a size text kept as its
    hundredths. *)
Inductive Cell :=
| Text (s : string)
| Number2 (h : Z).

Definition size_cell (t : option Z) : Cell :=
  match t with Some h => Number2 h | None => Text "" end.

Definition item_cells (it : QTreeWidgetItem) : list Cell :=
  [Text (text0 it); Text (text1 it); size_cell (text2 it); size_cell (text3 it)].

Definition row_cells (r : Row) : list Cell :=
  let '(filename, filepath, size_mb, size_gb) := r in
  [Text filename; Text filepath; Number2 size_mb; Number2 size_gb].

Definition csv_header : list Cell :=
  [Text "File Name"; Text "File Path"; Text "Size (MB)"; Text "Size (GB)"].

(** [export_csv]: the rows given to the CSV writer, in the order in which
    the widget gives the items ([topLevelItem], [child]); [None] when the
    dialog returns no path.  [path] is the answer of the dialog. *)
Definition export_csv (srt : Sorting) (path : string) (ui : FileAnalyzerUI)
  : option (list (list Cell)) :=
  if negb (truthy path) then None
  else
    Some (csv_header ::
          flat_map (fun h =>
                      match nth_error (items ui) h with
                      | Some folder_item =>
                          flat_map (fun c =>
                                      match nth_error (items ui) c with
                                      | Some child => [item_cells child]
                                      | None => []
                                      end) (child srt (items ui) folder_item)
                      | None => []
                      end) (topLevelItem srt ui)).

(** [adjust_columns_to_fit]: from the width of the viewport and the
    widths of the columns sized to their contents, the widths set and
    whether the header is made interactive; [None] is the
    [ZeroDivisionError] of [extra_space // column_count]. *)
Definition adjust_columns_to_fit (total_width : Z) (widths : list Z)
  : option (list Z * bool) :=
  let column_count := Z.of_nat (List.length widths) in
  let total_content_width := fold_right Z.add 0 widths in
  if total_content_width <? total_width then
    if column_count =? 0 then None
    else
      let extra_space := total_width - total_content_width in
      let per_column_extra := extra_space / column_count in
      Some (map (fun w => w + per_column_extra) widths, true)
  else Some (widths, false).

(* ------------------------------------------------------------------ *)
(** ** More reference definitions *)

(** The three signals of one emission, and a run of emissions. *)
Definition emission (e : Row * (Z * string) * string) : list Signal :=
  let '(row, (value, status_text), eta) := e in
  [live_file_signal row; progress_update value status_text; eta_signal eta].

Definition emissions (l : list (Row * (Z * string) * string)) : list Signal :=
  flat_map emission l.

(** The absolute paths of the files of the walk, in order. *)
Definition paths_of (os : OS) (pending : list (string * list string * list string))
  : list string :=
  flat_map (fun item =>
              let '(dirpath, _, filenames) := item in
              map (fun filename => os_path_abspath os (join dirpath filename))
                  filenames)
           pending.

Definition row_path (r : Row) : string := snd (fst (fst r)).

(** Steps that [run] still needs, at most, when it is neither cancelled
    nor paused, in a scan of [M] candidates. *)
Definition fuel_needed (M : nat) (fr : Frame) : nat :=
  match pc fr with
  | Enumerating pending => work pending + 2 * M + 2
  | PauseWait _ todo => 2 * List.length todo + 1
  | CancelCheck _ _ rest => 2 * List.length rest + 2
  | Finished => 0
  end.

(** The form of the signal stream of a scan that stands in [st]: nothing
    during the first loop, whole emissions during the second, and after
    [run] has returned whole emissions closed by one final signal (or the
    two signals of the empty scan). *)
Definition grammar (st : State) (out : list Signal) : Prop :=
  match pc (snd st) with
  | Enumerating _ => out = []
  | PauseWait _ _ | CancelCheck _ _ _ => exists es, out = emissions es
  | Finished =>
      exists es,
        out = emissions es ++ [cancelled] \/
        (exists rs, out = emissions es ++ [result_ready rs]) \/
        out = [progress_update 100 "No files found above threshold.";
               result_ready []]
  end.

(** White space or a comma. *)
Definition blank_or_comma (c : ascii) : bool :=
  isspace c || Ascii.eqb c ","%char.

(** A text of white space and commas only. *)
Fixpoint blank_field (s : string) : bool :=
  match s with
  | EmptyString => true
  | String c s' => blank_or_comma c && blank_field s'
  end.

(** The handle [c] names an item of the store that carries its two size
    texts, as the items made for files do. *)
Definition sized (store : list QTreeWidgetItem) (c : nat) : bool :=
  match nth_error store c with
  | Some ch =>
      match text2 ch, text3 ch with
      | Some _, Some _ => true
      | _, _ => false
      end
  | None => false
  end.

(** Every child of every item of the store is such an item. *)
Definition file_children (store : list QTreeWidgetItem) : Prop :=
  forall k it, nth_error store k = Some it ->
               forallb (sized store) (children it) = true.

(** The point of the chart that a row gives: [(float(size_gb), filename)]. *)
Definition point_of (r : Row) : Q * string :=
  (float_of_fixed2 (snd r), fst (fst (fst r))).

(** The slots that the signals of [out] run, one after the other, on the
    window that [start_scan] has prepared. *)
Definition window_after (srt : Sorting) (w0 : Window) (out : list Signal)
  : Window :=
  fold_left (deliver srt) out (scan_started w0).

(** The window as [init_ui] leaves it. *)
Definition initial_window : Window :=
  {| view := cleared; progress_bar := 0;
     status_label := "Status: Waiting";
     window_title := "📁 File Analyzer - Dark Mode";
     cancel_button := false; pause_button := false;
     export_button := false; chart_canvas := None |}.

(** Two rows whose size in GB prints as 0.00. *)
Definition small_rows : list Row :=
  [("a.txt", "/d/a.txt", 205, 0); ("b.txt", "/d/b.txt", 410, 0)].

(* ================================================================== *)
(** * Properties of the scanner *)

Section Scan.

Variable os : OS.

Lemma exec_app ticks1 ticks2 st :
  exec os (ticks1 ++ ticks2) st =
  let (st1, out1) := exec os ticks1 st in
  let (st2, out2) := exec os ticks2 st1 in (st2, out1 ++ out2).
Proof.
  revert st; induction ticks1 as [|t ticks1 IH]; intros st; simpl.
  - destruct (exec os ticks2 st); reflexivity.
  - destruct (tick os t st) as [st1 out1]. rewrite IH.
    destruct (exec os ticks1 st1) as [st2 out2].
    destruct (exec os ticks2 st2). now rewrite app_assoc.
Qed.

Lemma same_request_refl a : same_request a a.
Proof. repeat split. Qed.

Lemma same_request_trans a b c :
  same_request a b -> same_request b c -> same_request a c.
Proof.
  intros (H1 & H2 & H3) (K1 & K2 & K3); repeat split; congruence.
Qed.

Lemma examine_same_request a b dirpath filename :
  same_request a b -> examine os a dirpath filename = examine os b dirpath filename.
Proof.
  intros (_ & H1 & H2). unfold examine, extension_ok. now rewrite H1, H2.
Qed.

Lemma found_same_request a b pending :
  same_request a b -> found os a pending = found os b pending.
Proof.
  intros H. unfold found. apply flat_map_ext; intros [[d dn] fs].
  apply flat_map_ext; intros f. now rewrite (examine_same_request a b).
Qed.

Lemma discovered_app a b : discovered (a ++ b) = discovered a ++ discovered b.
Proof. apply flat_map_app. Qed.

Lemma percents_app a b : percents (a ++ b) = percents a ++ percents b.
Proof. apply flat_map_app. Qed.

Lemma skipn_cons_inv {A} (l : list A) i c rest :
  skipn i l = c :: rest ->
  firstn (S i) l = firstn i l ++ [c] /\ skipn (S i) l = rest /\
  (i < List.length l)%nat.
Proof.
  revert l; induction i as [|i IH]; intros [|x l] H; simpl in *; try discriminate.
  - inversion H; subst. repeat split. lia.
  - destruct (IH l H) as (H1 & H2 & H3). repeat split.
    + simpl in H1. now rewrite H1.
    + exact H2.
    + lia.
Qed.

Lemma skipn_nil_inv {A} (l : list A) i :
  skipn i l = [] -> (i <= List.length l)%nat -> i = List.length l.
Proof.
  revert l; induction i as [|i IH]; intros [|x l] H Hle; simpl in *;
    try discriminate; try lia.
  f_equal. apply IH; [exact H | lia].
Qed.

Lemma emitted_upto_step cs i c rest out now_msg eta :
  skipn i cs = c :: rest ->
  emitted_upto cs i out ->
  emitted_upto cs (S i)
    (out ++ [live_file_signal (row_of c);
             progress_update (progress_percent i (List.length cs)) now_msg;
             eta_signal eta]).
Proof.
  intros Hs (Hd & Hp & Hq). destruct (skipn_cons_inv _ _ _ _ Hs) as (Hf & _ & _).
  repeat split.
  - rewrite discovered_app, Hd, Hf, map_app. reflexivity.
  - rewrite percents_app, Hp, seq_S, map_app. reflexivity.
  - rewrite forallb_app, Hq. reflexivity.
Qed.

(** Every tick keeps the invariant. *)
Lemma tick_inv self0 t st out st' out' :
  scan_inv os self0 st out ->
  tick os t st = (st', out') ->
  scan_inv os self0 st' (out ++ out').
Proof.
  destruct st as [self fr]. intros [Hreq Hinv] Ht.
  destruct t; simpl in Ht.
  1-3: inversion Ht; subst; clear Ht; rewrite app_nil_r; split;
    [ destruct Hreq as (R1 & R2 & R3); repeat split; assumption
    | simpl in *; destruct (pc fr); try assumption;
      destruct Hinv as [[Hc Ho]|[H|[[Hc H]|H]]]; auto ].
  unfold run_step in Ht. simpl in Hinv.
  destruct (pc fr) as [pending | i todo | i c rest | ] eqn:Hpc.
  - destruct Hinv as (Ho & Hr & Hf). subst out.
    destruct pending as [|[[dirpath dirnames] filenames] pending].
    + simpl in Hf. rewrite app_nil_r in Hf.
      destruct (List.length (files_to_process fr) =? 0)%nat eqn:Hlen.
      * inversion Ht; subst; clear Ht. split; [exact Hreq|]. simpl.
        right; left. split; [|reflexivity].
        apply Nat.eqb_eq in Hlen. rewrite <- Hf.
        now apply length_zero_iff_nil.
      * inversion Ht; subst; clear Ht. split; [exact Hreq|]. simpl.
        apply Nat.eqb_neq in Hlen.
        assert (Hne : candidates os self0 <> []).
        { rewrite <- Hf. intros E. rewrite E in Hlen. now apply Hlen. }
        repeat split; try assumption; try reflexivity. lia.
    + destruct filenames as [|filename filenames].
      * inversion Ht; subst; clear Ht. split; [exact Hreq|]. simpl.
        repeat split; assumption.
      * destruct (cancel_requested self) eqn:Hc.
        -- inversion Ht; subst; clear Ht. split; [exact Hreq|]. simpl.
           left. split; [exact Hc | reflexivity].
        -- rewrite <- (examine_same_request self0 self) in Ht by exact Hreq.
           simpl in Hf.
           destruct (examine os self0 dirpath filename) as [c|] eqn:He;
             inversion Ht; subst; clear Ht; (split; [exact Hreq|]); simpl;
             repeat split; try assumption.
           ++ rewrite <- Hf. rewrite <- !app_assoc. reflexivity.
  - destruct Hinv as (Hf & Hne & Htodo & Hle & Hr & He).
    destruct todo as [|c rest].
    + inversion Ht; subst; clear Ht. split; [exact Hreq|]. simpl.
      right; right; right. split; [exact Hne|].
      symmetry in Htodo. apply skipn_nil_inv in Htodo; [|exact Hle].
      exists out. split.
      * rewrite <- Htodo. exact He.
      * rewrite Hr, Htodo, firstn_all. reflexivity.
    + destruct (paused self).
      * inversion Ht; subst; clear Ht. split; [exact Hreq|]. simpl.
        rewrite Hpc, app_nil_r. repeat split; try assumption; apply He.
      * inversion Ht; subst; clear Ht. split; [exact Hreq|]. simpl.
        rewrite app_nil_r. repeat split; try assumption; apply He.
  - destruct Hinv as (Hf & Hs & Hr & He). symmetry in Hs.
    destruct (skipn_cons_inv _ _ _ _ Hs) as (Hfirst & Hskip & Hlt).
    destruct (cancel_requested self) eqn:Hc.
    + inversion Ht; subst; clear Ht. split; [exact Hreq|]. simpl.
      right; right; left. split; [exact Hc|].
      exists i, out. repeat split; try assumption; apply He.
    + inversion Ht; subst; clear Ht. split; [exact Hreq|].
      cbn [pc snd fst files_to_process results].
      assert (Hne : candidates os self0 <> []).
      { intros E. rewrite E in Hlt. simpl in Hlt. lia. }
      split; [exact Hf|]. split; [exact Hne|]. split; [reflexivity|].
      split; [lia|]. split.
      * rewrite Hr, Hfirst, map_app. reflexivity.
      * rewrite Hf. eapply emitted_upto_step; eassumption.
  - inversion Ht; subst; clear Ht. split; [exact Hreq|]. simpl.
    rewrite Hpc, app_nil_r. exact Hinv.
Qed.

Lemma exec_inv self0 ticks st out st' out' :
  scan_inv os self0 st out ->
  exec os ticks st = (st', out') ->
  scan_inv os self0 st' (out ++ out').
Proof.
  revert st out st' out'.
  induction ticks as [|t ticks IH]; intros st out st' out' Hinv He; simpl in He.
  - inversion He; subst. now rewrite app_nil_r.
  - destruct (tick os t st) as [st1 out1] eqn:Ht.
    destruct (exec os ticks st1) as [st2 out2] eqn:He2.
    inversion He; subst; clear He. rewrite app_assoc.
    eapply IH; [|exact He2]. eapply tick_inv; eassumption.
Qed.

Lemma start_inv self : scan_inv os self (start os self) [].
Proof.
  split; [apply same_request_refl|]. simpl. repeat split.
Qed.

Lemma scan_inv_start self ticks st out :
  exec os ticks (start os self) = (st, out) -> scan_inv os self st out.
Proof.
  intros He. change out with ([] ++ out).
  eapply exec_inv; [apply start_inv | exact He].
Qed.

(** Once [run] has returned nothing more is sent. *)
Lemma exec_finished ticks self fr :
  pc fr = Finished ->
  exists self', exec os ticks (self, fr) = ((self', fr), []).
Proof.
  revert self; induction ticks as [|t ticks IH]; intros self Hpc; simpl.
  - now exists self.
  - destruct t; simpl;
      try (match goal with
           | |- context [exec os ticks (?s, fr)] =>
               destruct (IH s Hpc) as [self' ->]; now exists self'
           end).
    unfold run_step. rewrite Hpc.
    destruct (IH self Hpc) as [self' ->]. now exists self'.
Qed.

Lemma in_discovered r out :
  In (live_file_signal r) out <-> In r (discovered out).
Proof.
  unfold discovered. rewrite in_flat_map. split.
  - intros H. exists (live_file_signal r). split; [exact H | now left].
  - intros (s & Hs & Hr). destruct s; simpl in Hr; try contradiction.
    destruct Hr as [->|[]]. exact Hs.
Qed.

(** The rows sent so far are always the rows of a prefix of the
    candidates. *)
Lemma discovered_prefix self0 st out :
  scan_inv os self0 st out ->
  exists i, (i <= List.length (candidates os self0))%nat /\
            discovered out = map row_of (firstn i (candidates os self0)).
Proof.
  intros [_ H]. simpl in H. destruct (pc (snd st)) as [p | i todo | i c rest |].
  - destruct H as (-> & _). exists 0%nat. split; [lia | reflexivity].
  - destruct H as (_ & _ & _ & Hle & _ & Hd & _). now exists i.
  - destruct H as (_ & Hs & _ & Hd & _). symmetry in Hs.
    apply skipn_cons_inv in Hs. exists i. split; [lia | exact Hd].
  - destruct H as [[_ ->]|[[_ ->]|[[_ (i & body & Hi & (Hd & _) & ->)]|[_ (body & (Hd & _) & ->)]]]].
    + exists 0%nat. split; [lia | reflexivity].
    + exists 0%nat. split; [lia | reflexivity].
    + exists i. split; [lia|]. rewrite discovered_app, Hd. simpl. apply app_nil_r.
    + exists (List.length (candidates os self0)). split; [lia|].
      rewrite discovered_app, Hd. simpl. apply app_nil_r.
Qed.

Lemma in_firstn {A} (x : A) n l : In x (firstn n l) -> In x l.
Proof.
  revert l; induction n as [|n IH]; intros [|y l] H; simpl in *;
    try contradiction.
  destruct H as [H|H]; auto.
Qed.

Lemma in_candidates self c :
  In c (candidates os self) ->
  exists dirpath dirnames filenames filename,
    In (dirpath, dirnames, filenames) (os_walk os (root_directory self)) /\
    In filename filenames /\
    examine os self dirpath filename = Some c.
Proof.
  unfold candidates. rewrite in_flat_map.
  intros ([[d dn] fs] & Hin & H). rewrite in_flat_map in H.
  destruct H as (f & Hf & H). exists d, dn, fs, f.
  repeat split; try assumption.
  destruct (examine os self d f); simpl in H; [|contradiction].
  destruct H as [->|[]]. reflexivity.
Qed.

Lemma float_gt_spec x y : float_gt x y = true <-> (y < x)%Q.
Proof.
  unfold float_gt. rewrite Qlt_alt, <- (Qcompare_antisym x y).
  destruct (x ?= y)%Q; simpl; split; congruence.
Qed.

Lemma examine_some self dirpath filename c :
  examine os self dirpath filename = Some c ->
  let file_path := os_path_abspath os (join dirpath filename) in
  extension_ok self filename = true /\
  os_path_exists os file_path = true /\
  exists size,
    os_path_getsize os file_path = Some size /\
    (threshold_gb self < int_truediv (Z.of_N size) (1024 ^ 3))%Q /\
    c = (filename, file_path, int_truediv (Z.of_N size) (1024 ^ 2),
         int_truediv (Z.of_N size) (1024 ^ 3)).
Proof.
  intros H file_path. unfold examine, get_file_size in H. fold file_path in H.
  destruct (extension_ok self filename); [|discriminate].
  destruct (os_path_exists os file_path); [|discriminate].
  destruct (os_path_getsize os file_path) as [size|]; [|discriminate].
  simpl in H.
  destruct (float_gt _ (threshold_gb self)) eqn:Hgt; [|discriminate].
  inversion H; subst. repeat split. exists size.
  repeat split. now apply float_gt_spec.
Qed.

Lemma extension_ok_spec self filename :
  extension_ok self filename = true ->
  extensions self <> [] ->
  exists ext, In ext (extensions self) /\ endswith (lower filename) ext = true.
Proof.
  unfold extension_ok. destruct (extensions self) as [|e es] eqn:E.
  - intros _ H. now elim H.
  - intros H _. apply existsb_exists in H. exact H.
Qed.

(** [rne n d] is within one half of [n / d]. *)
Lemma rne_bounds n d :
  0 < d -> 2 * (n - d * rne n d) <= d /\ 2 * (d * rne n d - n) <= d.
Proof.
  intros Hd. unfold rne.
  pose proof (Z.div_mod n d ltac:(lia)) as Hdm.
  pose proof (Z.mod_pos_bound n d Hd) as Hr.
  destruct (2 * (n mod d) ?= d) eqn:Hc;
    [ apply Z.compare_eq in Hc | rewrite Z.compare_lt_iff in Hc
    | rewrite Z.compare_gt_iff in Hc ];
    [ destruct (Z.even (n / d)) | | ];
    rewrite ?Z.mul_add_distr_l;
    set (r := n mod d) in *; set (p := d * (n / d)) in *; clearbody r p.
  all: lia.
Qed.

(** Two-decimal formatting loses at most half a hundredth. *)
Lemma format_2f_bounds x :
  (x - (1 # 200) <= inject_Z (format_2f x) / 100)%Q /\
  (inject_Z (format_2f x) / 100 <= x + (1 # 200))%Q.
Proof.
  destruct x as [n d]. unfold format_2f. simpl Qnum. simpl Qden.
  destruct (rne_bounds (n * 100) (Z.pos d) ltac:(lia)) as [H1 H2].
  set (h := rne (n * 100) (Z.pos d)) in *.
  unfold Qle, Qminus, Qplus, Qdiv, Qmult, Qinv, Qopp, inject_Z; simpl.
  split; nia.
Qed.

Lemma init_threshold root T F : (T <= threshold_gb (__init__ root T F))%Q.
Proof.
  simpl. unfold float_truthy. destruct (Qeq_bool T 0) eqn:E; simpl.
  - apply Qeq_bool_iff in E. rewrite E. unfold float_1_0. discriminate.
  - apply Qle_refl.
Qed.

(** C1 (as amended).  Every row sent by a scan of the request
    [(root, T, F)] comes from a file listed by the walk whose size probe
    succeeded and whose size in GiB, before it is formatted, is strictly
    greater than [T]; when the normalised filter is not empty the lowercase
    file name ends with one of its suffixes.  The row carries that size
    rounded to two decimals, which is more than [T - 0.005] (and need not
    be more than [T]). *)
Theorem emitted_rows_pass_the_filter root T F ticks st out row :
  exec os ticks (start os (__init__ root T F)) = (st, out) ->
  In (live_file_signal row) out ->
  exists dirpath dirnames filenames filename size,
    In (dirpath, dirnames, filenames) (os_walk os root) /\
    In filename filenames /\
    os_path_getsize os (os_path_abspath os (join dirpath filename)) = Some size /\
    (T < int_truediv (Z.of_N size) (1024 ^ 3))%Q /\
    row = (filename, os_path_abspath os (join dirpath filename),
           format_2f (int_truediv (Z.of_N size) (1024 ^ 2)),
           format_2f (int_truediv (Z.of_N size) (1024 ^ 3))) /\
    (T - (1 # 200) < inject_Z (snd row) / 100)%Q /\
    (extensions (__init__ root T F) <> [] ->
     exists ext, In ext (extensions (__init__ root T F)) /\
                 endswith (lower filename) ext = true).
Proof.
  intros He Hin. set (self := __init__ root T F) in *.
  apply scan_inv_start in He. apply discovered_prefix in He.
  destruct He as (i & _ & Hd). apply in_discovered in Hin.
  rewrite Hd in Hin. apply in_map_iff in Hin. destruct Hin as (c & Hrow & Hc).
  apply in_firstn in Hc. apply in_candidates in Hc.
  destruct Hc as (d & dn & fs & f & Hw & Hf & Hex).
  apply examine_some in Hex. destruct Hex as (Hext & _ & size & Hsize & Hgt & ->).
  exists d, dn, fs, f, size.
  assert (HT : (T < int_truediv (Z.of_N size) (1024 ^ 3))%Q).
  { eapply Qle_lt_trans; [apply (init_threshold root T F) | exact Hgt]. }
  subst row. repeat split; try assumption.
  - cbn [snd row_of].
    destruct (format_2f_bounds (int_truediv (Z.of_N size) (1024 ^ 3))) as [Hlo _].
    eapply Qlt_le_trans; [|exact Hlo].
    apply Qplus_lt_l. exact HT.
  - intros Hne. now apply extension_ok_spec.
Qed.

(** A first loop that finds nothing ends the scan with the two signals
    of the empty case. *)
Lemma first_loop_without_candidates ticks :
  forall self fr pending,
    pc fr = Enumerating pending -> files_to_process fr = [] ->
    found os self pending = [] -> cancel_requested self = false ->
    no_cancel ticks = true -> (work pending < steps ticks)%nat ->
    exists st',
      exec os ticks (self, fr) =
        (st', [progress_update 100 "No files found above threshold.";
               result_ready []]) /\
      pc (snd st') = Finished.
Proof.
  induction ticks as [|t ticks IH]; intros self fr pending Hpc Hf Hfound Hc Hnc Hw.
  - unfold steps in Hw; simpl in Hw. lia.
  - simpl in Hnc. destruct t; try discriminate Hnc; unfold steps in Hw; simpl in Hw.
    + assert (Hfound' : found os (pause self) pending = []).
      { rewrite <- Hfound. apply found_same_request. repeat split. }
      destruct (IH (pause self) fr pending Hpc Hf Hfound' Hc Hnc Hw) as (st' & He & Hfin).
      simpl. rewrite He. exists st'. split; [reflexivity | exact Hfin].
    + assert (Hfound' : found os (resume self) pending = []).
      { rewrite <- Hfound. apply found_same_request. repeat split. }
      destruct (IH (resume self) fr pending Hpc Hf Hfound' Hc Hnc Hw) as (st' & He & Hfin).
      simpl. rewrite He. exists st'. split; [reflexivity | exact Hfin].
    + simpl. unfold run_step. rewrite Hpc.
      destruct pending as [|[[d dn] fs] pending].
      * cbv beta iota. rewrite Hf. cbn [List.length Nat.eqb].
        destruct (exec_finished ticks self (goto fr Finished) eq_refl) as [self' ->].
        eexists. split; reflexivity.
      * destruct fs as [|f fs].
        -- assert (Hw' : (work pending < steps ticks)%nat).
           { simpl in Hw. unfold steps. lia. }
           destruct (IH self (goto fr (Enumerating pending)) pending
                        eq_refl Hf Hfound Hc Hnc Hw') as (st' & He & Hfin).
           rewrite He. exists st'. split; [reflexivity | exact Hfin].
        -- rewrite Hc. simpl in Hfound.
           destruct (examine os self d f) as [c|]; [discriminate|].
           assert (Hw' : (work ((d, dn, fs) :: pending) < steps ticks)%nat).
           { simpl in Hw |- *. unfold steps. lia. }
           destruct (IH self (goto fr (Enumerating ((d, dn, fs) :: pending)))
                        ((d, dn, fs) :: pending) eq_refl Hf Hfound Hc Hnc Hw')
             as (st' & He & Hfin).
           rewrite He. exists st'. split; [reflexivity | exact Hfin].
Qed.

(** C8.  When the first loop ends with no candidate the scan sends
    [progress_update(100, "No files found above threshold.")], then
    [result_ready([])], nothing else (no [live_file_signal]), and returns.
    First part: from any state in which the first loop has just ended with
    an empty list.  Second part: such a scan does get there, namely when no
    file of the tree qualifies and no cancel is called, as soon as the
    thread has taken one step per file and directory plus one. *)
Theorem zero_candidates_scan self :
  (forall ticks st out now post,
      exec os ticks (start os self) = (st, out) ->
      pc (snd st) = Enumerating [] -> files_to_process (snd st) = [] ->
      exists st',
        exec os (ticks ++ step now :: post) (start os self) =
          (st', [progress_update 100 "No files found above threshold.";
                 result_ready []]) /\
        pc (snd st') = Finished) /\
  (cancel_requested self = false -> candidates os self = [] ->
   forall ticks,
     no_cancel ticks = true ->
     (work (os_walk os (root_directory self)) < steps ticks)%nat ->
     exists st',
       exec os ticks (start os self) =
         (st', [progress_update 100 "No files found above threshold.";
                result_ready []]) /\
       pc (snd st') = Finished /\
       discovered [progress_update 100 "No files found above threshold.";
                   result_ready []] = []).
Proof.
  split.
  - intros ticks [self1 fr1] out now post He Hpc Hf. simpl in Hpc, Hf.
    pose proof (scan_inv_start _ _ _ _ He) as [_ Hinv]. simpl in Hinv.
    rewrite Hpc in Hinv. destruct Hinv as (-> & _).
    rewrite exec_app, He. simpl. unfold run_step. rewrite Hpc.
    cbv beta iota. rewrite Hf. cbn [List.length Nat.eqb].
    destruct (exec_finished post self1 (goto fr1 Finished) eq_refl) as [self' ->].
    eexists. split; reflexivity.
  - intros Hc Hcs ticks Hnc Hw.
    destruct (first_loop_without_candidates ticks self (run_entry os self)
                (os_walk os (root_directory self))) as (st' & He & Hfin); auto.
    exists st'. repeat split; assumption.
Qed.

(** C3 (as amended).  In the first loop [cancel_requested] is read before
    each file is examined, once per file, and not at all for a directory
    that lists no file.  When it is set at such a check the scan has sent
    nothing so far, sends [cancelled], returns, and sends nothing more
    whatever happens afterwards. *)
Theorem cancel_checked_before_each_file self ticks st out
        dirpath dirnames filenames pending :
  exec os ticks (start os self) = (st, out) ->
  cancel_requested (fst st) = true ->
  pc (snd st) = Enumerating ((dirpath, dirnames, filenames) :: pending) ->
  forall now post,
    match filenames with
    | _ :: _ =>
        exists st',
          exec os (ticks ++ step now :: post) (start os self) = (st', [cancelled]) /\
          pc (snd st') = Finished
    | [] =>
        exec os (ticks ++ [step now]) (start os self) =
          ((fst st, goto (snd st) (Enumerating pending)), [])
    end.
Proof.
  destruct st as [self1 fr1]. simpl. intros He Hc Hpc now post.
  pose proof (scan_inv_start _ _ _ _ He) as [_ Hinv]. simpl in Hinv.
  rewrite Hpc in Hinv. destruct Hinv as (-> & _).
  destruct filenames as [|filename filenames].
  - rewrite exec_app, He. simpl. unfold run_step. rewrite Hpc. reflexivity.
  - rewrite exec_app, He. simpl. unfold run_step. rewrite Hpc, Hc.
    destruct (exec_finished post self1 (goto fr1 Finished) eq_refl) as [self' ->].
    eexists. split; reflexivity.
Qed.

(** With [cancel_requested] set and candidate [i] pending, whatever the
    two threads do next, the scan either is still waiting and has sent
    nothing, or has sent [cancelled] alone and returned. *)
Lemma cancel_pending ticks :
  forall self fr i,
    awaiting i fr -> cancel_requested self = true ->
    exists self' fr',
      (exec os ticks (self, fr) = ((self', fr'), []) /\ awaiting i fr' /\
       cancel_requested self' = true) \/
      (exec os ticks (self, fr) = ((self', fr'), [cancelled]) /\ pc fr' = Finished).
Proof.
  induction ticks as [|t ticks IH]; intros self fr i Haw Hc.
  - exists self, fr. left. repeat split; assumption.
  - destruct t; simpl.
    + destruct (IH (cancel self) fr i Haw eq_refl) as (s' & f' & [(-> & H)|(-> & H)]);
        exists s', f'; [left | right]; split; auto.
    + destruct (IH (pause self) fr i Haw Hc) as (s' & f' & [(-> & H)|(-> & H)]);
        exists s', f'; [left | right]; split; auto.
    + destruct (IH (resume self) fr i Haw Hc) as (s' & f' & [(-> & H)|(-> & H)]);
        exists s', f'; [left | right]; split; auto.
    + unfold run_step. destruct Haw as (c & rest & [Hpc|Hpc]); rewrite Hpc.
      * destruct (paused self).
        -- assert (Haw' : awaiting i fr) by (exists c, rest; now left).
           destruct (IH self fr i Haw' Hc) as (s' & f' & [(-> & H)|(-> & H)]);
             exists s', f'; [left | right]; split; auto.
        -- assert (Haw' : awaiting i (goto fr (CancelCheck i c rest)))
             by (exists c, rest; now right).
           destruct (IH self _ i Haw' Hc) as (s' & f' & [(-> & H)|(-> & H)]);
             exists s', f'; [left | right]; split; auto.
      * rewrite Hc.
        destruct (exec_finished ticks self (goto fr Finished) eq_refl) as [self' ->].
        exists self', (goto fr Finished). right. split; reflexivity.
Qed.

(** At the cancel check one step is enough; from the pause loop two are,
    when the scan is not paused and nobody pauses it. *)
Lemma cancel_check_fires ticks :
  forall self fr i c rest,
    pc fr = CancelCheck i c rest -> cancel_requested self = true ->
    (1 <= steps ticks)%nat ->
    exists st', exec os ticks (self, fr) = (st', [cancelled]) /\ pc (snd st') = Finished.
Proof.
  induction ticks as [|t ticks IH]; intros self fr i c rest Hpc Hc Hn.
  - unfold steps in Hn; simpl in Hn. lia.
  - unfold steps in Hn. destruct t; simpl in Hn |- *.
    + destruct (IH (cancel self) fr i c rest Hpc eq_refl Hn) as (st' & -> & H).
      exists st'. split; auto.
    + destruct (IH (pause self) fr i c rest Hpc Hc Hn) as (st' & -> & H).
      exists st'. split; auto.
    + destruct (IH (resume self) fr i c rest Hpc Hc Hn) as (st' & -> & H).
      exists st'. split; auto.
    + unfold run_step. rewrite Hpc, Hc.
      destruct (exec_finished ticks self (goto fr Finished) eq_refl) as [self' ->].
      eexists. split; reflexivity.
Qed.

Lemma cancel_fires_unpaused ticks :
  forall self fr i,
    awaiting i fr -> cancel_requested self = true -> paused self = false ->
    no_pause ticks = true -> (2 <= steps ticks)%nat ->
    exists st', exec os ticks (self, fr) = (st', [cancelled]) /\ pc (snd st') = Finished.
Proof.
  induction ticks as [|t ticks IH]; intros self fr i Haw Hc Hp Hnp Hn.
  - unfold steps in Hn; simpl in Hn. lia.
  - unfold steps in Hn. simpl in Hnp. destruct t; try discriminate Hnp; simpl in Hn, Hnp |- *.
    + destruct (IH (cancel self) fr i Haw eq_refl Hp Hnp Hn) as (st' & -> & H).
      exists st'. split; auto.
    + destruct (IH (resume self) fr i Haw Hc eq_refl Hnp Hn) as (st' & -> & H).
      exists st'. split; auto.
    + destruct Haw as (c & rest & [Hpc|Hpc]).
      * unfold run_step. rewrite Hpc, Hp.
        assert (Hn' : (1 <= steps ticks)%nat) by (unfold steps; lia).
        destruct (cancel_check_fires ticks self (goto fr (CancelCheck i c rest)) i c rest
                    eq_refl Hc Hn') as (st' & -> & H).
        exists st'. split; auto.
      * assert (Hn' : (1 <= steps (step now :: ticks))%nat)
          by (unfold steps; simpl; lia).
        destruct (cancel_check_fires (step now :: ticks) self fr i c rest Hpc Hc Hn')
          as (st' & He & H).
        simpl in He. rewrite He. exists st'. split; auto.
Qed.

Lemma skipn_lt_cons {A} (l : list A) i :
  (i < List.length l)%nat -> exists c rest, skipn i l = c :: rest.
Proof.
  revert l; induction i as [|i IH]; intros [|x l] H; simpl in *; try lia.
  - now exists x, l.
  - apply IH. lia.
Qed.

Lemma quiet_no_result out :
  forallb quiet out = true -> existsb is_result_ready out = false.
Proof.
  induction out as [|s out IH]; simpl; [reflexivity|].
  intros H. apply andb_true_iff in H. destruct H as [Hs H].
  rewrite (IH H), orb_false_r. unfold quiet in Hs.
  now destruct (is_result_ready s).
Qed.

(** In the second loop the number of rows sent is the index of the
    pending candidate. *)
Lemma second_loop_state self0 st out :
  scan_inv os self0 st out -> in_second_loop st = true ->
  let i := List.length (discovered out) in
  emitted_upto (candidates os self0) i out /\
  (i <= List.length (candidates os self0))%nat /\
  ((i < List.length (candidates os self0))%nat -> awaiting i (snd st)).
Proof.
  intros [_ H] Hl. unfold in_second_loop in Hl. simpl in H.
  destruct (pc (snd st)) as [p | i todo | i c rest |] eqn:Hpc; try discriminate.
  - destruct H as (_ & _ & Htodo & Hle & _ & He).
    assert (Hi : List.length (discovered out) = i).
    { destruct He as (-> & _). rewrite length_map, firstn_length_le; auto. }
    rewrite Hi. cbv zeta. split; [exact He|]. split; [exact Hle|].
    intros Hlt. destruct (skipn_lt_cons _ _ Hlt) as (c & rest & Hs).
    exists c, rest. left. rewrite Hpc, Htodo, Hs. reflexivity.
  - destruct H as (_ & Hs & _ & He). symmetry in Hs.
    destruct (skipn_cons_inv _ _ _ _ Hs) as (_ & _ & Hlt).
    assert (Hi : List.length (discovered out) = i).
    { destruct He as (-> & _). rewrite length_map, firstn_length_le; auto. lia. }
    rewrite Hi. cbv zeta. split; [exact He|]. split; [lia|].
    intros _. exists c, rest. now right.
Qed.

(** X28.  Let a scan stand in its second loop after sending the rows of
    [N] of its [M] candidates, [N < M], before the cancel check of the next
    one, and let [cancel()] be called then.
    Whatever follows, the rows sent are those [N] complete rows and no
    more, [result_ready] is never sent, the stream sent before the call is
    kept and at most [cancelled] is added to it, and when [run] has
    returned the stream is exactly the earlier one followed by
    [cancelled].  It does return, within two steps, when the scan is not
    paused at the call and nobody pauses it afterwards. *)
Theorem cancel_after_emissions self pre post st1 out1 st2 out2 :
  exec os pre (start os self) = (st1, out1) ->
  in_second_loop st1 = true ->
  (List.length (discovered out1) < List.length (candidates os self))%nat ->
  exec os (pre ++ call_cancel :: post) (start os self) = (st2, out2) ->
  discovered out2 =
    map row_of (firstn (List.length (discovered out1)) (candidates os self)) /\
  List.length (discovered out2) = List.length (discovered out1) /\
  existsb is_result_ready out2 = false /\
  (out2 = out1 \/ out2 = out1 ++ [cancelled]) /\
  (pc (snd st2) = Finished -> out2 = out1 ++ [cancelled]) /\
  (paused (fst st1) = false -> no_pause post = true -> (2 <= steps post)%nat ->
   pc (snd st2) = Finished).
Proof.
  intros He1 Hloop Hlt He2.
  pose proof (scan_inv_start _ _ _ _ He1) as Hinv.
  destruct (second_loop_state _ _ _ Hinv Hloop) as (Hem & _ & Haw).
  specialize (Haw Hlt). destruct st1 as [self1 fr1]. simpl in Haw.
  rewrite exec_app, He1 in He2. simpl in He2.
  destruct Hem as (Hd & _ & Hq).
  destruct (cancel_pending post (cancel self1) fr1 _ Haw eq_refl)
    as (s' & f' & [(He & Haw' & _)|(He & Hfin)]);
    rewrite He in He2; inversion He2; subst; clear He2.
  - rewrite app_nil_r. repeat split; auto.
    + now apply quiet_no_result.
    + simpl. intros Hf. destruct Haw' as (c & rest & [H|H]); congruence.
    + intros Hp Hnp Hn. simpl.
      destruct (cancel_fires_unpaused post (cancel self1) fr1 _ Haw eq_refl Hp Hnp Hn)
        as (st' & He' & Hf).
      rewrite He in He'. inversion He'.
  - repeat split; auto.
    + rewrite discovered_app. simpl. rewrite app_nil_r. exact Hd.
    + rewrite discovered_app. simpl. now rewrite app_nil_r.
    + rewrite existsb_app, (quiet_no_result _ Hq). reflexivity.
Qed.

(** While the scan is paused inside the pause loop nothing but
    [resume()] gets it out: steps of [run] and calls of [cancel()] and
    [pause()] leave the frame as it is and send nothing. *)
Lemma pause_loop_spins ticks :
  forall self fr i c rest,
    pc fr = PauseWait i (c :: rest) -> paused self = true ->
    no_resume ticks = true ->
    exists self',
      exec os ticks (self, fr) = ((self', fr), []) /\ paused self' = true /\
      (cancel_requested self = true -> cancel_requested self' = true).
Proof.
  induction ticks as [|t ticks IH]; intros self fr i c rest Hpc Hp Hnr.
  - exists self. repeat split; auto.
  - simpl in Hnr. destruct t; try discriminate Hnr; simpl in Hnr |- *.
    + destruct (IH (cancel self) fr i c rest Hpc Hp Hnr) as (s' & -> & H1 & H2).
      exists s'. repeat split; auto.
    + destruct (IH (pause self) fr i c rest Hpc eq_refl Hnr) as (s' & -> & H1 & H2).
      exists s'. repeat split; auto.
    + unfold run_step. rewrite Hpc, Hp.
      destruct (IH self fr i c rest Hpc Hp Hnr) as (s' & -> & H1 & H2).
      exists s'. repeat split; auto.
Qed.

End Scan.

(* ------------------------------------------------------------------ *)
(** ** The scanner on the worked inputs *)

(** The row of [half.bin] in the scan of [three_files] with threshold 0.5. *)
Lemma emitted_rows_pass_the_filter_witness :
  In (live_file_signal half_row)
     (snd (exec three_files (repeat (step 0) 10) (start three_files half_scan))) /\
  exists dirpath dirnames filenames filename size,
    In (dirpath, dirnames, filenames) (os_walk three_files "/r") /\
    In filename filenames /\
    os_path_getsize three_files (os_path_abspath three_files (join dirpath filename))
      = Some size /\
    ((1 # 2) < int_truediv (Z.of_N size) (1024 ^ 3))%Q /\
    half_row = (filename, os_path_abspath three_files (join dirpath filename),
                format_2f (int_truediv (Z.of_N size) (1024 ^ 2)),
                format_2f (int_truediv (Z.of_N size) (1024 ^ 3))) /\
    ((1 # 2) - (1 # 200) < inject_Z (snd half_row) / 100)%Q /\
    (extensions half_scan <> [] ->
     exists ext, In ext (extensions half_scan) /\
                 endswith (lower filename) ext = true).
Proof.
  assert (H : In (live_file_signal half_row)
                 (snd (exec three_files (repeat (step 0) 10)
                            (start three_files half_scan)))).
  { vm_compute. tauto. }
  split; [exact H|].
  exact (emitted_rows_pass_the_filter three_files "/r" (1 # 2) []
           (repeat (step 0) 10) _ _ half_row (surjective_pairing _) H).
Defined.

(** C1, as stated, fails: with threshold 0.5 the scan of [three_files]
    sends a row for [half.bin] whose size column reads 0.50, which is not
    greater than 0.5. *)
Lemma rounded_size_not_above_threshold :
  In (live_file_signal ("half.bin", "/r/half.bin", 51200, 50))
     (snd (exec three_files (repeat (step 0) 10)
                (start three_files (__init__ "/r" (1 # 2) [])))) /\
  ~ ((1 # 2) < inject_Z 50 / 100)%Q.
Proof.
  split.
  - vm_compute. tauto.
  - vm_compute. discriminate.
Qed.

(** The scan of [empty_root], with and without a pause on the way. *)
Lemma zero_candidates_scan_witness :
  (exists st',
      exec empty_root ([step 0] ++ step 0 :: [step 0])
           (start empty_root half_scan) =
        (st', [progress_update 100 "No files found above threshold.";
               result_ready []]) /\
      pc (snd st') = Finished) /\
  (exists st',
      exec empty_root [step 0; call_pause; step 0]
           (start empty_root half_scan) =
        (st', [progress_update 100 "No files found above threshold.";
               result_ready []]) /\
      pc (snd st') = Finished /\
      discovered [progress_update 100 "No files found above threshold.";
                  result_ready []] = []).
Proof.
  split.
  - exact (proj1 (zero_candidates_scan empty_root half_scan)
             [step 0] _ _ 0%Q [step 0] (surjective_pairing _) eq_refl eq_refl).
  - apply (proj2 (zero_candidates_scan empty_root half_scan)); try reflexivity.
    vm_compute. lia.
Defined.

(** A cancel between the first and the second file of [three_files], and a
    cancel before the empty directory of [empty_root]. *)
Lemma cancel_checked_before_each_file_witness :
  (exists st',
      exec three_files ([step 0; call_cancel] ++ step 0 :: [step 0; step 0])
           (start three_files half_scan) = (st', [cancelled]) /\
      pc (snd st') = Finished) /\
  exec empty_root ([call_cancel] ++ [step 0]) (start empty_root half_scan) =
    ((cancel half_scan, goto (run_entry empty_root half_scan) (Enumerating [])), []).
Proof.
  split.
  - exact (cancel_checked_before_each_file three_files half_scan
             [step 0; call_cancel] _ _ "/r" [] ["small.txt"; "half.bin"] []
             (surjective_pairing _) eq_refl eq_refl 0%Q [step 0; step 0]).
  - exact (cancel_checked_before_each_file empty_root half_scan
             [call_cancel] _ _ "/r" [] [] []
             (surjective_pairing _) eq_refl eq_refl 0%Q []).
Defined.

(** C3, as stated, fails.  First: [cancel()] is called before the only
    directory of [empty_root] is processed, and the scan sends the two
    signals of a completed empty scan, not [cancelled].  Second: in
    [three_files] the call comes after the first file of the directory and
    is honoured before the second one, so that [half.bin], which qualifies,
    is never examined. *)
Lemma cancel_not_checked_per_directory :
  snd (exec empty_root [call_cancel; step 0; step 0] (start empty_root half_scan))
    = [progress_update 100 "No files found above threshold."; result_ready []] /\
  snd (exec three_files [step 0; call_cancel; step 0] (start three_files half_scan))
    = [cancelled] /\
  List.length (files_to_process
                 (snd (fst (exec three_files [step 0; call_cancel; step 0]
                                 (start three_files half_scan))))) = 1%nat /\
  List.length (candidates three_files half_scan) = 2%nat.
Proof. vm_compute. repeat split. Qed.

(** [three_files] with threshold 0.5 has two candidates; the cancel comes
    after the first has been sent. *)
Lemma cancel_after_emissions_witness :
  let pre := repeat (step 0) 7 in
  let post := [step 0; step 0] in
  let st1 := fst (exec three_files pre (start three_files half_scan)) in
  let out1 := snd (exec three_files pre (start three_files half_scan)) in
  let st2 := fst (exec three_files (pre ++ call_cancel :: post)
                       (start three_files half_scan)) in
  let out2 := snd (exec three_files (pre ++ call_cancel :: post)
                        (start three_files half_scan)) in
  List.length (discovered out1) = 1%nat /\
  discovered out2 =
    map row_of (firstn (List.length (discovered out1))
                       (candidates three_files half_scan)) /\
  List.length (discovered out2) = List.length (discovered out1) /\
  existsb is_result_ready out2 = false /\
  (out2 = out1 \/ out2 = out1 ++ [cancelled]) /\
  (pc (snd st2) = Finished -> out2 = out1 ++ [cancelled]) /\
  (paused (fst st1) = false -> no_pause post = true -> (2 <= steps post)%nat ->
   pc (snd st2) = Finished).
Proof.
  intros pre post st1 out1 st2 out2. split; [reflexivity|].
  apply (cancel_after_emissions three_files half_scan pre post st1 out1 st2 out2).
  - apply surjective_pairing.
  - reflexivity.
  - vm_compute. lia.
  - apply surjective_pairing.
Defined.

(** The scenario of a 2 GiB [big.mp4] next to small files, threshold 1.0,
    no filter: one row, for [big.mp4], and [result_ready] with that row. *)
Lemma big_file_scenario :
  let out := snd (exec three_files (repeat (step 0) 8)
                       (start three_files (__init__ "/r" 1 []))) in
  discovered out = [("big.mp4", "/r/big.mp4", 204800, 200)] /\
  last out cancelled = result_ready [("big.mp4", "/r/big.mp4", 204800, 200)] /\
  percents out = [100].
Proof. vm_compute. repeat split. Qed.

Lemma no_resume_steps now n : no_resume (repeat (step now) n) = true.
Proof. induction n as [|n IH]; simpl; auto. Qed.

Lemma paused_steps_spin os now n self fr i c rest :
  pc fr = PauseWait i (c :: rest) -> paused self = true ->
  exec os (repeat (step now) n) (self, fr) = ((self, fr), []).
Proof.
  intros Hpc Hp. induction n as [|n IH]; simpl; [reflexivity|].
  unfold run_step. rewrite Hpc, Hp, IH. reflexivity.
Qed.

(** C2, on the code.  The scan of [three_files] reaches the pause loop of
    its first candidate in five steps.  It is paused there, polls once,
    and [cancel()] is called.  However many more times the loop polls, no
    signal at all has been sent and the scan is still in the pause loop:
    the loop reads [paused] only.  The cancel is seen once [resume()] has
    been called. *)
Theorem cancel_while_paused_is_not_observed n :
  let held := repeat (step 0) 5 ++ [call_pause; step 0; call_cancel]
              ++ repeat (step 0) n in
  snd (exec three_files held (start three_files half_scan)) = [] /\
  pc (snd (fst (exec three_files held (start three_files half_scan))))
    = PauseWait 0 (candidates three_files half_scan) /\
  cancel_requested (fst (fst (exec three_files held (start three_files half_scan))))
    = true /\
  snd (exec three_files (held ++ [call_resume; step 0; step 0])
            (start three_files half_scan)) = [cancelled].
Proof.
  intros held. unfold held.
  assert (Hpre : exists fr,
             exec three_files (repeat (step 0) 5 ++ [call_pause; step 0; call_cancel])
                  (start three_files half_scan)
             = ((cancel (pause half_scan), fr), []) /\
             pc fr = PauseWait 0 (candidates three_files half_scan) /\
             exec three_files [call_resume; step 0; step 0] (cancel (pause half_scan), fr)
             = ((resume (cancel (pause half_scan)), goto fr Finished), [cancelled])).
  { eexists. split; [vm_compute; reflexivity|]. split; vm_compute; reflexivity. }
  destruct Hpre as (fr & Hpre & Hpc & Hres).
  assert (Hheld : exec three_files
                    (repeat (step 0) 5 ++ [call_pause; step 0; call_cancel]
                     ++ repeat (step 0) n) (start three_files half_scan)
                  = ((cancel (pause half_scan), fr), [])).
  { rewrite app_assoc, exec_app, Hpre.
    rewrite (paused_steps_spin three_files 0%Q n (cancel (pause half_scan)) fr 0%nat
               (hd ("", "", 0%Q, 0%Q) (candidates three_files half_scan))
               (tl (candidates three_files half_scan)) Hpc eq_refl).
    reflexivity. }
  rewrite (exec_app three_files _ [call_resume; step 0; step 0]).
  rewrite Hheld, Hres. repeat split. exact Hpc.
Qed.

(** C7, on the code.  [int((i + 1) / total_files * 100)] for the 29th of
    100 candidates is 28, in the model and with the hardware operations,
    where [(i + 1) * 100 / total_files] with integer truncation is 29; the
    scan of a hundred files sends 28 twice and never 29.  The last
    percentage it sends is 100. *)
Theorem percent_of_29_in_100 :
  progress_percent 28 100 = 28 /\
  prim_percent 28 100 = Some 28 /\
  (Z.of_nat 28 + 1) * 100 / Z.of_nat 100 = 29 /\
  let out := snd (exec hundred_files (repeat (step 0) 310)
                       (start hundred_files half_scan)) in
  List.length (percents out) = 100%nat /\
  nth 27 (percents out) 0 = 28 /\
  nth 28 (percents out) 0 = 28 /\
  nth 29 (percents out) 0 = 30 /\
  nth 99 (percents out) 0 = 100 /\
  existsb is_result_ready out = true.
Proof. vm_compute. repeat split. Qed.

(* ================================================================== *)
(** * The float model against the machine *)

Lemma float_0_1_is_the_double :
  Q_of_prim 0x1.999999999999ap-4%float = Some float_0_1 /\
  float_0_1 = 7205759403792794 # 72057594037927936.
Proof. vm_compute. split; reflexivity. Qed.

(** On every index of every scan of up to 64 candidates the model
    computes the percentage that the hardware operations give. *)
Lemma progress_percent_is_binary64 :
  forallb (fun total =>
             forallb (fun i =>
                        match prim_percent i total with
                        | Some p => progress_percent i total =? p
                        | None => false
                        end) (seq 0 total))
          (seq 1 64) = true.
Proof. vm_compute. reflexivity. Qed.

(* ================================================================== *)
(** * The scan request *)

(** The constructor keeps the threshold it is given unless that is zero,
    which it replaces by 1.0; [start_scan] never hands it an absent one. *)
Lemma constructor_threshold root exts :
  threshold_gb (__init__ root 0 exts) = float_1_0 /\
  threshold_gb (__init__ root float_0_1 exts) = float_0_1 /\
  threshold_gb (__init__ root (1 # 2) exts) = (1 # 2)%Q.
Proof. repeat split. Qed.

(** C9.  With the size field left empty [start_scan] constructs the
    thread with threshold 0.1 (the double nearest to one tenth), whatever
    the folder and the extension field are. *)
Theorem default_threshold float c folder ext_input :
  exists self,
    start_scan float (Some (String c folder)) "" ext_input = inr self /\
    threshold_gb self = float_0_1 /\
    (Qabs (float_0_1 - (1 # 10)) <= 1 # (10 ^ 17))%Q.
Proof.
  eexists. split; [reflexivity|]. split.
  - reflexivity.
  - vm_compute. discriminate.
Qed.

Lemma isspace_lower_char c : isspace (lower_char c) = isspace c.
Proof. destruct c as [[] [] [] [] [] [] [] []]; reflexivity. Qed.

Lemma lower_char_idem c : lower_char (lower_char c) = lower_char c.
Proof. destruct c as [[] [] [] [] [] [] [] []]; reflexivity. Qed.

Lemma lower_idem s : lower (lower s) = lower s.
Proof. induction s as [|c s IH]; simpl; [reflexivity|]. now rewrite lower_char_idem, IH. Qed.

Lemma truthy_lower s : truthy (lower s) = truthy s.
Proof. destruct s; reflexivity. Qed.

Lemma lstrip_lower s : lstrip (lower s) = lower (lstrip s).
Proof.
  induction s as [|c s IH]; simpl; [reflexivity|].
  rewrite isspace_lower_char. destruct (isspace c); [exact IH | reflexivity].
Qed.

Lemma rstrip_lower s : rstrip (lower s) = lower (rstrip s).
Proof.
  induction s as [|c s IH]; simpl; [reflexivity|].
  rewrite IH, isspace_lower_char.
  destruct (rstrip s); simpl; [destruct (isspace c)|]; reflexivity.
Qed.

Lemma strip_lower s : strip (lower s) = lower (strip s).
Proof. unfold strip. now rewrite lstrip_lower, rstrip_lower. Qed.

Lemma rstrip_idem s : rstrip (rstrip s) = rstrip s.
Proof.
  induction s as [|c s IH]; simpl; [reflexivity|].
  destruct (rstrip s) as [|c' r] eqn:E.
  - destruct (isspace c) eqn:Ec; simpl; [reflexivity | now rewrite Ec].
  - simpl in IH |- *. now rewrite IH.
Qed.

(** What [lstrip] returns is empty or starts with a character that is
    not white space, and [rstrip] keeps such a first character. *)
Lemma lstrip_rstrip_lstrip s : lstrip (rstrip (lstrip s)) = rstrip (lstrip s).
Proof.
  induction s as [|c s IH]; simpl; [reflexivity|].
  destruct (isspace c) eqn:Ec; [exact IH|].
  unfold rstrip; fold rstrip.
  destruct (rstrip s); rewrite ?Ec; simpl; now rewrite Ec.
Qed.

Lemma strip_idem s : strip (strip s) = strip s.
Proof. unfold strip. now rewrite lstrip_rstrip_lstrip, rstrip_idem. Qed.

Lemma strip_all_space s : all_space s = true -> strip s = "".
Proof.
  unfold strip. induction s as [|c s IH]; simpl; [reflexivity|].
  intros H. apply andb_true_iff in H. destruct H as [Hc Hs].
  rewrite Hc. now apply IH.
Qed.

Lemma all_space_append a b :
  all_space (a ++ b) = all_space a && all_space b.
Proof.
  induction a as [|c a IH]; simpl; [reflexivity|]. now rewrite IH, andb_assoc.
Qed.

Lemma lstrip_split e :
  exists pre, e = (pre ++ lstrip e)%string /\ all_space pre = true /\
              starts_with_space (lstrip e) = false.
Proof.
  induction e as [|c e (pre & E & A & S)]; simpl.
  - exists "". repeat split.
  - destruct (isspace c) eqn:Ec.
    + exists (String c pre). simpl. rewrite Ec, A. repeat split; [congruence | exact S].
    + exists "". simpl. repeat split. exact Ec.
Qed.

Lemma rstrip_split s :
  exists post, s = (rstrip s ++ post)%string /\ all_space post = true /\
               ends_with_space (rstrip s) = false.
Proof.
  induction s as [|c s (post & E & A & S)]; simpl.
  - exists "". repeat split.
  - destruct (rstrip s) as [|d r] eqn:R.
    + simpl in E. subst s. destruct (isspace c) eqn:Ec.
      * exists (String c post). simpl. rewrite Ec, A. repeat split.
      * exists post. simpl. repeat split; [exact A | exact Ec].
    + exists post. simpl in E |- *. rewrite <- E. repeat split; [exact A | exact S].
Qed.

Lemma rstrip_keeps_start s :
  starts_with_space s = false -> starts_with_space (rstrip s) = false.
Proof.
  destruct s as [|c s]; simpl; [reflexivity|]. intros Hc.
  destruct (rstrip s); [now rewrite Hc | exact Hc].
Qed.

(** [strip] removes the white space around a text, and nothing else. *)
Lemma strip_stripped e : stripped_of e (strip e).
Proof.
  unfold strip. destruct (lstrip_split e) as (pre & E & A & S).
  destruct (rstrip_split (lstrip e)) as (post & E' & A' & S').
  exists pre, post. split; [now rewrite <- E', <- E|].
  repeat split; [exact A | exact A' | now apply rstrip_keeps_start | exact S'].
Qed.

Lemma truthy_strip e : truthy (strip e) = negb (all_space e).
Proof.
  destruct (all_space e) eqn:A.
  - now rewrite (strip_all_space e A).
  - destruct (strip e) eqn:S; [|reflexivity].
    destruct (strip_stripped e) as (pre & post & E & A1 & A2 & _).
    rewrite S in E. simpl in E. rewrite E, all_space_append, A1, A2 in A.
    discriminate.
Qed.

Lemma lower_char_small_letter c : lower_char c = small_letter c.
Proof. destruct c as [[] [] [] [] [] [] [] []]; reflexivity. Qed.

Lemma lower_lowercase s : lowercase_of s (lower s).
Proof.
  split.
  - induction s as [|c s IH]; simpl; congruence.
  - induction s as [|c s IH]; intros k; [reflexivity|].
    destruct k as [|k]; simpl; [now rewrite lower_char_small_letter | apply IH].
Qed.

(** C10.  The constructor keeps, in order, the entries of the extension
    filter that are not empty once stripped, each stripped and lowercased.
    The entries kept are those that do not consist of white space only,
    and what is kept of an entry is its text between the white space
    around it, every capital letter replaced by its small letter; so every
    entry of [self.extensions] is non-empty, has no white space around it
    and is in lower case.  When every entry given is empty or white space,
    [self.extensions] is empty, every file name passes the extension test,
    and the scan collects what it collects with no filter at all. *)
Theorem extension_filter_normalised root T exts :
  let self := __init__ root T exts in
  extensions self =
    map (fun ext => lower (strip ext)) (filter (fun ext => truthy (strip ext)) exts) /\
  Forall2 (fun e x => exists core, stripped_of e core /\ core <> "" /\
                                   lowercase_of core x)
          (filter (fun e => negb (all_space e)) exts) (extensions self) /\
  Forall (fun ext => truthy ext = true /\ strip ext = ext /\ lower ext = ext)
         (extensions self) /\
  (forallb all_space exts = true ->
   extensions self = [] /\
   (forall filename, extension_ok self filename = true) /\
   (forall os, candidates os self = candidates os (__init__ root T []))).
Proof.
  cbv zeta. split; [reflexivity|]. split; [|split].
  - simpl. induction exts as [|e exts IH]; simpl; [constructor|].
    rewrite truthy_strip. destruct (all_space e) eqn:A; simpl; [exact IH|].
    constructor; [|exact IH].
    exists (strip e). split; [apply strip_stripped|]. split.
    + intros E. pose proof (truthy_strip e) as H. rewrite E, A in H. discriminate.
    + apply lower_lowercase.
  - simpl. apply Forall_forall. intros e He.
    apply in_map_iff in He. destruct He as (x & <- & Hx).
    apply filter_In in Hx. destruct Hx as [_ Hx].
    split; [now rewrite truthy_lower|]. split.
    + now rewrite strip_lower, strip_idem.
    + apply lower_idem.
  - intros Hall.
    assert (E : extensions (__init__ root T exts) = []).
    { simpl. induction exts as [|e exts IH]; simpl; [reflexivity|].
      simpl in Hall. apply andb_true_iff in Hall. destruct Hall as [He Hall].
      rewrite (strip_all_space e He). simpl. now apply IH. }
    split; [exact E|]. split.
    + intros filename. unfold extension_ok. now rewrite E.
    + intros os. unfold candidates. simpl root_directory.
      apply flat_map_ext; intros [[d dn] fs]. apply flat_map_ext; intros f.
      rewrite (examine_same_request os (__init__ root T exts) (__init__ root T [])).
      * reflexivity.
      * repeat split. exact E.
Qed.

(** A filter with an entry in capitals between spaces, an entry in mixed
    case and two blank ones, and a filter made of an empty entry and a
    blank one. *)
Lemma extension_filter_normalised_witness :
  extensions (__init__ "/r" 1 [" .MP4 "; ""; ".Zip"; "  "]) = [".mp4"; ".zip"] /\
  extension_ok (__init__ "/r" 1 [" .MP4 "; ""; ".Zip"; "  "]) "Movie.Mp4" = true /\
  extension_ok (__init__ "/r" 1 [" .MP4 "; ""; ".Zip"; "  "]) "notes.txt" = false /\
  extensions (__init__ "/r" 1 [""; "  "]) = [] /\
  (forall filename, extension_ok (__init__ "/r" 1 [""; "  "]) filename = true) /\
  (forall os, candidates os (__init__ "/r" 1 [""; "  "])
              = candidates os (__init__ "/r" 1 [])).
Proof.
  split; [exact (proj1 (extension_filter_normalised "/r" 1
                          [" .MP4 "; ""; ".Zip"; "  "]))|].
  split; [reflexivity|]. split; [reflexivity|].
  exact (proj2 (proj2 (proj2 (extension_filter_normalised "/r" 1 [""; "  "]))) eq_refl).
Defined.

(** The extension field of the window, split at commas: an empty field
    gives the single entry [""], hence no filter; [".MP4, .zip"] gives the
    suffixes [".mp4"] and [".zip"]. *)
Lemma split_extension_field :
  extensions (__init__ "/r" 1 (split ","%char "")) = [] /\
  extensions (__init__ "/r" 1 (split ","%char ".MP4, .zip")) = [".mp4"; ".zip"].
Proof. split; reflexivity. Qed.

(* ================================================================== *)
(** * The folder groups built by [add_row] *)

Lemma nth_error_addChild_ne store : forall h c k,
  k <> h -> nth_error (addChild h c store) k = nth_error store k.
Proof.
  induction store as [|it store IH]; intros h c k Hk; destruct h as [|h];
    simpl; try reflexivity.
  - destruct k as [|k]; [now elim Hk | reflexivity].
  - destruct k as [|k]; [reflexivity|]. simpl. apply IH. congruence.
Qed.

Lemma nth_error_addChild_eq store : forall h c it,
  nth_error store h = Some it ->
  nth_error (addChild h c store) h =
    Some (mkItem (text0 it) (text1 it) (text2 it) (text3 it) (red_background it)
                 (children it ++ [c])).
Proof.
  induction store as [|x store IH]; intros h c it H; destruct h as [|h];
    simpl in *; try discriminate.
  - inversion H; subst. reflexivity.
  - now apply IH.
Qed.

Lemma length_addChild store : forall h c,
  List.length (addChild h c store) = List.length store.
Proof.
  induction store as [|x store IH]; intros h c; destruct h; simpl;
    try reflexivity.
  now rewrite IH.
Qed.

Lemma nth_error_lt {A} (l : list A) k x :
  nth_error l k = Some x -> (k < List.length l)%nat.
Proof. intros H. apply nth_error_Some. congruence. Qed.

(** Items other than [h] and their children read the same after a child
    has been added to [h] in a grown store. *)
Lemma child_rows_frame store extra h child kids_handles :
  Forall (fun c => (c < List.length store)%nat /\ c <> h) kids_handles ->
  flat_map (fun c => match nth_error (addChild h child (store ++ extra)) c with
                     | Some ch => item_row ch
                     | None => []
                     end) kids_handles =
  flat_map (fun c => match nth_error store c with
                     | Some ch => item_row ch
                     | None => []
                     end) kids_handles.
Proof.
  induction 1 as [|c l [Hlt Hne] _ IH]; simpl; [reflexivity|].
  rewrite IH, nth_error_addChild_ne by exact Hne.
  now rewrite nth_error_app1 by exact Hlt.
Qed.

Lemma folder_ok_frame store top top' extra h child entry group :
  folder_ok store top entry group ->
  snd entry <> h ->
  In h top \/ (List.length store <= h)%nat ->
  (forall c, (c < List.length store)%nat -> ~ In c top -> ~ In c top') ->
  folder_ok (addChild h child (store ++ extra)) top' entry group.
Proof.
  intros (Hkey & it & Hit & Htext & Hrows & Hkids) Hne Hh Htop.
  split; [exact Hkey|]. exists it.
  assert (Hkids' : Forall (fun c => (c < List.length store)%nat /\ c <> h) (children it)).
  { eapply Forall_impl; [|exact Hkids]. intros c [Hlt Hnin]. split; [exact Hlt|].
    destruct Hh as [Hh|Hh]; [congruence | lia]. }
  repeat split.
  - rewrite nth_error_addChild_ne by exact Hne.
    rewrite nth_error_app1; [exact Hit | eapply nth_error_lt; exact Hit].
  - exact Htext.
  - unfold child_rows in *. now rewrite child_rows_frame.
  - eapply Forall_impl; [|exact Hkids]. intros c [Hlt Hnin]. split.
    + rewrite length_addChild, length_app. lia.
    + now apply Htop.
Qed.

(** The item [h] gains the row of the child appended at the end of the
    store. *)
Lemma folder_ok_target store top top' h child_item r f kids :
  folder_ok store top (f, h) (f, kids) ->
  item_row child_item = [r] ->
  ~ In (List.length store) top' ->
  (forall c, (c < List.length store)%nat -> ~ In c top -> ~ In c top') ->
  In h top ->
  folder_ok (addChild h (List.length store) (store ++ [child_item])) top'
            (f, h) (f, kids ++ [r]).
Proof.
  intros (_ & it & Hit & Htext & Hrows & Hkids) Hrow Hnew Htop Hh.
  simpl in *. pose proof (nth_error_lt _ _ _ Hit) as Hlt.
  split; [reflexivity|]. eexists. split.
  - apply nth_error_addChild_eq. rewrite nth_error_app1; [exact Hit | exact Hlt].
  - simpl. split; [exact Htext|]. split.
    + unfold child_rows in *. simpl. rewrite flat_map_app. f_equal.
      * rewrite child_rows_frame; [exact Hrows|].
        eapply Forall_impl; [|exact Hkids]. intros c [Hc Hnin]. split; [exact Hc|].
        congruence.
      * simpl. rewrite nth_error_addChild_ne by lia.
        rewrite nth_error_app2, Nat.sub_diag by lia. simpl.
        rewrite Hrow. reflexivity.
    + apply Forall_app. split.
      * eapply Forall_impl; [|exact Hkids]. intros c [Hc Hnin]. split.
        -- rewrite length_addChild, length_app. lia.
        -- now apply Htop.
      * constructor; [|constructor]. split; [|exact Hnew].
        rewrite length_addChild, length_app. simpl. lia.
Qed.

Lemma dict_get_In k d v : dict_get k d = Some v -> In v (map snd d).
Proof.
  induction d as [|[k' v'] d IH]; simpl; [discriminate|].
  destruct (String.eqb k k'); intros H.
  - inversion H; subst. now left.
  - right. now apply IH.
Qed.

Lemma handles_in_store store top entries groups :
  Forall2 (folder_ok store top) entries groups ->
  forall h, In h (map snd entries) -> (h < List.length store)%nat.
Proof.
  induction 1 as [|e g es gs (_ & it & Hit & _) _ IH]; simpl; intros h Hh.
  - contradiction.
  - destruct Hh as [<-|Hh]; [eapply nth_error_lt; exact Hit | now apply IH].
Qed.

Lemma entries_frame store top top' extra h child entries groups :
  Forall2 (folder_ok store top) entries groups ->
  ~ In h (map snd entries) ->
  In h top \/ (List.length store <= h)%nat ->
  (forall c, (c < List.length store)%nat -> ~ In c top -> ~ In c top') ->
  Forall2 (folder_ok (addChild h child (store ++ extra)) top') entries groups.
Proof.
  induction 1 as [|e g es gs He _ IH]; simpl; intros Hnin Hh Htop; constructor.
  - apply folder_ok_frame with (top := top); auto.
  - apply IH; auto.
Qed.

(** The row joins the group that [dict_get] finds. *)
Lemma entries_existing store top child_item r entries groups :
  Forall2 (folder_ok store top) entries groups ->
  forall h,
    dict_get (folder_of r) entries = Some h ->
    NoDup (map snd entries) ->
    (forall x, In x (map snd entries) -> In x top) ->
    item_row child_item = [r] ->
    ~ In (List.length store) top ->
    Forall2 (folder_ok (addChild h (List.length store) (store ++ [child_item])) top)
            entries (ingest groups r).
Proof.
  induction 1 as [|[f hk] [f' kids] es gs He Hes IH]; simpl;
    intros h Hget Hnd Htop Hrow Hnew; [discriminate|].
  assert (Hf : f = f') by (destruct He as [Hf _]; exact Hf). subst f'.
  inversion Hnd as [|? ? Hhk Hnd']; subst.
  destruct (String.eqb (folder_of r) f) eqn:E.
  - inversion Hget; subst h. constructor.
    + apply folder_ok_target with (top := top); auto.
    + apply entries_frame with (top := top); auto.
  - constructor.
    + apply folder_ok_frame with (top := top); auto.
      simpl. intros ->. apply Hhk. eapply dict_get_In; exact Hget.
      left. apply Htop. right. eapply dict_get_In; exact Hget.
    + apply IH; auto.
Qed.

(** With no entry for its folder the row opens a new last group. *)
Lemma ingest_fresh store top r entries groups :
  Forall2 (folder_ok store top) entries groups ->
  dict_get (folder_of r) entries = None ->
  ingest groups r = groups ++ [(folder_of r, [r])].
Proof.
  induction 1 as [|[f hk] [f' kids] es gs [Hf _] _ IH]; simpl; [reflexivity|].
  simpl in Hf. subst f'. destruct (String.eqb (folder_of r) f); [discriminate|].
  intros H. now rewrite IH.
Qed.

Lemma add_row_represents ui groups r :
  represents ui groups -> represents (add_row ui r) (ingest groups r).
Proof.
  intros (Htab & Hnd & Hall).
  pose proof (handles_in_store _ _ _ _ Hall) as Hlt. rewrite <- Htab in Hlt.
  assert (Hnew : ~ In (List.length (items ui)) (table ui)).
  { intros H. apply Hlt in H. lia. }
  destruct r as [[[filename filepath] size_mb] size_gb].
  unfold add_row.
  change (dirname filepath) with (folder_of (filename, filepath, size_mb, size_gb)).
  set (r := (filename, filepath, size_mb, size_gb)) in *.
  destruct (dict_get (folder_of r) (folder_items ui)) as [h|] eqn:Hget.
  - split; [exact Htab|]. split; [exact Hnd|]. cbn [items table folder_items].
    apply entries_existing; auto.
    + now rewrite <- Htab.
    + intros x Hx. now rewrite Htab.
  - cbn [items table folder_items].
    set (h := List.length (items ui)) in *.
    set (folder_item := mkItem (basename (folder_of r)) (folder_of r) None None false []).
    set (child_item := mkItem filename filepath (Some size_mb) (Some size_gb) _ []).
    assert (Hlen : List.length (items ui ++ [folder_item]) = S h).
    { rewrite length_app. simpl. unfold h. lia. }
    rewrite Hlen, <- app_assoc. simpl app.
    unfold represents. cbn [items table folder_items].
    split; [now rewrite map_app, Htab|]. split.
    { apply NoDup_app; [exact Hnd | repeat constructor; auto | ].
      intros x Hx [<-|[]]. now apply Hnew. }
    rewrite (ingest_fresh _ _ _ _ _ Hall Hget). apply Forall2_app.
    + apply entries_frame with (top := table ui);
        [ exact Hall | now rewrite <- Htab | right; unfold h; lia | ].
      intros c Hc Hnin H. apply in_app_or in H. destruct H as [H|[<-|[]]]; auto.
      unfold h in Hc. lia.
    + constructor; [|constructor]. split; [reflexivity|].
      eexists. split.
      * apply nth_error_addChild_eq. cbn [snd].
        rewrite nth_error_app2 by (unfold h; lia).
        unfold h. rewrite Nat.sub_diag. reflexivity.
      * cbn [text1 children fst snd app]. split; [reflexivity|]. split.
        -- unfold child_rows. change (children folder_item) with (@nil nat).
           cbn [children app flat_map].
           rewrite nth_error_addChild_ne by lia.
           rewrite nth_error_app2 by (unfold h; lia).
           replace (S h - List.length (items ui))%nat with 1%nat by (unfold h; lia).
           reflexivity.
        -- constructor; [|constructor]. split.
           ++ rewrite length_addChild, length_app. simpl. unfold h. lia.
           ++ intros H. apply in_app_or in H. destruct H as [H|[H|[]]].
              ** apply Hlt in H. unfold h in H. lia.
              ** lia.
Qed.

Lemma groups_of_represented store top entries groups :
  Forall2 (folder_ok store top) entries groups ->
  groups_of store (map snd entries) = groups.
Proof.
  induction 1 as [|e [f kids] es gs (_ & it & Hit & Htext & Hrows & _) _ IH]; simpl.
  - reflexivity.
  - unfold groups_of in *. simpl. rewrite Hit, IH. simpl in *. now subst.
Qed.

Lemma represents_tree ui groups :
  represents ui groups ->
  as_added ui = groups /\
  groups_of (items ui) (map snd (folder_items ui)) = groups /\
  map fst (folder_items ui) = map fst groups.
Proof.
  intros (Htab & _ & Hall). unfold as_added. rewrite Htab.
  split; [|split]; try (eapply groups_of_represented; exact Hall).
  clear Htab. induction Hall as [|e g es gs [Hk _] _ IH]; simpl; congruence.
Qed.

Lemma represents_cleared : represents cleared [].
Proof. repeat split; constructor. Qed.

Lemma fold_add_row_represents rows :
  forall ui groups,
    represents ui groups ->
    represents (fold_left add_row rows ui) (fold_left ingest rows groups).
Proof.
  induction rows as [|r rows IH]; intros ui groups H; simpl; [exact H|].
  apply IH. now apply add_row_represents.
Qed.

(** [distinct] and [ingest] against [group_by_folder]. *)
Lemma in_distinct x l : In x (distinct l) <-> In x l.
Proof.
  induction l as [|y l IH]; simpl; [tauto|].
  rewrite filter_In, IH.
  destruct (String.eqb_spec x y) as [->|Hne]; simpl; intuition congruence.
Qed.

Lemma NoDup_filter {A} (p : A -> bool) l : NoDup l -> NoDup (filter p l).
Proof.
  induction 1 as [|x l Hx _ IH]; simpl; [constructor|].
  destruct (p x); [constructor|]; auto.
  rewrite filter_In. tauto.
Qed.

Lemma NoDup_distinct l : NoDup (distinct l).
Proof.
  induction l as [|y l IH]; simpl; constructor.
  - rewrite filter_In, String.eqb_refl. simpl. intros [_ H]. discriminate.
  - now apply NoDup_filter.
Qed.

Lemma distinct_snoc l x :
  distinct (l ++ [x]) =
  if existsb (String.eqb x) l then distinct l else distinct l ++ [x].
Proof.
  induction l as [|y l IH]; simpl; [reflexivity|].
  rewrite IH. destruct (String.eqb_spec x y) as [->|Hne]; simpl.
  - destruct (existsb (String.eqb y) l); [reflexivity|].
    rewrite filter_app. simpl. rewrite String.eqb_refl. simpl.
    now rewrite app_nil_r.
  - destruct (existsb (String.eqb x) l); [reflexivity|].
    rewrite filter_app. simpl.
    destruct (String.eqb_spec x y); [contradiction|]. reflexivity.
Qed.

Lemma existsb_eqb_In x l : existsb (String.eqb x) l = true <-> In x l.
Proof.
  rewrite existsb_exists. split.
  - intros (y & Hy & E). apply String.eqb_eq in E. now subst.
  - intros H. exists x. split; [exact H | apply String.eqb_refl].
Qed.

Lemma ingest_map (F : string -> list Row) r ks :
  NoDup ks ->
  ingest (map (fun f => (f, F f)) ks) r =
  if existsb (String.eqb (folder_of r)) ks
  then map (fun f => (f, F f ++ if String.eqb (folder_of r) f then [r] else [])) ks
  else map (fun f => (f, F f)) ks ++ [(folder_of r, [r])].
Proof.
  induction 1 as [|k ks Hk Hnd IH]; simpl; [reflexivity|].
  destruct (String.eqb_spec (folder_of r) k) as [E|Hne]; simpl.
  - f_equal. apply map_ext_in. intros f Hf.
    destruct (String.eqb_spec (folder_of r) f) as [E'|_];
      [elim Hk; congruence | now rewrite app_nil_r].
  - rewrite IH, app_nil_r. now destruct (existsb (String.eqb (folder_of r)) ks).
Qed.

Lemma group_by_folder_snoc rows r :
  group_by_folder (rows ++ [r]) = ingest (group_by_folder rows) r.
Proof.
  unfold group_by_folder.
  rewrite (ingest_map (fun f => filter (fun x => String.eqb (folder_of x) f) rows))
    by apply NoDup_distinct.
  rewrite map_app. simpl map. rewrite distinct_snoc.
  assert (Hex : existsb (String.eqb (folder_of r)) (distinct (map folder_of rows))
                = existsb (String.eqb (folder_of r)) (map folder_of rows)).
  { apply eq_true_iff_eq. rewrite !existsb_eqb_In. apply in_distinct. }
  rewrite Hex.
  destruct (existsb (String.eqb (folder_of r)) (map folder_of rows)) eqn:E.
  - apply map_ext. intros f. now rewrite filter_app.
  - rewrite map_app. simpl. f_equal.
    + apply map_ext_in. intros f Hf. rewrite filter_app. simpl.
      destruct (String.eqb_spec (folder_of r) f) as [E'|_]; [|now rewrite app_nil_r].
      rewrite <- E' in Hf. apply (proj1 (in_distinct _ _)) in Hf.
      apply (proj2 (existsb_eqb_In _ _)) in Hf. congruence.
    + rewrite filter_app. simpl. rewrite String.eqb_refl.
      replace (filter (fun x => String.eqb (folder_of x) (folder_of r)) rows)
        with (@nil Row); [reflexivity|].
      symmetry. clear Hex.
      induction rows as [|x rows IH]; simpl in *; [reflexivity|].
      apply orb_false_iff in E. destruct E as [E1 E2].
      rewrite String.eqb_sym, E1. now apply IH.
Qed.

Lemma fold_ingest_group_by_folder rows :
  fold_left ingest rows [] = group_by_folder rows.
Proof.
  induction rows as [|r rows IH] using rev_ind; [reflexivity|].
  now rewrite fold_left_app, group_by_folder_snoc, IH.
Qed.

Lemma ingest_permutation groups r :
  Permutation (List.concat (map snd (ingest groups r)))
              (List.concat (map snd groups) ++ [r]).
Proof.
  induction groups as [|[f kids] groups IH]; simpl; [reflexivity|].
  destruct (String.eqb (folder_of r) f); simpl.
  - rewrite <- !app_assoc. apply Permutation_app_head. apply Permutation_app_comm.
  - rewrite <- app_assoc. now apply Permutation_app_head.
Qed.

Lemma fold_ingest_permutation rows :
  forall groups,
    Permutation (List.concat (map snd (fold_left ingest rows groups)))
                (List.concat (map snd groups) ++ rows).
Proof.
  induction rows as [|r rows IH]; intros groups; simpl.
  - now rewrite app_nil_r.
  - rewrite IH, ingest_permutation, <- app_assoc. reflexivity.
Qed.

(** The lists of the widget, in the order the items were added, hold the
    groups of the rows in the order the folders were first seen, and the
    dictionary names the same groups in the same order. *)
Lemma groups_as_added rows :
  let ui := fold_left add_row rows cleared in
  as_added ui = group_by_folder rows /\
  groups_of (items ui) (map snd (folder_items ui)) = group_by_folder rows /\
  map fst (folder_items ui) = distinct (map folder_of rows).
Proof.
  cbv zeta.
  pose proof (fold_add_row_represents rows cleared [] represents_cleared) as H.
  rewrite fold_ingest_group_by_folder in H.
  destruct (represents_tree _ _ H) as (Ht & Hi & Hk). rewrite Hi, Ht, Hk.
  repeat split. unfold group_by_folder. rewrite map_map. simpl. apply map_id.
Qed.

Lemma group_by_folder_keys rows :
  map fst (group_by_folder rows) = distinct (map folder_of rows).
Proof. unfold group_by_folder. rewrite map_map. simpl. apply map_id. Qed.

Lemma group_by_folder_rows rows :
  Permutation (List.concat (map snd (group_by_folder rows))) rows.
Proof.
  pose proof (fold_ingest_permutation rows []) as H.
  now rewrite fold_ingest_group_by_folder in H.
Qed.

(** What the widget gives back is what was added, rearranged. *)
Lemma rows_under_perm srt store it :
  rearranges srt -> Permutation (rows_under srt store it) (child_rows store it).
Proof. intros H. unfold rows_under, child_rows, child. apply Permutation_flat_map, H. Qed.

Lemma groups_under_matches srt store handles :
  rearranges srt ->
  Forall2 group_matches (groups_under srt store handles) (groups_of store handles).
Proof.
  intros H. unfold groups_under, groups_of.
  induction handles as [|h hs IH]; simpl; [constructor|].
  destruct (nth_error store h) as [it|]; simpl; [|exact IH].
  constructor; [|exact IH]. split; [reflexivity|]. simpl. now apply rows_under_perm.
Qed.

Lemma tree_same_groups srt ui :
  rearranges srt -> same_groups (tree srt ui) (as_added ui).
Proof.
  intros H. exists (groups_under srt (items ui) (table ui)). split.
  - unfold tree, groups_under, topLevelItem. apply Permutation_flat_map, H.
  - now apply groups_under_matches.
Qed.

Lemma matches_fst c b :
  Forall2 group_matches c b -> map fst c = map fst b.
Proof. induction 1 as [|x y c b [E _] _ IH]; simpl; congruence. Qed.

Lemma matches_concat c b :
  Forall2 group_matches c b ->
  Permutation (List.concat (map snd c)) (List.concat (map snd b)).
Proof.
  induction 1 as [|x y c b [_ P] _ IH]; simpl; [constructor|].
  now apply Permutation_app.
Qed.

Lemma matches_in c b f kids :
  Forall2 group_matches c b -> In (f, kids) c ->
  exists kids', In (f, kids') b /\ Permutation kids kids'.
Proof.
  induction 1 as [|x [g kids'] c b [E P] _ IH]; simpl; [contradiction|].
  intros [->|Hin].
  - exists kids'. simpl in E, P. subst g. split; [now left | exact P].
  - destruct (IH Hin) as (k & Hk & Pk). exists k. split; [now right | exact Pk].
Qed.

Lemma same_groups_fst a b :
  same_groups a b -> Permutation (map fst a) (map fst b).
Proof.
  intros (c & P & M). rewrite <- (matches_fst c b M). now apply Permutation_map.
Qed.

Lemma same_groups_concat a b :
  same_groups a b ->
  Permutation (List.concat (map snd a)) (List.concat (map snd b)).
Proof.
  intros (c & P & M). rewrite <- (matches_concat c b M).
  rewrite <- !flat_map_concat_map. now apply Permutation_flat_map.
Qed.

Lemma same_groups_in a b f kids :
  same_groups a b -> In (f, kids) a ->
  exists kids', In (f, kids') b /\ Permutation kids kids'.
Proof.
  intros (c & P & M) Hin. apply (matches_in c b f kids M).
  eapply Permutation_in; eassumption.
Qed.

Lemma insert_handle_perm before key h l :
  Permutation (insert_handle before key h l) (h :: l).
Proof.
  induction l as [|x l IH]; simpl; [reflexivity|].
  destruct (before (key h) (key x)); [reflexivity|].
  rewrite IH. apply perm_swap.
Qed.

Lemma by_name_rearranges descending : rearranges (by_name descending).
Proof.
  intros store handles. unfold by_name.
  set (key := fun h : nat => match nth_error store h with
                            | Some it => text0 it
                            | None => EmptyString
                            end).
  set (before := fun a b : string =>
                   if descending then String.ltb b a else String.ltb a b).
  assert (G : forall hs acc,
             Permutation (fold_left (fun acc h => insert_handle before key h acc) hs acc)
                         (acc ++ hs)).
  { induction hs as [|h hs IH]; intros acc; simpl; [now rewrite app_nil_r|].
    rewrite IH, insert_handle_perm. apply Permutation_middle. }
  exact (G handles []).
Qed.

(** C6 (as amended).  After the rows of a scan have gone through
    [add_row], in the order they were sent, there is one group per
    distinct parent folder and the dictionary [folder_items] lists the
    folders in the order they were first seen.  The tree holds those
    groups with those rows: no folder has two groups, the folder of every
    row has its group, the children of a group are the rows of its folder,
    and the children of all the groups are the rows received, each as many
    times as it was received (once when the rows are distinct).  The order
    in which the widget gives the groups, and the children of a group, is
    that of its sort ([srt]), whatever it is; read through the dictionary
    the groups come in first-seen order, their children in the order of
    the sort. *)
Theorem add_row_groups_by_folder srt rows :
  rearranges srt ->
  let ui := fold_left add_row rows cleared in
  map fst (folder_items ui) = distinct (map folder_of rows) /\
  same_groups (tree srt ui) (group_by_folder rows) /\
  Forall2 group_matches (indexed srt ui) (group_by_folder rows) /\
  NoDup (map fst (tree srt ui)) /\
  (forall r, In r rows -> In (folder_of r) (map fst (tree srt ui))) /\
  (forall f kids, In (f, kids) (tree srt ui) ->
                  Permutation kids
                    (filter (fun r => String.eqb (folder_of r) f) rows)) /\
  Permutation (List.concat (map snd (tree srt ui))) rows /\
  (NoDup rows -> NoDup (List.concat (map snd (tree srt ui)))).
Proof.
  intros Hsrt. cbv zeta.
  destruct (groups_as_added rows) as (Ha & Hi & Hk). cbv zeta in Ha, Hi, Hk.
  set (ui := fold_left add_row rows cleared) in *.
  assert (S : same_groups (tree srt ui) (group_by_folder rows)).
  { rewrite <- Ha. now apply tree_same_groups. }
  pose proof (same_groups_fst _ _ S) as Pf. rewrite group_by_folder_keys in Pf.
  pose proof (same_groups_concat _ _ S) as Pc.
  rewrite (group_by_folder_rows rows) in Pc.
  split; [exact Hk|]. split; [exact S|]. split.
  { rewrite <- Hi. unfold indexed. now apply groups_under_matches. }
  split; [|split; [|split; [|split]]].
  - eapply Permutation_NoDup; [symmetry; exact Pf | apply NoDup_distinct].
  - intros r Hr. eapply Permutation_in; [symmetry; exact Pf|].
    apply in_distinct. now apply in_map.
  - intros f kids Hin. destruct (same_groups_in _ _ f kids S Hin) as (k & Hk' & Pk).
    unfold group_by_folder in Hk'. apply in_map_iff in Hk'.
    destruct Hk' as (f' & E & _). inversion E; subst. exact Pk.
  - exact Pc.
  - intros Hnd. eapply Permutation_NoDup; [symmetry; exact Pc | exact Hnd].
Qed.

(** The three rows of the example, the tree sorted by name, descending:
    distinct rows, two groups, each row found once. *)
Lemma add_row_groups_by_folder_witness :
  let ui := fold_left add_row [x_row; y_row; z_row] cleared in
  NoDup [x_row; y_row; z_row] /\
  map fst (folder_items ui) = ["/a/b"; "/a/c"] /\
  List.length (tree (by_name true) ui) = 2%nat /\
  NoDup (map fst (tree (by_name true) ui)) /\
  Permutation (List.concat (map snd (tree (by_name true) ui))) [x_row; y_row; z_row] /\
  NoDup (List.concat (map snd (tree (by_name true) ui))).
Proof.
  assert (H : NoDup [x_row; y_row; z_row]).
  { repeat constructor; simpl; intuition discriminate. }
  destruct (add_row_groups_by_folder (by_name true) [x_row; y_row; z_row]
              (by_name_rearranges true)) as (K & _ & _ & N & _ & _ & P & D).
  cbv zeta. split; [exact H|]. split; [exact K|]. split; [reflexivity|].
  split; [exact N|]. split; [exact P | exact (D H)].
Defined.

(** C6, as stated, fails.  The widget sorts.  With the sort by name,
    descending, the three rows of the example are given back as [/a/c]
    with z, then [/a/b] with y then x: neither the groups nor the children
    come in the order they were first seen.  With the sort by name,
    ascending, the rows y then x of one folder are given back x then y. *)
Lemma tree_comes_sorted :
  tree (by_name true) (fold_left add_row [x_row; y_row; z_row] cleared)
    = [("/a/c", [z_row]); ("/a/b", [y_row; x_row])] /\
  group_by_folder [x_row; y_row; z_row]
    = [("/a/b", [x_row; y_row]); ("/a/c", [z_row])] /\
  tree (by_name false) (fold_left add_row [y_row; x_row] cleared)
    = [("/a/b", [x_row; y_row])] /\
  group_by_folder [y_row; x_row] = [("/a/b", [y_row; x_row])].
Proof. vm_compute. repeat split. Qed.

(* ================================================================== *)
(** * The ranking of the funnel chart *)

Lemma ascii_compare_refl c : Ascii.compare c c = Eq.
Proof. apply N.compare_refl. Qed.

Lemma string_compare_lt_trans a :
  forall b c, String.compare a b = Lt -> String.compare b c = Lt ->
              String.compare a c = Lt.
Proof.
  induction a as [|c1 a IH]; intros [|c2 b] [|c3 c] H1 H2; simpl in *;
    try discriminate; try reflexivity.
  destruct (Ascii.compare c1 c2) eqn:E12; try discriminate;
    destruct (Ascii.compare c2 c3) eqn:E23; try discriminate.
  - apply Ascii.compare_eq_iff in E12, E23. subst.
    rewrite ascii_compare_refl. eapply IH; eassumption.
  - apply Ascii.compare_eq_iff in E12. subst. now rewrite E23.
  - apply Ascii.compare_eq_iff in E23. subst. now rewrite E12.
  - unfold Ascii.compare in *. rewrite N.compare_lt_iff in E12, E23.
    assert (H : (N_of_ascii c1 < N_of_ascii c3)%N) by lia.
    apply N.compare_lt_iff in H. now rewrite H.
Qed.

Lemma string_compare_not_gt_trans a b c :
  String.compare a b <> Gt -> String.compare b c <> Gt ->
  String.compare a c <> Gt.
Proof.
  intros H1 H2.
  destruct (String.compare a b) eqn:E1; [| |congruence].
  - apply String.compare_eq_iff in E1. now subst.
  - destruct (String.compare b c) eqn:E2; [| |congruence].
    + apply String.compare_eq_iff in E2. subst. congruence.
    + rewrite (string_compare_lt_trans a b c E1 E2). discriminate.
Qed.

Lemma tuple_le_iff a b :
  tuple_le a b <->
  (fst a < fst b)%Q \/ ((fst a == fst b)%Q /\ String.compare (snd a) (snd b) <> Gt).
Proof.
  unfold tuple_le, tuple_lt, String.ltb.
  rewrite (String.compare_antisym (snd a) (snd b)).
  destruct (Qcompare_spec (fst b) (fst a)) as [E|E|E].
  - assert (Hn : ~ (fst a < fst b)%Q) by (rewrite E; apply Qlt_irrefl).
    assert (E' : (fst a == fst b)%Q) by now symmetry.
    destruct (String.compare (snd b) (snd a)); simpl;
      intuition (congruence || discriminate).
  - split; [discriminate|]. intros [H|[H _]].
    + exfalso. apply (Qlt_irrefl (fst a)). eapply Qlt_trans; eassumption.
    + rewrite H in E. now apply Qlt_irrefl in E.
  - split; auto.
Qed.

Lemma tuple_le_trans a b c : tuple_le a b -> tuple_le b c -> tuple_le a c.
Proof.
  rewrite !tuple_le_iff. intros [H1|[H1 S1]] [H2|[H2 S2]].
  - left. eapply Qlt_trans; eassumption.
  - left. now rewrite <- H2.
  - left. now rewrite H1.
  - right. split; [now rewrite H1|].
    eapply string_compare_not_gt_trans; eassumption.
Qed.

Lemma tuple_lt_le a b : tuple_lt a b = true -> tuple_le a b.
Proof.
  unfold tuple_le, tuple_lt, String.ltb. intros H.
  rewrite <- Qcompare_antisym, (String.compare_antisym (snd b) (snd a)).
  destruct (fst a ?= fst b)%Q; simpl; try discriminate; try reflexivity.
  destruct (String.compare (snd a) (snd b)); simpl; try discriminate; reflexivity.
Qed.

Lemma insert_sorted_perm x l : Permutation (x :: l) (insert_sorted x l).
Proof.
  induction l as [|y l IH]; simpl; [reflexivity|].
  destruct (tuple_lt y x); [|reflexivity].
  rewrite perm_swap. now apply perm_skip.
Qed.

Lemma sorted_perm l : Permutation l (sorted l).
Proof.
  induction l as [|x l IH]; simpl; [reflexivity|].
  rewrite <- insert_sorted_perm. now apply perm_skip.
Qed.

Lemma insert_sorted_sorted x l :
  StronglySorted tuple_le l -> StronglySorted tuple_le (insert_sorted x l).
Proof.
  induction 1 as [|y l Hs IH Hy]; simpl.
  - repeat constructor.
  - destruct (tuple_lt y x) eqn:E.
    + constructor; [exact IH|].
      eapply Permutation_Forall; [apply insert_sorted_perm|].
      constructor; [now apply tuple_lt_le | exact Hy].
    + constructor; [now constructor|]. constructor; [exact E|].
      eapply Forall_impl; [|exact Hy]. intros z Hz.
      eapply tuple_le_trans; [exact E | exact Hz].
Qed.

Lemma sorted_sorted l : StronglySorted tuple_le (sorted l).
Proof.
  induction l as [|x l IH]; simpl; [constructor | now apply insert_sorted_sorted].
Qed.

Lemma StronglySorted_snoc {A} (R : A -> A -> Prop) l x :
  StronglySorted R l -> Forall (fun y => R y x) l -> StronglySorted R (l ++ [x]).
Proof.
  induction 1 as [|y l Hs IH Hy]; simpl; intros H.
  - repeat constructor.
  - inversion H; subst. constructor; [now apply IH|].
    apply Forall_app. split; [exact Hy | now repeat constructor].
Qed.

Lemma StronglySorted_rev {A} (R : A -> A -> Prop) l :
  StronglySorted R l -> StronglySorted (fun a b => R b a) (rev l).
Proof.
  induction 1 as [|x l Hs IH Hx]; simpl; [constructor|].
  apply StronglySorted_snoc; [exact IH|]. now apply Forall_rev.
Qed.

Lemma StronglySorted_weaken {A} (R S : A -> A -> Prop) l :
  (forall a b, R a b -> S a b) -> StronglySorted R l -> StronglySorted S l.
Proof.
  intros H. induction 1 as [|x l Hs IH Hx]; constructor; auto.
  eapply Forall_impl; [|exact Hx]. auto.
Qed.

Lemma tuple_le_ranks a b : tuple_le b a -> ranks_before a b.
Proof.
  unfold tuple_le, tuple_lt, ranks_before. intros H. split.
  - apply Qle_alt. rewrite <- Qcompare_antisym.
    destruct (fst a ?= fst b)%Q; simpl; congruence.
  - intros E. apply Qeq_alt in E. now rewrite E in H.
Qed.

Lemma combine_fst_snd {A B} (l : list (A * B)) :
  combine (map fst l) (map snd l) = l.
Proof. induction l as [|[a b] l IH]; simpl; congruence. Qed.

(** C4 (as amended).  The chart ranks the [(size, label)] pairs of the
    tree by size, largest first; entries of equal size are ranked by label,
    largest label first (not by the order in which they were met).  The
    ranking is a rearrangement of the entries; over no entry at all it is
    empty, and the chart shows its "no data" text. *)
Theorem funnel_ranking data :
  Permutation data (sorted_reverse data) /\
  StronglySorted ranks_before (sorted_reverse data) /\
  sorted_reverse [] = [] /\
  (forall srt ui,
      render_funnel_chart srt ui =
      match chart_points srt ui with
      | [] => NoData
      | _ => Funnel (map fst (sorted_reverse (chart_points srt ui)))
                    (map snd (sorted_reverse (chart_points srt ui)))
      end).
Proof.
  split; [|split; [|split]].
  - unfold sorted_reverse. rewrite <- Permutation_rev, <- sorted_perm.
    apply Permutation_rev.
  - unfold sorted_reverse.
    apply StronglySorted_weaken with (R := fun a b => tuple_le b a).
    + apply tuple_le_ranks.
    + apply StronglySorted_rev, sorted_sorted.
  - reflexivity.
  - intros srt ui. unfold render_funnel_chart. rewrite combine_fst_snd.
    destruct (chart_points srt ui); reflexivity.
Qed.

(** C4, as stated, fails.  The rows [a.bin] (5.00), [z.bin] (1.00),
    [b.bin] (5.00) reach the chart in that order when the tree is sorted by
    name, ascending; the two entries of size 5 are ranked [b.bin] first,
    then [a.bin]: the tie is decided by the label, and the order in which
    they were met is not kept.  With the tree sorted the other way the
    chart meets [z.bin], [a.bin], [b.bin] and ranks them the same. *)
Lemma ties_are_ranked_by_label :
  map snd (chart_points (by_name false) (fold_left add_row tie_rows cleared))
    = ["a.bin"; "z.bin"; "b.bin"] /\
  chart_labels (render_funnel_chart (by_name false)
                  (fold_left add_row tie_rows cleared))
    = ["b.bin"; "a.bin"; "z.bin"] /\
  map (fun s => Qeq_bool s 5)
      (chart_sizes (render_funnel_chart (by_name false)
                      (fold_left add_row tie_rows cleared)))
    = [true; true; false] /\
  map snd (chart_points (by_name true) (fold_left add_row tie_rows cleared))
    = ["z.bin"; "a.bin"; "b.bin"] /\
  chart_labels (render_funnel_chart (by_name true)
                  (fold_left add_row tie_rows cleared))
    = ["b.bin"; "a.bin"; "z.bin"].
Proof. vm_compute. repeat split. Qed.

(* ================================================================== *)
(** * binary64 rounding is monotone *)

Lemma rne_spec n d :
  0 < d ->
  (2 * (n - d * rne n d) < d \/ (2 * (n - d * rne n d) = d /\ Z.even (rne n d) = true)) /\
  (2 * (d * rne n d - n) < d \/ (2 * (d * rne n d - n) = d /\ Z.even (rne n d) = true)).
Proof.
  intros Hd. unfold rne.
  pose proof (Z.div_mod n d ltac:(lia)) as Hdm.
  pose proof (Z.mod_pos_bound n d Hd) as Hr.
  destruct (2 * (n mod d) ?= d) eqn:Hc;
    [ apply Z.compare_eq in Hc | rewrite Z.compare_lt_iff in Hc
    | rewrite Z.compare_gt_iff in Hc ].
  - destruct (Z.even (n / d)) eqn:Hev.
    + rewrite Hev. set (r := n mod d) in *. set (p := d * (n / d)) in *. clearbody r p.
      split; [right; split; [lia | reflexivity] | left; lia].
    + assert (Hev' : Z.even (n / d + 1) = true).
      { rewrite Z.even_add, Hev. reflexivity. }
      rewrite Hev', Z.mul_add_distr_l.
      set (r := n mod d) in *. set (p := d * (n / d)) in *. clearbody r p.
      split; [left; lia | right; split; [lia | reflexivity]].
  - set (r := n mod d) in *. set (p := d * (n / d)) in *. clearbody r p.
    split; left; lia.
  - rewrite Z.mul_add_distr_l.
    set (r := n mod d) in *. set (p := d * (n / d)) in *. clearbody r p.
    split; left; lia.
Qed.

Lemma rne_mono n1 d1 n2 d2 :
  0 < d1 -> 0 < d2 -> n1 * d2 <= n2 * d1 -> rne n1 d1 <= rne n2 d2.
Proof.
  intros H1 H2 Hle.
  destruct (rne_spec n1 d1 H1) as [_ Hup].
  destruct (rne_spec n2 d2 H2) as [Hlo _].
  set (r1 := rne n1 d1) in *. set (r2 := rne n2 d2) in *.
  destruct (Z_le_gt_dec r1 r2) as [|Hgt]; [assumption|exfalso].
  assert (A : 2 * (d1 * r1 - n1) * d2 <= d1 * d2) by (destruct Hup as [?|[? _]]; nia).
  assert (B : 2 * (n2 - d2 * r2) * d1 <= d1 * d2) by (destruct Hlo as [?|[? _]]; nia).
  assert (C : 2 * d1 * d2 * (r1 - r2) <= 2 * (d1 * d2)) by nia.
  assert (D : r1 = r2 + 1) by nia.
  assert (E1 : 2 * (d1 * r1 - n1) = d1) by (destruct Hup as [?|[? _]]; nia).
  assert (E2 : 2 * (n2 - d2 * r2) = d2) by (destruct Hlo as [?|[? _]]; nia).
  destruct Hup as [?|[_ Ev1]]; [lia|]. destruct Hlo as [?|[_ Ev2]]; [lia|].
  rewrite D, Z.even_add, Ev2 in Ev1. discriminate.
Qed.

Lemma nearest_mono x y : (x <= y)%Q -> nearest x <= nearest y.
Proof. intros H. apply rne_mono; try reflexivity. exact H. Qed.

Lemma nearest_Qeq x y : (x == y)%Q -> nearest x = nearest y.
Proof.
  intros H. apply Z.le_antisymm; apply nearest_mono; rewrite H; apply Qle_refl.
Qed.

Lemma rne_integer z : rne z 1 = z.
Proof.
  unfold rne. rewrite Z.mod_1_r, Z.div_1_r. reflexivity.
Qed.

Lemma nearest_inject_Z z : nearest (inject_Z z) = z.
Proof. apply rne_integer. Qed.

Lemma rne_nearest n d (q : Q) :
  0 < d -> (Qmake n (Z.to_pos d) == q)%Q -> rne n d = nearest q.
Proof.
  intros Hd H. rewrite <- (nearest_Qeq _ _ H). unfold nearest. simpl.
  now rewrite Z2Pos.id.
Qed.

Lemma p2_pos e : (0 < p2 e)%Q.
Proof. apply Qpower_0_lt. reflexivity. Qed.

Lemma p2_add a b : (p2 (a + b) == p2 a * p2 b)%Q.
Proof. apply Qpower_plus. discriminate. Qed.

Lemma p2_opp a : (p2 (- a) == / p2 a)%Q.
Proof. apply Qpower_opp. Qed.

Lemma p2_inject e : 0 <= e -> (inject_Z (2 ^ e) == p2 e)%Q.
Proof. intros H. now rewrite Zpower_Qpower. Qed.

Lemma p2_le a b : a <= b -> (p2 a <= p2 b)%Q.
Proof. intros H. apply Qpower_le_compat_l; [exact H | discriminate]. Qed.

Lemma p2_lt_inv a b : (p2 a < p2 b)%Q -> a < b.
Proof. intros H. eapply Qpower_lt_compat_l_inv; [exact H | reflexivity]. Qed.

Lemma p2_cancel a : (p2 a * p2 (- a) == 1)%Q.
Proof. rewrite <- p2_add, Z.add_opp_diag_r. reflexivity. Qed.

Lemma dyadic_value m e : (dyadic m e == inject_Z m * p2 e)%Q.
Proof.
  unfold dyadic. destruct (Z.leb_spec 0 e) as [H|H].
  - now rewrite inject_Z_mult, p2_inject.
  - assert (Hp : 0 < 2 ^ (- e)) by (apply Z.pow_pos_nonneg; lia).
    rewrite Qmake_Qdiv, Z2Pos.id by exact Hp.
    rewrite p2_inject by lia. unfold Qdiv.
    rewrite <- p2_opp, Z.opp_involutive. reflexivity.
Qed.

Lemma significand_nearest n d e :
  significand n d e = nearest ((Z.pos n # d) * p2 (- e)).
Proof.
  unfold significand. destruct (Z.leb_spec 0 e) as [H|H].
  - assert (Hp : 0 < 2 ^ e) by (apply Z.pow_pos_nonneg; lia).
    apply rne_nearest; [lia|].
    rewrite p2_opp, <- p2_inject by lia.
    rewrite !Qmake_Qdiv, Z2Pos.id by lia.
    rewrite inject_Z_mult. field.
    split; intros E; [|discriminate E].
    assert (E' : (inject_Z (2 ^ e) == inject_Z 0)%Q) by exact E.
    rewrite inject_Z_injective in E'. lia.
  - assert (Hp : 0 < 2 ^ (- e)) by (apply Z.pow_pos_nonneg; lia).
    apply rne_nearest; [lia|].
    rewrite <- p2_inject by lia. simpl Z.to_pos.
    rewrite !Qmake_Qdiv, inject_Z_mult. field. discriminate.
Qed.

Lemma ulp_exp_bounds n d :
  (p2 (ulp_exp n d + 52) <= Z.pos n # d)%Q /\
  (Z.pos n # d < p2 (ulp_exp n d + 53))%Q.
Proof.
  unfold ulp_exp.
  set (K := Z.log2 (Z.pos d) + 1).
  set (a := Z.pos n * 2 ^ K / Z.pos d).
  set (L := Z.log2 a).
  assert (HK : 0 <= K) by (unfold K; pose proof (Z.log2_nonneg (Z.pos d)); lia).
  assert (HdK : Z.pos d < 2 ^ K).
  { unfold K. destruct (Z.log2_spec (Z.pos d) ltac:(lia)) as [_ H].
    now rewrite <- Z.add_1_r in H. }
  assert (H2K : 0 < 2 ^ K) by (apply Z.pow_pos_nonneg; lia).
  assert (Ha : 0 < a).
  { unfold a. apply Z.div_str_pos. split; [lia|]. nia. }
  assert (HL : 0 <= L) by apply Z.log2_nonneg.
  destruct (Z.log2_spec a Ha) as [Hlo Hhi]. fold L in Hlo, Hhi.
  rewrite <- Z.add_1_r in Hhi.
  pose proof (Z.mul_div_le (Z.pos n * 2 ^ K) (Z.pos d) ltac:(lia)) as Hfloor.
  pose proof (Z.mul_succ_div_gt (Z.pos n * 2 ^ K) (Z.pos d) ltac:(lia)) as Hceil.
  fold a in Hfloor, Hceil.
  assert (A : (p2 L <= (Z.pos n # d) * p2 K)%Q).
  { rewrite <- !p2_inject by lia. unfold Qle, Qmult, inject_Z.
    cbn [Qnum Qden]. rewrite Pos.mul_1_r. nia. }
  assert (B : ((Z.pos n # d) * p2 K < p2 (L + 1))%Q).
  { rewrite <- !p2_inject by lia. unfold Qlt, Qmult, inject_Z.
    cbn [Qnum Qden]. rewrite Pos.mul_1_r. nia. }
  assert (E : forall q, (q * p2 K * p2 (- K) == q)%Q).
  { intros q. rewrite <- Qmult_assoc, p2_cancel. apply Qmult_1_r. }
  split.
  - replace (L - K - 52 + 52) with (L + - K) by lia.
    rewrite p2_add, <- (E (Z.pos n # d)).
    apply Qmult_le_compat_r; [exact A | apply Qlt_le_weak, p2_pos].
  - replace (L - K - 52 + 53) with (L + 1 + - K) by lia.
    rewrite p2_add, <- (E (Z.pos n # d)) at 1.
    apply Qmult_lt_r; [apply p2_pos | exact B].
Qed.

Lemma round_pos_value n d :
  (round_pos n d ==
   inject_Z (nearest ((Z.pos n # d) * p2 (- ulp_exp n d))) * p2 (ulp_exp n d))%Q.
Proof.
  unfold round_pos. cbv zeta. now rewrite dyadic_value, significand_nearest.
Qed.

(** The significand lies between 2^52 and 2^53. *)
Lemma significand_bounds n d :
  2 ^ 52 <= nearest ((Z.pos n # d) * p2 (- ulp_exp n d)) <= 2 ^ 53.
Proof.
  destruct (ulp_exp_bounds n d) as [Hlo Hhi].
  set (e := ulp_exp n d) in *. split.
  - rewrite <- (nearest_inject_Z (2 ^ 52)). apply nearest_mono.
    rewrite p2_inject by lia.
    assert (E : (p2 52 == p2 (e + 52) * p2 (- e))%Q).
    { rewrite <- p2_add. now replace (e + 52 + - e) with 52 by lia. }
    rewrite E. apply Qmult_le_compat_r; [exact Hlo | apply Qlt_le_weak, p2_pos].
  - rewrite <- (nearest_inject_Z (2 ^ 53)). apply nearest_mono.
    rewrite p2_inject by lia.
    assert (E : (p2 53 == p2 (e + 53) * p2 (- e))%Q).
    { rewrite <- p2_add. now replace (e + 53 + - e) with 53 by lia. }
    rewrite E. apply Qmult_le_compat_r; [apply Qlt_le_weak, Hhi | apply Qlt_le_weak, p2_pos].
Qed.

Lemma round_pos_mono n1 d1 n2 d2 :
  (Z.pos n1 # d1 <= Z.pos n2 # d2)%Q -> (round_pos n1 d1 <= round_pos n2 d2)%Q.
Proof.
  intros Hle. rewrite !round_pos_value.
  destruct (ulp_exp_bounds n1 d1) as [Hlo1 Hhi1].
  destruct (ulp_exp_bounds n2 d2) as [Hlo2 Hhi2].
  pose proof (significand_bounds n1 d1) as [_ Hm1].
  pose proof (significand_bounds n2 d2) as [Hm2 _].
  set (e1 := ulp_exp n1 d1) in *. set (e2 := ulp_exp n2 d2) in *.
  assert (He : e1 <= e2).
  { assert (H : e1 + 52 < e2 + 53).
    { apply p2_lt_inv. eapply Qle_lt_trans; [exact Hlo1|].
      eapply Qle_lt_trans; [exact Hle | exact Hhi2]. }
    lia. }
  destruct (Z.eq_dec e1 e2) as [Heq|Hne].
  - rewrite Heq. apply Qmult_le_compat_r; [|apply Qlt_le_weak, p2_pos].
    rewrite <- Zle_Qle. apply nearest_mono.
    apply Qmult_le_compat_r; [exact Hle | apply Qlt_le_weak, p2_pos].
  - apply Qle_trans with (p2 (e1 + 53)).
    + rewrite (Z.add_comm e1 53), p2_add.
      apply Qmult_le_compat_r; [|apply Qlt_le_weak, p2_pos].
      rewrite <- (p2_inject 53) by lia. now rewrite <- Zle_Qle.
    + apply Qle_trans with (p2 (e2 + 52)); [apply p2_le; lia|].
      rewrite (Z.add_comm e2 52), p2_add.
      apply Qmult_le_compat_r; [|apply Qlt_le_weak, p2_pos].
      rewrite <- (p2_inject 52) by lia. now rewrite <- Zle_Qle.
Qed.

Lemma round_pos_pos n d : (0 < round_pos n d)%Q.
Proof.
  rewrite round_pos_value. pose proof (significand_bounds n d) as [H _].
  apply Qmult_lt_0_compat; [|apply p2_pos].
  change 0%Q with (inject_Z 0). rewrite <- Zlt_Qlt. lia.
Qed.

Lemma round64_of_pos x :
  (0 < x)%Q -> exists n, x = (Z.pos n # Qden x) /\ round64 x = round_pos n (Qden x).
Proof.
  destruct x as [[|n|n] d]; unfold Qlt; cbn [Qnum Qden]; intros H; try lia.
  exists n. split; reflexivity.
Qed.

Lemma round64_mono_pos x y : (0 < x)%Q -> (x <= y)%Q -> (round64 x <= round64 y)%Q.
Proof.
  intros Hx Hle. assert (Hy : (0 < y)%Q) by (eapply Qlt_le_trans; eassumption).
  destruct (round64_of_pos x Hx) as (n1 & Ex & ->).
  destruct (round64_of_pos y Hy) as (n2 & Ey & ->).
  apply round_pos_mono. now rewrite <- Ex, <- Ey.
Qed.

Lemma round64_pos x : (0 < x)%Q -> (0 < round64 x)%Q.
Proof.
  intros Hx. destruct (round64_of_pos x Hx) as (n & _ & ->). apply round_pos_pos.
Qed.

Lemma round64_Qeq_pos x y : (0 < x)%Q -> (x == y)%Q -> (round64 x == round64 y)%Q.
Proof.
  intros Hx E. assert (Hy : (0 < y)%Q) by now rewrite <- E.
  apply Qle_antisym; apply round64_mono_pos; try assumption;
    rewrite E; apply Qle_refl.
Qed.

Lemma py_int_mono x y : (0 <= x)%Q -> (x <= y)%Q -> py_int x <= py_int y.
Proof.
  intros Hx Hle. assert (Hy : (0 <= y)%Q) by (eapply Qle_trans; eassumption).
  assert (F : forall q, (0 <= q)%Q -> py_int q = Qfloor q).
  { intros [n d] H. unfold py_int, Qfloor. cbn [Qnum Qden].
    apply Z.quot_div_nonneg; [|lia].
    unfold Qle in H. cbn [Qnum Qden] in H. lia. }
  rewrite (F x Hx), (F y Hy). now apply Qfloor_resp_le.
Qed.

Lemma py_int_integer x z : (x == inject_Z z)%Q -> py_int x = z.
Proof.
  destruct x as [n d]. unfold Qeq, py_int. cbn [Qnum Qden inject_Z].
  intros H. rewrite Z.mul_1_r in H. subst n. apply Z.quot_mul. lia.
Qed.

Lemma float_100 : (float_of_int 100 == 100)%Q.
Proof. vm_compute. reflexivity. Qed.

Lemma round64_1 : (round64 1 == 1)%Q.
Proof. vm_compute. reflexivity. Qed.

Lemma round64_100 : (round64 100 == 100)%Q.
Proof. vm_compute. reflexivity. Qed.

Lemma ratio_pos i total :
  (0 < total)%nat -> (0 < (Z.of_nat i + 1) # Z.to_pos (Z.of_nat total))%Q.
Proof. intros _. unfold Qlt. cbn [Qnum Qden]. lia. Qed.

Lemma progress_percent_mono i j total :
  (0 < total)%nat -> (i <= j)%nat ->
  progress_percent i total <= progress_percent j total.
Proof.
  intros Ht Hij. unfold progress_percent, float_mul, int_truediv.
  pose proof (ratio_pos i total Ht) as Pi.
  pose proof (round64_pos _ Pi) as Ri.
  assert (H100 : (0 < float_of_int 100)%Q) by (rewrite float_100; reflexivity).
  assert (Hprod : (0 < round64 ((Z.of_nat i + 1) # Z.to_pos (Z.of_nat total))
                       * float_of_int 100)%Q).
  { apply Qmult_lt_0_compat; assumption. }
  apply py_int_mono.
  - apply Qlt_le_weak, round64_pos, Hprod.
  - apply round64_mono_pos; [exact Hprod|].
    apply Qmult_le_compat_r; [|now apply Qlt_le_weak].
    apply round64_mono_pos; [exact Pi|].
    unfold Qle. cbn [Qnum Qden]. nia.
Qed.

Lemma progress_percent_last total :
  (0 < total)%nat -> progress_percent (total - 1) total = 100.
Proof.
  intros Ht. unfold progress_percent, float_mul, int_truediv.
  replace (Z.of_nat (total - 1) + 1) with (Z.of_nat total) by lia.
  assert (P : (0 < Z.of_nat total # Z.to_pos (Z.of_nat total))%Q).
  { unfold Qlt. cbn [Qnum Qden]. lia. }
  assert (E1 : (round64 (Z.of_nat total # Z.to_pos (Z.of_nat total)) == 1)%Q).
  { rewrite <- round64_1. apply round64_Qeq_pos; [exact P|].
    unfold Qeq. cbn [Qnum Qden]. rewrite Z2Pos.id by lia. lia. }
  apply py_int_integer. rewrite <- round64_100.
  apply round64_Qeq_pos.
  - rewrite E1, float_100. reflexivity.
  - rewrite E1, float_100. reflexivity.
Qed.

Lemma progress_percents_sorted total s n :
  (0 < total)%nat ->
  StronglySorted Z.le (map (fun k => progress_percent k total) (seq s n)).
Proof.
  intros Ht. revert s. induction n as [|n IH]; intros s; simpl; constructor.
  - apply IH.
  - apply Forall_forall. intros p Hp. apply in_map_iff in Hp.
    destruct Hp as (k & <- & Hk). apply in_seq in Hk.
    apply progress_percent_mono; [exact Ht | lia].
Qed.

Lemma last_map_seq {A} (f : nat -> A) n d :
  (0 < n)%nat -> last (map f (seq 0 n)) d = f (n - 1)%nat.
Proof.
  destruct n as [|n]; [lia|]. intros _.
  rewrite seq_S, map_app. cbn [map]. rewrite last_last. simpl.
  now rewrite Nat.sub_0_r.
Qed.

(** X13.  The percentages of a scan never decrease, and a scan that
    completes has sent 100 last; this holds of the double-precision formula
    of the source, for every schedule of the two threads. *)
Lemma percents_nondecreasing os self ticks st out :
  exec os ticks (start os self) = (st, out) ->
  StronglySorted Z.le (percents out) /\
  (existsb is_result_ready out = true -> last (percents out) 0 = 100).
Proof.
  intros He. apply scan_inv_start in He. destruct He as [_ H]. simpl in H.
  set (cs := candidates os self) in *.
  assert (Body : forall i body,
             cs <> [] -> emitted_upto cs i body ->
             StronglySorted Z.le (percents body) /\
             existsb is_result_ready body = false).
  { intros i body Hne (_ & Hp & Hq). split; [|now apply quiet_no_result].
    rewrite Hp. apply progress_percents_sorted.
    destruct cs; [now elim Hne | simpl; lia]. }
  destruct (pc (snd st)) as [p | i todo | i c rest |].
  - destruct H as (-> & _). split; [constructor | discriminate].
  - destruct H as (_ & Hne & _ & _ & _ & Hem).
    destruct (Body i out Hne Hem) as [Hs Hr]. split; [exact Hs | congruence].
  - destruct H as (_ & Hs & _ & Hem).
    assert (Hne : cs <> []) by (intros E; rewrite E, skipn_nil in Hs; discriminate).
    destruct (Body i out Hne Hem) as [Hs' Hr]. split; [exact Hs' | congruence].
  - destruct H as [[_ ->]|[[_ ->]|[[_ (i & body & Hi & Hem & ->)]|[Hne (body & Hem & ->)]]]].
    + split; [constructor | discriminate].
    + split; [repeat constructor | reflexivity].
    + assert (Hne : cs <> []) by (intros E; rewrite E in Hi; simpl in Hi; lia).
      destruct (Body i body Hne Hem) as [Hs Hr].
      rewrite percents_app, existsb_app, Hr. simpl. rewrite app_nil_r.
      split; [exact Hs | discriminate].
    + destruct (Body _ body Hne Hem) as [Hs Hr].
      rewrite percents_app. simpl. rewrite app_nil_r. split; [exact Hs|].
      intros _. destruct Hem as (_ & -> & _).
      assert (Hlen : (0 < List.length cs)%nat) by (destruct cs; [now elim Hne | simpl; lia]).
      rewrite last_map_seq by exact Hlen.
      now apply progress_percent_last.
Qed.

(** The completed scan of [three_files]: 50, then 100. *)
Lemma percents_nondecreasing_witness :
  let out := snd (exec three_files (repeat (step 0) 10) (start three_files half_scan)) in
  StronglySorted Z.le (percents out) /\ last (percents out) 0 = 100.
Proof.
  intros out.
  destruct (percents_nondecreasing three_files half_scan (repeat (step 0) 10)
              (fst (exec three_files (repeat (step 0) 10) (start three_files half_scan)))
              out) as [A B].
  - vm_compute. reflexivity.
  - split; [exact A | apply B; vm_compute; reflexivity].
Defined.

(* ================================================================== *)
(** * More on the scanner *)

Lemma emissions_snoc es e : emissions (es ++ [e]) = emissions es ++ emission e.
Proof. unfold emissions. rewrite flat_map_app. simpl. now rewrite app_nil_r. Qed.

Lemma tick_grammar os t st out st' out' :
  grammar st out -> tick os t st = (st', out') -> grammar st' (out ++ out').
Proof.
  destruct st as [self fr]. unfold grammar. intros G Ht.
  destruct t; simpl in Ht.
  1-3: inversion Ht; subst; clear Ht; rewrite app_nil_r; exact G.
  unfold run_step in Ht. simpl in G |- *.
  destruct (pc fr) as [pending | i todo | i c rest | ] eqn:Hpc.
  - subst out. destruct pending as [|[[d dn] [|f fs]] pending].
    + destruct (List.length (files_to_process fr) =? 0)%nat;
        inversion Ht; subst; clear Ht; simpl.
      * exists []. right; right. reflexivity.
      * exists []. reflexivity.
    + inversion Ht; subst; clear Ht. reflexivity.
    + destruct (cancel_requested self).
      * inversion Ht; subst; clear Ht. simpl. exists []. left. reflexivity.
      * destruct (examine os self d f); inversion Ht; subst; clear Ht; reflexivity.
  - destruct G as [es ->]. destruct todo as [|c rest].
    + inversion Ht; subst; clear Ht. simpl. exists es. right; left. eauto.
    + destruct (paused self); inversion Ht; subst; clear Ht; simpl;
        rewrite ?Hpc, app_nil_r; exists es; reflexivity.
  - destruct G as [es ->]. destruct (cancel_requested self).
    + inversion Ht; subst; clear Ht. simpl. exists es. left. reflexivity.
    + inversion Ht; subst; clear Ht. simpl.
      eexists (es ++ [(row_of c, (_, _), _)]). rewrite emissions_snoc. reflexivity.
  - inversion Ht; subst; clear Ht. simpl. rewrite Hpc, app_nil_r. exact G.
Qed.

Lemma exec_grammar os ticks :
  forall st out st' out',
    grammar st out -> exec os ticks st = (st', out') -> grammar st' (out ++ out').
Proof.
  induction ticks as [|t ticks IH]; intros st out st' out' G He; simpl in He.
  - inversion He; subst. now rewrite app_nil_r.
  - destruct (tick os t st) as [st1 out1] eqn:Ht.
    destruct (exec os ticks st1) as [st2 out2] eqn:He2.
    inversion He; subst; clear He. rewrite app_assoc.
    eapply IH; [|exact He2]. eapply tick_grammar; eassumption.
Qed.

(** X1.  Whatever the two threads do, the signals of a scan are whole
    emissions ([live_file_signal], its [progress_update], its
    [eta_signal], in that order), closed by at most one final signal, which
    is there exactly when [run] has returned; the only other stream is the
    pair sent by a scan without candidates. *)
Theorem stream_of_whole_emissions os self ticks st out :
  exec os ticks (start os self) = (st, out) ->
  exists es tail,
    out = emissions es ++ tail /\
    (tail = [] \/ tail = [cancelled] \/ (exists rs, tail = [result_ready rs]) \/
     (es = [] /\
      tail = [progress_update 100 "No files found above threshold.";
              result_ready []])) /\
    (tail = [] <-> pc (snd st) <> Finished).
Proof.
  intros He.
  assert (G : grammar st ([] ++ out)).
  { eapply exec_grammar; [|exact He]. reflexivity. }
  simpl in G. unfold grammar in G.
  destruct (pc (snd st)) as [p | i todo | i c rest |].
  - subst out. exists [], []. repeat split; auto; discriminate.
  - destruct G as [es ->]. exists es, []. rewrite app_nil_r.
    repeat split; auto; discriminate.
  - destruct G as [es ->]. exists es, []. rewrite app_nil_r.
    repeat split; auto; discriminate.
  - destruct G as [es [->|[[rs ->]| ->]]].
    + exists es, [cancelled]. repeat split; auto; try discriminate. congruence.
    + exists es, [result_ready rs]. repeat split; eauto; try discriminate. congruence.
    + exists [], [progress_update 100 "No files found above threshold."; result_ready []].
      repeat split; auto; try discriminate. congruence.
Qed.

(** Seven steps into the scan of [three_files]: one whole emission, nothing final. *)
Lemma stream_of_whole_emissions_witness :
  let st := fst (exec three_files (repeat (step 0) 7) (start three_files half_scan)) in
  let out := snd (exec three_files (repeat (step 0) 7) (start three_files half_scan)) in
  List.length out = 3%nat /\
  exists es tail,
    out = emissions es ++ tail /\
    (tail = [] \/ tail = [cancelled] \/ (exists rs, tail = [result_ready rs]) \/
     (es = [] /\
      tail = [progress_update 100 "No files found above threshold.";
              result_ready []])) /\
    (tail = [] <-> pc (snd st) <> Finished).
Proof.
  intros st out. split; [reflexivity|].
  apply (stream_of_whole_emissions three_files half_scan (repeat (step 0) 7) st out).
  vm_compute. reflexivity.
Defined.

Lemma quiet_not_final out s :
  forallb quiet out = true -> In s out -> is_result_ready s = false /\ is_cancelled s = false.
Proof.
  intros H Hin. rewrite forallb_forall in H. specialize (H s Hin).
  unfold quiet in H. destruct (is_result_ready s), (is_cancelled s); auto; discriminate.
Qed.

(** X2.  A [result_ready] signal carries exactly the rows that the scan has
    sent one by one, in the same order, and these are the rows of all the
    candidates of the tree. *)
Theorem result_ready_carries_the_rows os self ticks st out results :
  exec os ticks (start os self) = (st, out) ->
  In (result_ready results) out ->
  results = discovered out /\
  results = map row_of (candidates os self) /\
  List.length results = List.length (candidates os self).
Proof.
  intros He Hin. apply scan_inv_start in He. destruct He as [_ H]. simpl in H.
  assert (Q : forall body, forallb quiet body = true -> ~ In (result_ready results) body).
  { intros body Hq Hb. destruct (quiet_not_final _ _ Hq Hb). discriminate. }
  destruct (pc (snd st)) as [p | i todo | i c rest |].
  - destruct H as (-> & _). contradiction.
  - destruct H as (_ & _ & _ & _ & _ & _ & _ & Hq). now elim (Q out).
  - destruct H as (_ & _ & _ & _ & _ & Hq). now elim (Q out).
  - destruct H as [[_ ->]|[[Hcs ->]|[[_ (i & body & Hi & (_ & _ & Hq) & ->)]|[_ (body & (Hd & _ & Hq) & ->)]]]].
    + destruct Hin as [E|[]]. discriminate.
    + destruct Hin as [E|[E|[]]]; [discriminate|]. inversion E; subst.
      rewrite Hcs. repeat split.
    + apply in_app_or in Hin. destruct Hin as [Hb|[E|[]]]; [now elim (Q body) | discriminate].
    + apply in_app_or in Hin. destruct Hin as [Hb|[E|[]]]; [now elim (Q body)|].
      inversion E; subst. rewrite discovered_app, Hd, firstn_all. simpl.
      rewrite app_nil_r, length_map. repeat split.
Qed.

(** The completed scan of [three_files] (ten steps). *)
Lemma result_ready_carries_the_rows_witness :
  let out := snd (exec three_files (repeat (step 0) 10) (start three_files half_scan)) in
  let results := map row_of (candidates three_files half_scan) in
  results = discovered out /\
  results = map row_of (candidates three_files half_scan) /\
  List.length results = List.length (candidates three_files half_scan).
Proof.
  intros out results.
  apply (result_ready_carries_the_rows three_files half_scan (repeat (step 0) 10)
           (fst (exec three_files (repeat (step 0) 10) (start three_files half_scan)))
           out results).
  - vm_compute. reflexivity.
  - vm_compute. do 6 right. left. reflexivity.
Defined.

Lemma quiet_no_cancelled body :
  forallb quiet body = true -> existsb is_cancelled body = false.
Proof.
  induction body as [|s body IH]; simpl; [reflexivity|].
  intros Hq. apply andb_true_iff in Hq. destruct Hq as [Hs Hq].
  rewrite (IH Hq), orb_false_r. unfold quiet in Hs.
  destruct (is_result_ready s), (is_cancelled s); auto; discriminate.
Qed.

Lemma exec_without_cancel os ticks :
  forall self fr st out,
    no_cancel ticks = true ->
    exec os ticks (self, fr) = (st, out) ->
    cancel_requested (fst st) = cancel_requested self.
Proof.
  induction ticks as [|t ticks IH]; intros self fr st out Hnc He; simpl in He.
  - inversion He; subst. reflexivity.
  - simpl in Hnc. destruct t; try discriminate Hnc; simpl in He, Hnc.
    + destruct (exec os ticks (pause self, fr)) as [st2 out2] eqn:E.
      inversion He; subst. now rewrite (IH _ _ _ _ Hnc E).
    + destruct (exec os ticks (resume self, fr)) as [st2 out2] eqn:E.
      inversion He; subst. now rewrite (IH _ _ _ _ Hnc E).
    + destruct (run_step os now self fr) as [fr' o].
      destruct (exec os ticks (self, fr')) as [st2 out2] eqn:E.
      inversion He; subst. now rewrite (IH _ _ _ _ Hnc E).
Qed.

(** X3.  [cancelled] is never sent of the scan's own accord: when
    [cancel()] has not been called, no [cancelled] signal is in the
    stream. *)
Theorem no_cancelled_without_cancel os self ticks st out :
  cancel_requested self = false ->
  no_cancel ticks = true ->
  exec os ticks (start os self) = (st, out) ->
  existsb is_cancelled out = false.
Proof.
  intros Hc Hnc He.
  pose proof (exec_without_cancel _ _ _ _ _ _ Hnc He) as Hflag. rewrite Hc in Hflag.
  apply scan_inv_start in He. destruct He as [_ H]. simpl in H.
  pose proof quiet_no_cancelled as Q.
  destruct (pc (snd st)) as [p | i todo | i c rest |].
  - destruct H as (-> & _). reflexivity.
  - destruct H as (_ & _ & _ & _ & _ & _ & _ & Hq). now apply Q.
  - destruct H as (_ & _ & _ & _ & _ & Hq). now apply Q.
  - destruct H as [[F _]|[[_ ->]|[[F _]|[_ (body & (_ & _ & Hq) & ->)]]]];
      try congruence; try reflexivity.
    rewrite existsb_app, (Q _ Hq). reflexivity.
Qed.

(** The completed scan of [three_files]. *)
Lemma no_cancelled_without_cancel_witness :
  existsb is_cancelled
    (snd (exec three_files (repeat (step 0) 10) (start three_files half_scan))) = false.
Proof.
  apply (no_cancelled_without_cancel three_files half_scan (repeat (step 0) 10)
           (fst (exec three_files (repeat (step 0) 10) (start three_files half_scan)))).
  - reflexivity.
  - reflexivity.
  - vm_compute. reflexivity.
Defined.

Lemma step_progress os self0 self fr out now :
  scan_inv os self0 (self, fr) out ->
  cancel_requested self = false -> paused self = false ->
  pc fr <> Finished ->
  (fuel_needed (List.length (candidates os self0)) (fst (run_step os now self fr))
   < fuel_needed (List.length (candidates os self0)) fr)%nat.
Proof.
  intros [_ H] Hc Hp Hnf. simpl in H. unfold run_step, fuel_needed.
  destruct (pc fr) as [pending | i todo | i c rest | ] eqn:Hpc; [| | |congruence].
  - destruct H as (_ & _ & Hf).
    destruct pending as [|[[d dn] [|f fs]] pending].
    + simpl in Hf. rewrite app_nil_r in Hf. rewrite <- Hf.
      destruct (List.length (files_to_process fr) =? 0)%nat; simpl; lia.
    + simpl. lia.
    + rewrite Hc. destruct (examine os self d f); simpl; lia.
  - destruct todo as [|c rest]; simpl; [lia|]. rewrite Hp. simpl. lia.
  - rewrite Hc. simpl. lia.
Qed.

Lemma run_to_completion os self0 ticks :
  forall self fr out,
    scan_inv os self0 (self, fr) out ->
    cancel_requested self = false -> paused self = false ->
    no_cancel ticks = true -> no_pause ticks = true ->
    (fuel_needed (List.length (candidates os self0)) fr <= steps ticks)%nat ->
    pc (snd (fst (exec os ticks (self, fr)))) = Finished.
Proof.
  induction ticks as [|t ticks IH]; intros self fr out Hinv Hc Hp Hnc Hnp Hfuel.
  - unfold steps in Hfuel. simpl in Hfuel |- *. unfold fuel_needed in Hfuel.
    destruct (pc fr); try lia. reflexivity.
  - simpl in Hnc, Hnp. unfold steps in Hfuel.
    destruct t; try discriminate Hnc; try discriminate Hnp; simpl in Hfuel.
    + assert (Hinv' : scan_inv os self0 (resume self, fr) (out ++ [])).
      { apply (tick_inv os self0 call_resume (self, fr) out); [exact Hinv | reflexivity]. }
      specialize (IH (resume self) fr _ Hinv' Hc eq_refl Hnc Hnp Hfuel).
      simpl. destruct (exec os ticks (resume self, fr)) as [st2 out2]. exact IH.
    + destruct (pc fr) eqn:Hpc.
      4:{ destruct (exec_finished os (step now :: ticks) self fr Hpc) as [self' ->].
          exact Hpc. }
      all: pose proof (step_progress os self0 self fr out now Hinv Hc Hp
                         ltac:(congruence)) as Hdec;
        assert (Hinv' : scan_inv os self0 (self, fst (run_step os now self fr))
                          (out ++ snd (run_step os now self fr)))
          by (apply (tick_inv os self0 (step now) (self, fr) out); [exact Hinv|]; simpl;
              destruct (run_step os now self fr); reflexivity);
        simpl; destruct (run_step os now self fr) as [fr' o] eqn:Hs; simpl in *;
        assert (Hfuel' : (fuel_needed (List.length (candidates os self0)) fr'
                          <= steps ticks)%nat) by (unfold steps; lia);
        specialize (IH self fr' _ Hinv' Hc Hp Hnc Hnp Hfuel');
        destruct (exec os ticks (self, fr')) as [st2 out2]; exact IH.
Qed.

(** X4.  A scan that is neither cancelled nor paused runs to its end
    within one step per file and directory of the walk and two per
    candidate (and two more): it sends the row of every candidate, in the
    order of the walk, and closes with [result_ready] carrying them all. *)
Theorem uninterrupted_scan_completes os self ticks :
  cancel_requested self = false -> paused self = false ->
  no_cancel ticks = true -> no_pause ticks = true ->
  (work (os_walk os (root_directory self))
   + 2 * List.length (candidates os self) + 2 <= steps ticks)%nat ->
  exists st out,
    exec os ticks (start os self) = (st, out) /\
    pc (snd st) = Finished /\
    discovered out = map row_of (candidates os self) /\
    last out cancelled = result_ready (map row_of (candidates os self)) /\
    existsb is_cancelled out = false.
Proof.
  intros Hc Hp Hnc Hnp Hfuel.
  pose proof (run_to_completion os self ticks self (run_entry os self) []
                (start_inv os self) Hc Hp Hnc Hnp Hfuel) as Hfin.
  fold (start os self) in Hfin.
  destruct (exec os ticks (start os self)) as [st out] eqn:He. simpl in Hfin.
  exists st, out. split; [reflexivity|]. split; [exact Hfin|].
  pose proof (exec_without_cancel _ _ _ _ _ _ Hnc He) as Hflag. rewrite Hc in Hflag.
  apply scan_inv_start in He. destruct He as [_ H]. simpl in H. rewrite Hfin in H.
  destruct H as [[F _]|[[Hcs ->]|[[F _]|[_ (body & (Hd & _ & Hq) & ->)]]]];
    try congruence.
  - rewrite Hcs. repeat split.
  - rewrite discovered_app, Hd, firstn_all, last_last, existsb_app. simpl.
    rewrite app_nil_r, (quiet_no_cancelled _ Hq). repeat split.
Qed.

(** [three_files]: four steps of walk, two candidates, ten steps in all. *)
Lemma uninterrupted_scan_completes_witness :
  exists st out,
    exec three_files (repeat (step 0) 10) (start three_files half_scan) = (st, out) /\
    pc (snd st) = Finished /\
    discovered out = map row_of (candidates three_files half_scan) /\
    last out cancelled = result_ready (map row_of (candidates three_files half_scan)) /\
    existsb is_cancelled out = false.
Proof.
  apply (uninterrupted_scan_completes three_files half_scan (repeat (step 0) 10)).
  - reflexivity.
  - reflexivity.
  - reflexivity.
  - reflexivity.
  - vm_compute. lia.
Defined.

(* ------------------------------------------------------------------ *)
(** ** Pause and resume *)

(** C5, on the code.  Let a scan stand in the pause loop before candidate
    [N + 1] of [M], paused, with the rows of [N] candidates sent, and let
    [cancel()] be called.  Whatever follows short of [resume()], and
    however long, the stream stays what it was: the [N] rows, and no
    [cancelled] after them.  The flag is set and never read, because the
    pause loop reads [paused] only. *)
Theorem cancel_held_by_pause os self pre post st1 out1 i c rest :
  exec os pre (start os self) = (st1, out1) ->
  pc (snd st1) = PauseWait i (c :: rest) ->
  paused (fst st1) = true ->
  no_resume post = true ->
  exists self2,
    exec os (pre ++ call_cancel :: post) (start os self)
    = ((self2, snd st1), out1) /\
    cancel_requested self2 = true /\ paused self2 = true /\
    List.length (discovered out1) = i /\
    (i < List.length (candidates os self))%nat /\
    existsb is_cancelled out1 = false /\
    existsb is_result_ready out1 = false.
Proof.
  intros He Hpc Hp Hnr. destruct st1 as [self1 fr1]. simpl in Hpc, Hp.
  pose proof (scan_inv_start _ _ _ _ _ He) as [_ Hinv]. simpl in Hinv.
  rewrite Hpc in Hinv. destruct Hinv as (_ & _ & Hs & _ & _ & Hd & _ & Hq).
  symmetry in Hs. destruct (skipn_cons_inv _ _ _ _ Hs) as (_ & _ & Hlt).
  destruct (pause_loop_spins os post (cancel self1) fr1 i c rest Hpc Hp Hnr)
    as (self2 & Hspin & Hp2 & Hc2).
  exists self2. rewrite exec_app, He. simpl. rewrite Hspin, app_nil_r.
  split; [reflexivity|]. split; [now apply Hc2|]. split; [exact Hp2|].
  split; [rewrite Hd, length_map, length_firstn; lia|].
  split; [exact Hlt|].
  split; [now apply quiet_no_cancelled | now apply quiet_no_result].
Qed.

(** [three_files], paused after the first of its two rows, then cancelled:
    forty polls later nothing more has been sent. *)
Lemma cancel_held_by_pause_witness :
  let pre := repeat (step 0) 7 ++ [call_pause] in
  let post := repeat (step 0) 40 in
  let st1 := fst (exec three_files pre (start three_files half_scan)) in
  let out1 := snd (exec three_files pre (start three_files half_scan)) in
  List.length (candidates three_files half_scan) = 2%nat /\
  exists self2,
    exec three_files (pre ++ call_cancel :: post) (start three_files half_scan)
    = ((self2, snd st1), out1) /\
    cancel_requested self2 = true /\ paused self2 = true /\
    List.length (discovered out1) = 1%nat /\
    (1 < List.length (candidates three_files half_scan))%nat /\
    existsb is_cancelled out1 = false /\
    existsb is_result_ready out1 = false.
Proof.
  intros pre post st1 out1. split; [reflexivity|].
  eapply (cancel_held_by_pause three_files half_scan pre post st1 out1 1%nat).
  - vm_compute. reflexivity.
  - vm_compute. reflexivity.
  - reflexivity.
  - reflexivity.
Defined.

Lemma spins os nows self fr i c rest :
  pc fr = PauseWait i (c :: rest) -> paused self = true ->
  exec os (map step nows) (self, fr) = ((self, fr), []).
Proof.
  intros Hpc Hp. induction nows as [|now nows IH]; simpl; [reflexivity|].
  unfold run_step. rewrite Hpc, Hp. simpl in IH. rewrite IH. reflexivity.
Qed.

Lemma resume_pause self : paused self = false -> resume (pause self) = self.
Proof. destruct self; simpl; intros ->; reflexivity. Qed.

(** While [paused] stays set a scan sends at most the one row whose
    cancel check it had already reached, and none otherwise. *)
Lemma paused_discovers_little os ticks :
  forall self fr,
    paused self = true -> no_resume ticks = true ->
    (List.length (discovered (snd (exec os ticks (self, fr))))
     <= match pc fr with CancelCheck _ _ _ => 1 | _ => 0 end)%nat.
Proof.
  induction ticks as [|t ticks IH]; intros self fr Hp Hnr.
  - simpl. destruct (pc fr); lia.
  - simpl in Hnr. destruct t; try discriminate Hnr; simpl in Hnr |- *.
    + specialize (IH (cancel self) fr Hp Hnr).
      destruct (exec os ticks (cancel self, fr)); exact IH.
    + specialize (IH (pause self) fr eq_refl Hnr).
      destruct (exec os ticks (pause self, fr)); exact IH.
    + unfold run_step.
      destruct (pc fr) as [[|[[d dn] [|f fs]] pending] | i [|c rest] | i c rest | ] eqn:Hpc.
      * destruct (List.length (files_to_process fr) =? 0)%nat;
          match goal with
          | |- context [exec os ticks (self, ?f)] =>
              specialize (IH self f Hp Hnr); destruct (exec os ticks (self, f)) as [s2 o2]
          end; simpl in *; lia.
      * specialize (IH self (goto fr (Enumerating pending)) Hp Hnr).
        destruct (exec os ticks (self, goto fr (Enumerating pending))). exact IH.
      * destruct (cancel_requested self); [|destruct (examine os self d f)];
          match goal with
          | |- context [exec os ticks (self, ?f)] =>
              specialize (IH self f Hp Hnr); destruct (exec os ticks (self, f)) as [s2 o2]
          end; simpl in *; lia.
      * specialize (IH self (goto fr Finished) Hp Hnr).
        destruct (exec os ticks (self, goto fr Finished)). simpl in *. lia.
      * rewrite Hp. specialize (IH self fr Hp Hnr). rewrite Hpc in IH.
        destruct (exec os ticks (self, fr)). exact IH.
      * destruct (cancel_requested self);
          match goal with
          | |- context [exec os ticks (self, ?f)] =>
              specialize (IH self f Hp Hnr); destruct (exec os ticks (self, f)) as [s2 o2]
          end; simpl in *; lia.
      * specialize (IH self fr Hp Hnr). rewrite Hpc in IH.
        destruct (exec os ticks (self, fr)). exact IH.
Qed.

(** X5.  After [pause()], and until [resume()] is called, a scan sends at
    most one more row (the one whose cancel check it had passed the pause
    loop for), and no row at all when it was not at that check. *)
Theorem pause_halts_emissions os self pre post st1 out1 st2 out2 :
  exec os pre (start os self) = (st1, out1) ->
  exec os (pre ++ call_pause :: post) (start os self) = (st2, out2) ->
  no_resume post = true ->
  (List.length (discovered out2) <= List.length (discovered out1) + 1)%nat /\
  ((forall i c rest, pc (snd st1) <> CancelCheck i c rest) ->
   discovered out2 = discovered out1).
Proof.
  intros He1 He2 Hnr. rewrite exec_app, He1 in He2. destruct st1 as [self1 fr1].
  simpl in He2.
  pose proof (paused_discovers_little os post (pause self1) fr1 eq_refl Hnr) as H.
  destruct (exec os post (pause self1, fr1)) as [s o]. inversion He2; subst; clear He2.
  simpl in H. rewrite discovered_app, length_app. split.
  - destruct (pc fr1); lia.
  - intros Hno. simpl in Hno.
    assert (E : discovered o = []).
    { destruct (discovered o); [reflexivity|]. simpl in H.
      destruct (pc fr1); try lia. now elim (Hno i c rest). }
    rewrite E. apply app_nil_r.
Qed.

(** [three_files], paused after its first row: no further row in five steps. *)
Lemma pause_halts_emissions_witness :
  let pre := repeat (step 0) 7 in
  let post := repeat (step 0) 5 in
  let out1 := snd (exec three_files pre (start three_files half_scan)) in
  let out2 := snd (exec three_files (pre ++ call_pause :: post)
                        (start three_files half_scan)) in
  List.length (discovered out1) = 1%nat /\
  (List.length (discovered out2) <= List.length (discovered out1) + 1)%nat /\
  discovered out2 = discovered out1.
Proof.
  intros pre post out1 out2. split; [reflexivity|].
  destruct (pause_halts_emissions three_files half_scan pre post
              (fst (exec three_files pre (start three_files half_scan))) out1
              (fst (exec three_files (pre ++ call_pause :: post)
                         (start three_files half_scan))) out2) as [A B].
  - vm_compute. reflexivity.
  - vm_compute. reflexivity.
  - reflexivity.
  - split; [exact A|]. apply B. intros i c rest. vm_compute. discriminate.
Defined.

(** X6.  A pause in the pause loop, however long, followed by [resume()]
    changes nothing of what the scan does afterwards: the same signals,
    the same final state. *)
Theorem pause_then_resume_is_transparent os self pre nows post st1 out1 i c rest :
  exec os pre (start os self) = (st1, out1) ->
  pc (snd st1) = PauseWait i (c :: rest) ->
  paused (fst st1) = false ->
  exec os (pre ++ call_pause :: map step nows ++ call_resume :: post) (start os self)
  = exec os (pre ++ post) (start os self).
Proof.
  intros He Hpc Hp. destruct st1 as [self1 fr1]. simpl in Hpc, Hp.
  rewrite !exec_app, He. simpl.
  rewrite exec_app, (spins os nows (pause self1) fr1 i c rest Hpc eq_refl).
  simpl. rewrite (resume_pause self1 Hp).
  destruct (exec os post (self1, fr1)). reflexivity.
Qed.

(** [three_files], paused for two steps after its first row. *)
Lemma pause_then_resume_is_transparent_witness :
  let pre := repeat (step 0) 7 in
  let post := repeat (step 0) 3 in
  exec three_files (pre ++ call_pause :: map step [1%Q; 2%Q] ++ call_resume :: post)
       (start three_files half_scan)
  = exec three_files (pre ++ post) (start three_files half_scan).
Proof.
  intros pre post.
  eapply (pause_then_resume_is_transparent three_files half_scan pre [1%Q; 2%Q] post).
  - vm_compute. reflexivity.
  - vm_compute. reflexivity.
  - reflexivity.
Defined.

Lemma paused_first_loop os ticks :
  forall self fr pending,
    pc fr = Enumerating pending ->
    cancel_requested self = false -> paused self = true ->
    no_cancel ticks = true -> no_resume ticks = true ->
    (work pending < steps ticks)%nat ->
    exists self' fr',
      exec os ticks (self, fr) =
        ((self', fr'),
         match files_to_process fr ++ found os self pending with
         | [] => [progress_update 100 "No files found above threshold.";
                  result_ready []]
         | _ => []
         end) /\
      pc fr' = match files_to_process fr ++ found os self pending with
               | [] => Finished
               | cs => PauseWait 0 cs
               end.
Proof.
  induction ticks as [|t ticks IH]; intros self fr pending Hpc Hc Hp Hnc Hnr Hw.
  - unfold steps in Hw; simpl in Hw. lia.
  - simpl in Hnc, Hnr. unfold steps in Hw.
    destruct t; try discriminate Hnc; try discriminate Hnr; simpl in Hw.
    + destruct (IH (pause self) fr pending Hpc Hc eq_refl Hnc Hnr Hw)
        as (s' & f' & He & Hf).
      rewrite (found_same_request os (pause self) self) in He, Hf by (repeat split).
      simpl. rewrite He. exists s', f'. split; [reflexivity | exact Hf].
    + simpl. unfold run_step. rewrite Hpc.
      destruct pending as [|[[d dn] [|f fs]] pending].
      * simpl found. rewrite app_nil_r.
        destruct (files_to_process fr) as [|c cs] eqn:Hfiles; simpl.
        -- destruct (exec_finished os ticks self (goto fr Finished) eq_refl) as [s' ->].
           exists s', (goto fr Finished). split; reflexivity.
        -- match goal with
           | |- context [exec os ticks (self, ?f)] =>
               destruct (pause_loop_spins os ticks self f 0%nat c cs eq_refl Hp Hnr)
                 as (s' & -> & _)
           end.
           eexists _, _. split; reflexivity.
      * assert (Hw' : (work pending < steps ticks)%nat) by (simpl in Hw; unfold steps; lia).
        destruct (IH self (goto fr (Enumerating pending)) pending eq_refl Hc Hp Hnc Hnr Hw')
          as (s' & f' & He & Hf).
        rewrite He. exists s', f'. split; [reflexivity | exact Hf].
      * rewrite Hc.
        assert (Hw' : (work ((d, dn, fs) :: pending) < steps ticks)%nat)
          by (simpl in Hw |- *; unfold steps; lia).
        simpl found.
        destruct (examine os self d f) as [c|].
        -- match goal with
           | |- context [exec os ticks (self, ?f)] =>
               destruct (IH self f ((d, dn, fs) :: pending) eq_refl Hc Hp Hnc Hnr Hw')
                 as (s' & f' & He & Hf)
           end.
           simpl in He, Hf. rewrite <- !app_assoc in He, Hf. simpl in He, Hf.
           rewrite He. exists s', f'. split; [reflexivity | exact Hf].
        -- destruct (IH self (goto fr (Enumerating ((d, dn, fs) :: pending)))
                        ((d, dn, fs) :: pending) eq_refl Hc Hp Hnc Hnr Hw')
             as (s' & f' & He & Hf).
           simpl in He, Hf. rewrite He. exists s', f'. split; [reflexivity | exact Hf].
Qed.

(** X7.  [pause()] does not hold the first loop.  A scan that is paused from
    the start, and stays so, walks the whole tree all the same; it then
    waits, silent, before its first candidate, or, when there is no
    candidate, sends the two signals of the empty scan and returns. *)
Theorem pause_does_not_hold_the_walk os self ticks :
  cancel_requested self = false -> paused self = true ->
  no_cancel ticks = true -> no_resume ticks = true ->
  (work (os_walk os (root_directory self)) < steps ticks)%nat ->
  exists st,
    match candidates os self with
    | [] =>
        exec os ticks (start os self) =
          (st, [progress_update 100 "No files found above threshold.";
                result_ready []]) /\
        pc (snd st) = Finished
    | cs => exec os ticks (start os self) = (st, []) /\ pc (snd st) = PauseWait 0 cs
    end.
Proof.
  intros Hc Hp Hnc Hnr Hw.
  destruct (paused_first_loop os ticks self (run_entry os self)
              (os_walk os (root_directory self)) eq_refl Hc Hp Hnc Hnr Hw)
    as (s' & f' & He & Hf).
  simpl in He, Hf. change (found os self (os_walk os (root_directory self)))
    with (candidates os self) in He, Hf.
  exists (s', f'). unfold start. rewrite He. simpl.
  destruct (candidates os self); split; auto.
Qed.

(** [three_files], paused from the start: six steps reach the pause loop. *)
Lemma pause_does_not_hold_the_walk_witness :
  exists st,
    match candidates three_files (pause half_scan) with
    | [] =>
        exec three_files (repeat (step 0) 6) (start three_files (pause half_scan)) =
          (st, [progress_update 100 "No files found above threshold.";
                result_ready []]) /\
        pc (snd st) = Finished
    | cs => exec three_files (repeat (step 0) 6) (start three_files (pause half_scan))
            = (st, []) /\ pc (snd st) = PauseWait 0 cs
    end.
Proof.
  apply (pause_does_not_hold_the_walk three_files (pause half_scan) (repeat (step 0) 6)).
  - reflexivity.
  - reflexivity.
  - reflexivity.
  - reflexivity.
  - vm_compute. lia.
Defined.

(** X8.  A pause that comes after the last row has been sent holds nothing
    back: the next step of [run] sends [result_ready] with all the rows. *)
Theorem pause_after_the_last_row os self pre st1 out1 now post :
  exec os pre (start os self) = (st1, out1) ->
  pc (snd st1) <> Finished ->
  candidates os self <> [] ->
  List.length (discovered out1) = List.length (candidates os self) ->
  exists st2,
    exec os (pre ++ call_pause :: step now :: post) (start os self)
    = (st2, out1 ++ [result_ready (map row_of (candidates os self))]) /\
    pc (snd st2) = Finished.
Proof.
  intros He Hnf Hne Hlen. pose proof (scan_inv_start _ _ _ _ _ He) as [_ H].
  destruct st1 as [self1 fr1]. simpl in H, Hnf.
  rewrite exec_app, He. simpl. unfold run_step.
  destruct (pc fr1) as [p | i todo | i c rest |] eqn:Hpc; [| | |congruence].
  - destruct H as (-> & _). simpl in Hlen.
    destruct (candidates os self); [now elim Hne | discriminate].
  - destruct H as (_ & _ & Htodo & Hle & Hr & (Hd & _)).
    assert (Hi : i = List.length (candidates os self)).
    { rewrite Hd, length_map, firstn_length_le in Hlen by exact Hle. exact Hlen. }
    rewrite Hi, skipn_all in Htodo. subst todo.
    rewrite Hr, Hi, firstn_all.
    destruct (exec_finished os post (pause self1) (goto fr1 Finished) eq_refl) as [s' ->].
    eexists. split; reflexivity.
  - exfalso. destruct H as (_ & Hs & _ & (Hd & _)). symmetry in Hs.
    apply skipn_cons_inv in Hs. destruct Hs as (_ & _ & Hlt).
    rewrite Hd, length_map, firstn_length_le in Hlen by lia. lia.
Qed.

(** [three_files], paused after its second and last row. *)
Lemma pause_after_the_last_row_witness :
  let pre := repeat (step 0) 9 in
  let out1 := snd (exec three_files pre (start three_files half_scan)) in
  exists st2,
    exec three_files (pre ++ call_pause :: step 0 :: [])
         (start three_files half_scan)
    = (st2, out1 ++ [result_ready (map row_of (candidates three_files half_scan))]) /\
    pc (snd st2) = Finished.
Proof.
  intros pre out1.
  apply (pause_after_the_last_row three_files half_scan pre
           (fst (exec three_files pre (start three_files half_scan))) out1 0 []).
  - vm_compute. reflexivity.
  - vm_compute. discriminate.
  - vm_compute. discriminate.
  - vm_compute. reflexivity.
Defined.

(* ------------------------------------------------------------------ *)
(** ** No row twice *)

Lemma NoDup_firstn {A} (l : list A) n : NoDup l -> NoDup (firstn n l).
Proof.
  revert l; induction n as [|n IH]; intros [|x l] H; simpl; try constructor.
  - inversion H; subst. intros Hin. apply in_firstn in Hin. contradiction.
  - inversion H; subst. now apply IH.
Qed.

Lemma row_path_row_of c : row_path (row_of c) = snd (fst (fst c)).
Proof. destruct c as [[[f p] mb] gb]. reflexivity. Qed.

Lemma examine_path os self d f c :
  examine os self d f = Some c -> snd (fst (fst c)) = os_path_abspath os (join d f).
Proof.
  intros H. apply examine_some in H. destruct H as (_ & _ & size & _ & _ & ->).
  reflexivity.
Qed.

Lemma dir_paths_in os self d fs x :
  In x (map (fun c => snd (fst (fst c)))
            (flat_map (fun filename =>
                         match examine os self d filename with
                         | Some c => [c]
                         | None => []
                         end) fs)) ->
  In x (map (fun filename => os_path_abspath os (join d filename)) fs).
Proof.
  rewrite in_map_iff. intros (c & <- & Hc).
  apply in_flat_map in Hc. destruct Hc as (f & Hf & Hc).
  destruct (examine os self d f) as [c'|] eqn:E; simpl in Hc; [|contradiction].
  destruct Hc as [<-|[]]. rewrite (examine_path _ _ _ _ _ E).
  apply in_map_iff. exists f. now split.
Qed.

Lemma found_paths_in os self pending x :
  In x (map (fun c => snd (fst (fst c))) (found os self pending)) ->
  In x (paths_of os pending).
Proof.
  induction pending as [|[[d dn] fs] pending IH]; simpl; [tauto|].
  rewrite map_app, in_app_iff. intros [H|H]; apply in_or_app.
  - left. now apply (dir_paths_in os self).
  - right. now apply IH.
Qed.

Lemma found_paths_NoDup os self pending :
  NoDup (paths_of os pending) ->
  NoDup (map (fun c => snd (fst (fst c))) (found os self pending)).
Proof.
  induction pending as [|[[d dn] fs] pending IH]; simpl; [constructor|].
  intros H. rewrite map_app. apply NoDup_app.
  - apply NoDup_app_remove_r in H. clear IH.
    induction fs as [|f fs IHf]; simpl; [constructor|].
    simpl in H. inversion H as [|? ? Hnin Hnd]; subst.
    destruct (examine os self d f) as [c|] eqn:E; simpl; [|now apply IHf].
    constructor; [|now apply IHf].
    rewrite (examine_path _ _ _ _ _ E). intros Hin. apply Hnin.
    now apply (dir_paths_in os self).
  - apply IH. now apply NoDup_app_remove_l in H.
  - intros x Hx Hx'.
    apply dir_paths_in in Hx. apply found_paths_in in Hx'.
    revert Hx'.
    induction (map (fun filename => os_path_abspath os (join d filename)) fs)
      as [|y l IHl]; simpl in *; [contradiction|].
    inversion H; subst. destruct Hx as [->|Hx].
    + intros Hx'. apply H2. apply in_or_app. now right.
    + now apply IHl.
Qed.

(** X9.  When the walk lists no path twice, no row is sent twice: the rows
    of a scan have distinct paths. *)
Theorem no_row_twice os self ticks st out :
  NoDup (paths_of os (os_walk os (root_directory self))) ->
  exec os ticks (start os self) = (st, out) ->
  NoDup (map row_path (discovered out)) /\ NoDup (discovered out).
Proof.
  intros Hnd He. apply scan_inv_start in He. apply discovered_prefix in He.
  destruct He as (i & _ & ->).
  assert (H : NoDup (map row_path (map row_of (firstn i (candidates os self))))).
  { rewrite map_map.
    rewrite (map_ext _ (fun c => snd (fst (fst c))) row_path_row_of).
    rewrite <- firstn_map. apply NoDup_firstn.
    now apply found_paths_NoDup. }
  split; [exact H | eapply NoDup_map_inv; exact H].
Qed.

(** The three paths of [three_files] are distinct. *)
Lemma no_row_twice_witness :
  let out := snd (exec three_files (repeat (step 0) 10) (start three_files half_scan)) in
  NoDup (map row_path (discovered out)) /\ NoDup (discovered out).
Proof.
  intros out.
  apply (no_row_twice three_files half_scan (repeat (step 0) 10)
           (fst (exec three_files (repeat (step 0) 10) (start three_files half_scan)))).
  - vm_compute. repeat constructor; simpl; intuition discriminate.
  - vm_compute. reflexivity.
Defined.

(* ------------------------------------------------------------------ *)
(** ** More on the float operations *)

Lemma round64_nonneg x : (0 <= x)%Q -> (0 <= round64 x)%Q.
Proof.
  intros H. destruct (Qlt_le_dec 0 x) as [Hp|Hn].
  - apply Qlt_le_weak. now apply round64_pos.
  - assert (E : Qnum x = 0).
    { unfold Qle in *. cbn [Qnum Qden] in *. lia. }
    unfold round64. rewrite E. apply Qle_refl.
Qed.

Lemma round64_mono x y : (0 <= x)%Q -> (x <= y)%Q -> (round64 x <= round64 y)%Q.
Proof.
  intros Hx Hle. destruct (Qlt_le_dec 0 x) as [Hp|Hn].
  - now apply round64_mono_pos.
  - assert (E : Qnum x = 0).
    { unfold Qle in *. cbn [Qnum Qden] in *. lia. }
    unfold round64 at 1. rewrite E. apply round64_nonneg.
    eapply Qle_trans; eassumption.
Qed.

Lemma format_2f_mono x y : (x <= y)%Q -> format_2f x <= format_2f y.
Proof.
  intros H. unfold format_2f. apply rne_mono; try lia.
  unfold Qle in H. lia.
Qed.

Lemma py_int_nonneg x : (0 <= x)%Q -> 0 <= py_int x.
Proof.
  intros H. change 0 with (py_int 0) at 1. apply py_int_mono; [apply Qle_refl | exact H].
Qed.

(** A number [m * 2^e] with [m] below [2^53] is a double: rounding
    leaves it as it is. *)
Lemma round64_exact x m e :
  0 < m < 2 ^ 53 -> (x == inject_Z m * p2 e)%Q -> (round64 x == x)%Q.
Proof.
  intros Hm Hx.
  assert (Hxp : (0 < x)%Q).
  { rewrite Hx. apply Qmult_lt_0_compat; [|apply p2_pos].
    change 0%Q with (inject_Z 0). rewrite <- Zlt_Qlt. lia. }
  set (k := 52 - Z.log2 m).
  pose proof (Z.log2_spec m ltac:(lia)) as [Hl1 Hl2].
  assert (Hl3 : Z.log2 m < 53) by (apply Z.log2_lt_pow2; lia).
  pose proof (Z.log2_nonneg m) as Hl0.
  assert (Hk : 0 <= k) by (unfold k; lia).
  set (m' := m * 2 ^ k).
  assert (Hm' : 2 ^ 52 <= m' < 2 ^ 53).
  { unfold m'.
    replace (2 ^ 52) with (2 ^ Z.log2 m * 2 ^ k)
      by (rewrite <- Z.pow_add_r by lia; f_equal; unfold k; lia).
    replace (2 ^ 53) with (2 ^ Z.succ (Z.log2 m) * 2 ^ k)
      by (rewrite <- Z.pow_add_r by lia; f_equal; unfold k; lia).
    assert (0 < 2 ^ k) by (apply Z.pow_pos_nonneg; lia).
    split; [apply Z.mul_le_mono_nonneg_r | apply Z.mul_lt_mono_pos_r]; lia. }
  set (e' := e - k).
  assert (Hx' : (x == inject_Z m' * p2 e')%Q).
  { rewrite Hx. unfold m', e'. rewrite inject_Z_mult, p2_inject by lia.
    unfold Z.sub. rewrite p2_add.
    rewrite <- Qmult_assoc, (Qmult_assoc (p2 k)), (Qmult_comm (p2 k) (p2 e)).
    rewrite <- (Qmult_assoc (p2 e)), p2_cancel. ring. }
  destruct (round64_of_pos x Hxp) as (n & Ex & ->).
  rewrite round_pos_value.
  destruct (ulp_exp_bounds n (Qden x)) as [Hlo Hhi].
  rewrite <- Ex in *.
  set (u := ulp_exp n (Qden x)) in *.
  assert (B1 : (p2 (e' + 52) <= x)%Q).
  { rewrite Hx', p2_add, (Qmult_comm (p2 e')).
    apply Qmult_le_compat_r; [|apply Qlt_le_weak, p2_pos].
    rewrite <- p2_inject by lia. rewrite <- Zle_Qle. lia. }
  assert (B2 : (x < p2 (e' + 53))%Q).
  { rewrite Hx', p2_add, (Qmult_comm (p2 e')).
    apply Qmult_lt_compat_r; [apply p2_pos|].
    rewrite <- p2_inject by lia. rewrite <- Zlt_Qlt. lia. }
  assert (U : u = e').
  { assert (u + 52 < e' + 53)
      by (apply p2_lt_inv; eapply Qle_lt_trans; eassumption).
    assert (e' + 52 < u + 53)
      by (apply p2_lt_inv; eapply Qle_lt_trans; eassumption).
    lia. }
  rewrite U.
  assert (N : nearest (x * p2 (- e')) = m').
  { rewrite <- (nearest_inject_Z m'). apply nearest_Qeq.
    rewrite Hx', <- Qmult_assoc, p2_cancel. ring. }
  rewrite N. symmetry. exact Hx'.
Qed.

Lemma int_truediv_exact size k :
  0 <= size < 2 ^ 53 -> 0 <= k ->
  (int_truediv size (2 ^ k) == inject_Z size / inject_Z (2 ^ k))%Q.
Proof.
  intros Hs Hk. unfold int_truediv.
  assert (Hp : 0 < 2 ^ k) by (apply Z.pow_pos_nonneg; lia).
  assert (V : (size # Z.to_pos (2 ^ k) == inject_Z size / inject_Z (2 ^ k))%Q).
  { rewrite Qmake_Qdiv, Z2Pos.id by exact Hp. reflexivity. }
  destruct (Z.eq_dec size 0) as [->|Hne].
  - unfold round64. cbn [Qnum]. unfold Qdiv. rewrite Qmult_0_l. reflexivity.
  - rewrite <- V. apply (round64_exact _ size (- k)); [lia|].
    rewrite V, p2_opp, <- p2_inject by lia. reflexivity.
Qed.

(* ------------------------------------------------------------------ *)
(** ** The sizes *)

(** X10.  [get_file_size] is exact for every file below [2^53] bytes: the
    two numbers it gives are the byte count over [2^20] and over [2^30]
    with no rounding error, so the first is 1024 times the second. *)
Theorem get_file_size_exact os file_path size :
  os_path_getsize os file_path = Some size ->
  (size < 2 ^ 53)%N ->
  exists size_mb size_gb,
    get_file_size os file_path = (Some size_mb, Some size_gb) /\
    (size_mb == inject_Z (Z.of_N size) / inject_Z (2 ^ 20))%Q /\
    (size_gb == inject_Z (Z.of_N size) / inject_Z (2 ^ 30))%Q /\
    (size_mb == 1024 * size_gb)%Q.
Proof.
  intros E Hs. unfold get_file_size. rewrite E.
  assert (Hz : 0 <= Z.of_N size < 2 ^ 53) by lia.
  pose proof (int_truediv_exact (Z.of_N size) 20 Hz ltac:(lia)) as H1.
  pose proof (int_truediv_exact (Z.of_N size) 30 Hz ltac:(lia)) as H2.
  change (2 ^ 20) with (1024 ^ 2) in H1 at 1.
  change (2 ^ 30) with (1024 ^ 3) in H2 at 1.
  eexists _, _. split; [reflexivity|]. split; [exact H1|]. split; [exact H2|].
  rewrite H1, H2. change (2 ^ 20) with 1048576. change (2 ^ 30) with 1073741824.
  field.
Qed.

(** The 2 GiB file of [three_files]. *)
Lemma get_file_size_exact_witness :
  exists size_mb size_gb,
    get_file_size three_files "/r/big.mp4" = (Some size_mb, Some size_gb) /\
    (size_mb == inject_Z (Z.of_N 2147483648) / inject_Z (2 ^ 20))%Q /\
    (size_gb == inject_Z (Z.of_N 2147483648) / inject_Z (2 ^ 30))%Q /\
    (size_mb == 1024 * size_gb)%Q.
Proof.
  apply (get_file_size_exact three_files "/r/big.mp4" 2147483648%N).
  - reflexivity.
  - reflexivity.
Defined.

(** X11.  Sizes keep their order through the two roundings: of two byte
    counts, the larger one has the larger (or the same) quotient, the
    larger (or the same) printed text, and passes the threshold when the
    smaller one does. *)
Theorem sizes_keep_their_order (s1 s2 : N) (unit : Z) (T : Q) :
  (s1 <= s2)%N -> 0 < unit ->
  (int_truediv (Z.of_N s1) unit <= int_truediv (Z.of_N s2) unit)%Q /\
  format_2f (int_truediv (Z.of_N s1) unit) <= format_2f (int_truediv (Z.of_N s2) unit) /\
  (float_gt (int_truediv (Z.of_N s1) unit) T = true ->
   float_gt (int_truediv (Z.of_N s2) unit) T = true).
Proof.
  intros Hle Hu.
  assert (M : (int_truediv (Z.of_N s1) unit <= int_truediv (Z.of_N s2) unit)%Q).
  { unfold int_truediv. apply round64_mono; unfold Qle; cbn [Qnum Qden]; nia. }
  split; [exact M|]. split; [now apply format_2f_mono|].
  rewrite !float_gt_spec. intros H. eapply Qlt_le_trans; eassumption.
Qed.

(** Half a GiB and a byte, and 2 GiB, against the threshold 0.5. *)
Lemma sizes_keep_their_order_witness :
  (int_truediv (Z.of_N 536870913) (1024 ^ 3)
   <= int_truediv (Z.of_N 2147483648) (1024 ^ 3))%Q /\
  format_2f (int_truediv (Z.of_N 536870913) (1024 ^ 3))
  <= format_2f (int_truediv (Z.of_N 2147483648) (1024 ^ 3)) /\
  (float_gt (int_truediv (Z.of_N 536870913) (1024 ^ 3)) (1 # 2) = true ->
   float_gt (int_truediv (Z.of_N 2147483648) (1024 ^ 3)) (1 # 2) = true).
Proof.
  apply (sizes_keep_their_order 536870913%N 2147483648%N (1024 ^ 3) (1 # 2)).
  - vm_compute. discriminate.
  - reflexivity.
Defined.

(* ------------------------------------------------------------------ *)
(** ** Percentages and remaining time *)

Lemma progress_percent_range i total :
  (i < total)%nat -> 0 <= progress_percent i total <= 100.
Proof.
  intros Hi. split.
  - unfold progress_percent. apply py_int_nonneg.
    unfold float_mul. apply round64_nonneg.
    apply Qmult_le_0_compat.
    + unfold int_truediv. apply round64_nonneg.
      unfold Qle. cbn [Qnum Qden]. lia.
    + rewrite float_100. discriminate.
  - rewrite <- (progress_percent_last total) by lia.
    apply progress_percent_mono; lia.
Qed.

Lemma emitted_percents_range cs i body :
  (i <= List.length cs)%nat -> emitted_upto cs i body ->
  Forall (fun v => 0 <= v <= 100) (percents body).
Proof.
  intros Hi (_ & -> & _). apply Forall_forall. intros v Hv.
  apply in_map_iff in Hv. destruct Hv as (k & <- & Hk).
  apply in_seq in Hk. apply progress_percent_range. lia.
Qed.

(** X12.  Every percentage that a scan sends lies between 0 and 100, so the
    progress bar (range 0 to 100) accepts each of them. *)
Theorem percents_in_range os self ticks st out :
  exec os ticks (start os self) = (st, out) ->
  Forall (fun v => 0 <= v <= 100) (percents out).
Proof.
  intros He. apply scan_inv_start in He. destruct He as [_ H]. simpl in H.
  set (cs := candidates os self) in *.
  destruct (pc (snd st)) as [p | i todo | i c rest |].
  - destruct H as (-> & _). constructor.
  - destruct H as (_ & _ & _ & Hi & _ & Hem).
    now apply (emitted_percents_range cs i).
  - destruct H as (_ & Hs & _ & Hem).
    apply (emitted_percents_range cs i); [|exact Hem].
    destruct (Nat.le_gt_cases i (List.length cs)) as [L|L]; [exact L|].
    rewrite skipn_all2 in Hs by lia. discriminate.
  - destruct H as [[_ ->]|[[_ ->]|[[_ (i & body & Hi & Hem & ->)]|[Hne (body & Hem & ->)]]]].
    + constructor.
    + simpl. repeat constructor; lia.
    + rewrite percents_app. simpl. rewrite app_nil_r.
      apply (emitted_percents_range cs i); [lia | exact Hem].
    + rewrite percents_app. simpl. rewrite app_nil_r.
      apply (emitted_percents_range cs (List.length cs)); [lia | exact Hem].
Qed.

(** The completed scan of [three_files]. *)
Lemma percents_in_range_witness :
  Forall (fun v => 0 <= v <= 100)
         (percents (snd (exec three_files (repeat (step 0) 10)
                              (start three_files half_scan)))).
Proof.
  apply (percents_in_range three_files half_scan (repeat (step 0) 10)
           (fst (exec three_files (repeat (step 0) 10) (start three_files half_scan)))).
  vm_compute. reflexivity.
Defined.

(** X14.  The remaining time shown is never negative when the clock has not
    gone back since the second loop began, and it is 0 at the last file of
    the scan. *)
Theorem remaining_seconds_sound start_time now i total :
  (i < total)%nat ->
  ((start_time <= now)%Q ->
   0 <= remaining_seconds (float_sub now start_time) i total) /\
  remaining_seconds (float_sub now start_time) (total - 1) total = 0.
Proof.
  intros Hi. split.
  - intros Hc. unfold remaining_seconds. apply py_int_nonneg.
    unfold float_mul. apply round64_nonneg.
    apply Qmult_le_0_compat.
    + unfold float_div. apply round64_nonneg.
      apply Qle_shift_div_l.
      * unfold float_of_int. apply round64_pos.
        change 0%Q with (inject_Z 0). rewrite <- Zlt_Qlt. lia.
      * rewrite Qmult_0_l. unfold float_sub. apply round64_nonneg.
        unfold Qminus. rewrite <- (Qplus_opp_r start_time).
        apply Qplus_le_l. exact Hc.
    + unfold float_of_int. apply round64_nonneg.
      change 0%Q with (inject_Z 0). rewrite <- Zle_Qle. lia.
  - unfold remaining_seconds.
    replace (Z.of_nat total - Z.of_nat (total - 1) - 1) with 0 by lia.
    unfold float_mul, float_of_int at 2.
    change (round64 (inject_Z 0)) with 0%Q.
    set (q := float_div _ _).
    unfold round64. replace (Qnum (q * 0)) with 0
      by (unfold Qmult; cbn [Qnum]; lia).
    reflexivity.
Qed.

(** Seven seconds into a scan of four files. *)
Lemma remaining_seconds_sound_witness :
  0 <= remaining_seconds (float_sub 10 3) 1 4 /\
  remaining_seconds (float_sub 10 3) (4 - 1) 4 = 0.
Proof.
  destruct (remaining_seconds_sound 3 10 1 4) as [A B].
  - lia.
  - split; [apply A; discriminate | exact B].
Defined.

(* ------------------------------------------------------------------ *)
(** ** The extension test *)

Lemma length_append s t :
  String.length (s ++ t)%string = (String.length s + String.length t)%nat.
Proof. induction s as [|c s IH]; simpl; [reflexivity | now rewrite IH]. Qed.

Lemma substring_all s : substring 0 (String.length s) s = s.
Proof. induction s as [|c s IH]; simpl; [reflexivity | now rewrite IH]. Qed.

Lemma substring_append_r pre suf :
  substring (String.length pre) (String.length suf) (pre ++ suf)%string = suf.
Proof. induction pre as [|c pre IH]; simpl; [apply substring_all | exact IH]. Qed.

Lemma substring_cut s : forall a b,
  (a + b)%nat = String.length s ->
  s = (substring 0 a s ++ substring a b s)%string.
Proof.
  induction s as [|c s IH]; intros a b H.
  - destruct a, b; try discriminate. reflexivity.
  - destruct a as [|a].
    + cbn [Nat.add] in H. subst b. rewrite substring_all. reflexivity.
    + simpl in H. cbn [substring append]. f_equal. apply IH. lia.
Qed.

(** [s.endswith(suffix)] holds exactly when [s] is some text followed by
    [suffix]. *)
Lemma endswith_spec s suffix :
  endswith s suffix = true <-> exists pre, s = (pre ++ suffix)%string.
Proof.
  unfold endswith. rewrite andb_true_iff, Nat.leb_le, String.eqb_eq. split.
  - intros [Hle Hs].
    exists (substring 0 (String.length s - String.length suffix) s).
    rewrite <- Hs at 2. apply substring_cut. lia.
  - intros (pre & ->). rewrite length_append. split; [lia|].
    replace (String.length pre + String.length suffix - String.length suffix)%nat
      with (String.length pre) by lia.
    apply substring_append_r.
Qed.

Lemma lower_append s t : lower (s ++ t) = (lower s ++ lower t)%string.
Proof. induction s as [|c s IH]; simpl; [reflexivity | now rewrite IH]. Qed.

(** X15.  With a filter, a file name passes the extension test exactly when
    its lowercase form is some text followed by one of the suffixes of the
    filter: the test looks at the end of the name only, and a name that is
    a suffix of the filter, with nothing before it, passes too. *)
Theorem extension_test_is_a_suffix_test self filename :
  extensions self <> [] ->
  (extension_ok self filename = true <->
   exists ext pre, In ext (extensions self) /\
                   lower filename = (pre ++ ext)%string).
Proof.
  intros Hne. unfold extension_ok.
  destruct (extensions self) as [|e es] eqn:E; [now elim Hne|].
  rewrite existsb_exists. split.
  - intros (ext & Hin & H). apply endswith_spec in H. destruct H as (pre & H).
    now exists ext, pre.
  - intros (ext & pre & Hin & H). exists ext. split; [exact Hin|].
    apply endswith_spec. now exists pre.
Qed.

(** The filter [.MP4, .zip] and the name [Movie.Mp4]. *)
Lemma extension_test_is_a_suffix_test_witness :
  let self := __init__ "/r" 1 [".MP4"; " .zip "] in
  extension_ok self "Movie.Mp4" = true <->
  exists ext pre, In ext (extensions self) /\
                  lower "Movie.Mp4" = (pre ++ ext)%string.
Proof.
  intros self.
  apply (extension_test_is_a_suffix_test self "Movie.Mp4").
  vm_compute. discriminate.
Defined.

Lemma init_extensions_lower root T exts :
  extensions (__init__ root T (map lower exts)) = extensions (__init__ root T exts).
Proof.
  cbn [extensions __init__].
  induction exts as [|e exts IH]; [reflexivity|].
  cbn [map filter]. rewrite strip_lower, truthy_lower.
  destruct (truthy (strip e)); [|exact IH].
  cbn [map]. rewrite strip_lower, lower_idem. f_equal. exact IH.
Qed.

Lemma extension_ok_lower self f1 f2 :
  lower f1 = lower f2 -> extension_ok self f1 = extension_ok self f2.
Proof. intros H. unfold extension_ok. now rewrite H. Qed.

(** X16.  The extension filter ignores case on both sides: a request whose
    filter entries are given in another case is the same request, and two
    file names that differ in case only get the same answer.  The answer
    for a name and for the name with a further text in front of it is the
    same or better. *)
Theorem extension_filter_ignores_case root T exts f1 f2 pre :
  lower f1 = lower f2 ->
  __init__ root T (map lower exts) = __init__ root T exts /\
  extension_ok (__init__ root T exts) f1 = extension_ok (__init__ root T exts) f2 /\
  (extension_ok (__init__ root T exts) f1 = true ->
   extension_ok (__init__ root T exts) (pre ++ f1) = true).
Proof.
  intros H. split; [|split].
  - pose proof (init_extensions_lower root T exts) as E.
    unfold __init__ in *. cbn [extensions] in E. now rewrite E.
  - now apply extension_ok_lower.
  - set (self := __init__ root T exts).
    destruct (extensions self) as [|e es] eqn:E.
    + intros _. unfold extension_ok. now rewrite E.
    + unfold extension_ok. rewrite E, !existsb_exists.
      intros (ext & Hin & Hp). exists ext. split; [exact Hin|].
      apply endswith_spec in Hp. destruct Hp as (p & Hp).
      apply endswith_spec. exists (lower pre ++ p)%string.
      rewrite lower_append, Hp.
      clear. induction (lower pre) as [|c s IH]; simpl; [reflexivity | now rewrite IH].
Qed.

(** The filter [.MP4] and the names [A.mp4], [a.MP4]. *)
Lemma extension_filter_ignores_case_witness :
  __init__ "/r" 1 (map lower [".MP4"]) = __init__ "/r" 1 [".MP4"] /\
  extension_ok (__init__ "/r" 1 [".MP4"]) "A.mp4"
  = extension_ok (__init__ "/r" 1 [".MP4"]) "a.MP4" /\
  (extension_ok (__init__ "/r" 1 [".MP4"]) "A.mp4" = true ->
   extension_ok (__init__ "/r" 1 [".MP4"]) ("x/" ++ "A.mp4") = true).
Proof.
  apply (extension_filter_ignores_case "/r" 1 [".MP4"] "A.mp4" "a.MP4" "x/").
  reflexivity.
Defined.

(* ------------------------------------------------------------------ *)
(** ** The fields of the window *)

Lemma split_nonempty sep s : split sep s <> [].
Proof.
  induction s as [|c s IH]; simpl; [discriminate|].
  destruct (Ascii.eqb c sep); [discriminate|].
  destruct (split sep s); discriminate.
Qed.

Lemma blank_field_split s :
  blank_field s = true -> forallb all_space (split ","%char s) = true.
Proof.
  induction s as [|c s IH]; [reflexivity|].
  intros H. cbn [blank_field] in H. apply andb_true_iff in H. destruct H as [Hc Hs].
  specialize (IH Hs). cbn [split].
  destruct (Ascii.eqb c ","%char) eqn:Ec; [exact IH|].
  unfold blank_or_comma in Hc. rewrite Ec, orb_false_r in Hc.
  destruct (split ","%char s) as [|w ws]; simpl; [now rewrite Hc|].
  simpl in IH. apply andb_true_iff in IH. destruct IH as [Hw Hws].
  now rewrite Hc, Hw, Hws.
Qed.

Lemma init_no_extensions root T exts :
  forallb all_space exts = true -> extensions (__init__ root T exts) = [].
Proof.
  intros H. cbn [extensions __init__].
  induction exts as [|e exts IH]; [reflexivity|].
  cbn [forallb] in H. apply andb_true_iff in H. destruct H as [He Hs].
  cbn [filter]. rewrite (strip_all_space e He). simpl. now apply IH.
Qed.

(** X17.  An extension field of white space and commas only (the empty
    field included) asks for no filter: the thread that [start_scan]
    constructs has no extension, and every file name passes its extension
    test. *)
Theorem blank_extension_field_is_no_filter float folder_path size_input ext_input self :
  blank_field ext_input = true ->
  start_scan float folder_path size_input ext_input = inr self ->
  extensions self = [] /\ forall filename, extension_ok self filename = true.
Proof.
  intros Hb Hs. unfold start_scan in Hs.
  destruct folder_path as [folder|]; [|discriminate].
  destruct (negb (truthy folder)); [discriminate|].
  destruct (if truthy size_input then float size_input else Some float_0_1)
    as [threshold|]; [|discriminate].
  inversion Hs; subst self; clear Hs.
  assert (E : extensions (__init__ folder threshold (split ","%char ext_input)) = []).
  { apply init_no_extensions. now apply blank_field_split. }
  split; [exact E|]. intros filename. unfold extension_ok. now rewrite E.
Qed.

(** The field of a space, a comma, a space and a comma. *)
Lemma blank_extension_field_is_no_filter_witness :
  let self := __init__ "/r" 2 (split ","%char " , ,") in
  extensions self = [] /\ forall filename, extension_ok self filename = true.
Proof.
  intros self.
  apply (blank_extension_field_is_no_filter (fun _ => Some 2%Q) (Some "/r") "2" " , ,").
  - reflexivity.
  - reflexivity.
Defined.

(** X18.  What [start_scan] does with the size field: a text that is not a
    number starts no scan and gives the status [Invalid size value.]; a
    number other than zero is the threshold of the scan; zero is replaced
    by 1.0 in the constructor.  With no folder chosen no scan starts,
    whatever the fields hold. *)
Theorem start_scan_threshold float folder size_input ext_input :
  truthy folder = true -> truthy size_input = true ->
  match float size_input with
  | None =>
      start_scan float (Some folder) size_input ext_input = inl "Invalid size value."
  | Some T =>
      exists self,
        start_scan float (Some folder) size_input ext_input = inr self /\
        root_directory self = folder /\
        cancel_requested self = false /\ paused self = false /\
        ((T == 0)%Q -> threshold_gb self = float_1_0) /\
        (~ (T == 0)%Q -> threshold_gb self = T)
  end /\
  start_scan float None size_input ext_input = inl "Please select a folder." /\
  start_scan float (Some "") size_input ext_input = inl "Please select a folder.".
Proof.
  intros Hf Hs. split; [|split; reflexivity].
  unfold start_scan. rewrite Hf, Hs. cbn [negb].
  destruct (float size_input) as [T|]; [|reflexivity].
  eexists. split; [reflexivity|]. cbn [root_directory cancel_requested paused threshold_gb __init__].
  repeat split.
  - intros E. unfold float_truthy. apply Qeq_bool_iff in E. now rewrite E.
  - intros E. unfold float_truthy. destruct (Qeq_bool T 0) eqn:B; [|reflexivity].
    apply Qeq_bool_iff in B. contradiction.
Qed.

(** The size field [0]: the scan starts with threshold 1.0. *)
Lemma start_scan_threshold_witness :
  exists self,
    start_scan (fun _ => Some 0%Q) (Some "/r") "0" ".mp4" = inr self /\
    threshold_gb self = float_1_0.
Proof.
  destruct (start_scan_threshold (fun _ => Some 0%Q) "/r" "0" ".mp4" eq_refl eq_refl)
    as [(self & E & _ & _ & _ & Z & _) _].
  exists self. split; [exact E | apply Z; reflexivity].
Defined.

(* ------------------------------------------------------------------ *)
(** ** The items of the tree *)

Lemma sized_addChild store h c k : sized (addChild h c store) k = sized store k.
Proof.
  unfold sized. destruct (Nat.eq_dec k h) as [->|Hne].
  - destruct (nth_error store h) as [it|] eqn:E.
    + now rewrite (nth_error_addChild_eq _ _ c _ E).
    + assert (N : nth_error (addChild h c store) h = None).
      { apply nth_error_None. rewrite length_addChild. now apply nth_error_None. }
      now rewrite N.
  - now rewrite nth_error_addChild_ne.
Qed.

Lemma sized_app store extra k :
  sized store k = true -> sized (store ++ extra) k = true.
Proof.
  unfold sized. destruct (nth_error store k) as [it|] eqn:E; [|discriminate].
  rewrite nth_error_app1 by (eapply nth_error_lt; exact E). now rewrite E.
Qed.

Lemma file_children_grow store extra h n :
  file_children store ->
  Forall (fun it => children it = []) extra ->
  sized (store ++ extra) n = true ->
  file_children (addChild h n (store ++ extra)).
Proof.
  intros Hs He Hn.
  assert (Base : forall k it0,
             nth_error (store ++ extra) k = Some it0 ->
             forallb (sized (addChild h n (store ++ extra))) (children it0) = true).
  { intros k it0 Hk. destruct (Nat.lt_ge_cases k (List.length store)) as [L|L].
    - rewrite nth_error_app1 in Hk by exact L.
      apply forallb_forall. intros c Hc. rewrite sized_addChild. apply sized_app.
      pose proof (Hs k it0 Hk) as H. rewrite forallb_forall in H. now apply H.
    - rewrite nth_error_app2 in Hk by exact L. apply nth_error_In in Hk.
      rewrite Forall_forall in He. now rewrite (He _ Hk). }
  intros k it Hk. destruct (Nat.eq_dec k h) as [->|Hne].
  - destruct (nth_error (store ++ extra) h) as [it0|] eqn:E.
    + rewrite (nth_error_addChild_eq _ _ n _ E) in Hk. inversion Hk; subst it.
      cbn [children]. rewrite forallb_app, (Base h it0 E). cbn [forallb].
      now rewrite sized_addChild, Hn.
    + apply nth_error_lt in Hk. rewrite length_addChild in Hk.
      apply nth_error_None in E. lia.
  - rewrite nth_error_addChild_ne in Hk by exact Hne. now apply (Base k).
Qed.

Lemma sized_last store it mb gb :
  text2 it = Some mb -> text3 it = Some gb ->
  sized (store ++ [it]) (List.length store) = true.
Proof.
  intros H2 H3. unfold sized.
  rewrite nth_error_app2, Nat.sub_diag by lia. cbn [nth_error].
  now rewrite H2, H3.
Qed.

Lemma file_children_add_row ui r :
  file_children (items ui) -> file_children (items (add_row ui r)).
Proof.
  intros H. destruct r as [[[filename filepath] size_mb] size_gb]. unfold add_row.
  destruct (dict_get (dirname filepath) (folder_items ui)) as [h|]; cbn [items].
  - apply file_children_grow; [exact H | repeat constructor |].
    now apply (sized_last _ _ size_mb size_gb).
  - rewrite <- app_assoc. apply file_children_grow; [exact H | repeat constructor |].
    rewrite app_assoc. now apply (sized_last _ _ size_mb size_gb).
Qed.

Lemma file_children_fold rows : forall ui,
  file_children (items ui) -> file_children (items (fold_left add_row rows ui)).
Proof.
  induction rows as [|r rows IH]; intros ui H; [exact H|].
  apply IH. now apply file_children_add_row.
Qed.

Lemma file_children_cleared : file_children (items cleared).
Proof. intros [|k] it H; discriminate. Qed.

(** The built tree holds the groups of the rows, in the order of the
    sort. *)
Lemma tree_of_rows srt rows :
  rearranges srt ->
  map fst (folder_items (fold_left add_row rows cleared))
  = distinct (map folder_of rows) /\
  same_groups (tree srt (fold_left add_row rows cleared)) (group_by_folder rows).
Proof.
  intros Hsrt. destruct (groups_as_added rows) as (Ha & _ & Hk).
  cbv zeta in Ha, Hk. split; [exact Hk|].
  rewrite <- Ha. now apply tree_same_groups.
Qed.

Lemma flat_map_perm_pointwise {A B} (f g : A -> list B) l :
  (forall x, Permutation (f x) (g x)) ->
  Permutation (flat_map f l) (flat_map g l).
Proof.
  intros H. induction l as [|x l IH]; simpl; [constructor|].
  now apply Permutation_app.
Qed.

Lemma concat_groups_of store handles :
  List.concat (map snd (groups_of store handles)) =
  flat_map (fun h => match nth_error store h with
                     | Some it => child_rows store it
                     | None => []
                     end) handles.
Proof.
  unfold groups_of. induction handles as [|h hs IH]; [reflexivity|].
  cbn [flat_map]. rewrite map_app, concat_app, IH. f_equal.
  destruct (nth_error store h); [|reflexivity].
  cbn [map snd List.concat]. apply app_nil_r.
Qed.

Lemma sized_inv store c :
  sized store c = true ->
  exists ch mb gb, nth_error store c = Some ch /\ text2 ch = Some mb /\
                   text3 ch = Some gb /\
                   item_row ch = [(text0 ch, text1 ch, mb, gb)].
Proof.
  unfold sized, item_row. destruct (nth_error store c) as [ch|]; [|discriminate].
  destruct (text2 ch) as [mb|] eqn:E2, (text3 ch) as [gb|] eqn:E3; try discriminate.
  intros _. exists ch, mb, gb. now rewrite E2, E3.
Qed.

(* ------------------------------------------------------------------ *)
(** ** [export_csv] *)

Lemma export_children store kids :
  forallb (sized store) kids = true ->
  flat_map (fun c => match nth_error store c with
                     | Some child => [item_cells child]
                     | None => []
                     end) kids =
  map row_cells (flat_map (fun c => match nth_error store c with
                                    | Some ch => item_row ch
                                    | None => []
                                    end) kids).
Proof.
  induction kids as [|c kids IH]; [reflexivity|].
  cbn [forallb flat_map]. intros H. apply andb_true_iff in H. destruct H as [Hc Hk].
  rewrite map_app, (IH Hk). f_equal.
  destruct (sized_inv _ _ Hc) as (ch & mb & gb & -> & H2 & H3 & ->).
  unfold item_cells. now rewrite H2, H3.
Qed.

Lemma export_lines_as_added ui :
  file_children (items ui) ->
  flat_map (fun h =>
              match nth_error (items ui) h with
              | Some folder_item =>
                  flat_map (fun c =>
                              match nth_error (items ui) c with
                              | Some child => [item_cells child]
                              | None => []
                              end) (children folder_item)
              | None => []
              end) (table ui)
  = map row_cells (List.concat (map snd (as_added ui))).
Proof.
  intros Hf. unfold as_added. rewrite concat_groups_of.
  induction (table ui) as [|h hs IH]; [reflexivity|].
  cbn [flat_map]. rewrite map_app, IH. f_equal.
  destruct (nth_error (items ui) h) as [it|] eqn:E; [|reflexivity].
  unfold child_rows. apply export_children. exact (Hf h it E).
Qed.

Lemma export_csv_lines srt path ui :
  rearranges srt -> file_children (items ui) -> truthy path = true ->
  exists lines,
    export_csv srt path ui = Some (csv_header :: lines) /\
    Permutation lines (map row_cells (List.concat (map snd (as_added ui)))).
Proof.
  intros Hsrt Hf Hp. unfold export_csv. rewrite Hp. cbn [negb].
  eexists. split; [reflexivity|].
  rewrite <- (export_lines_as_added ui Hf).
  unfold topLevelItem. rewrite (Permutation_flat_map _ (Hsrt (items ui) (table ui))).
  apply flat_map_perm_pointwise. intros h.
  destruct (nth_error (items ui) h) as [it|]; [|constructor].
  unfold child. apply Permutation_flat_map, Hsrt.
Qed.

(** X19.  [export_csv] writes the header and then one line for each row of
    the scan, with the four texts of the row unchanged: no row is lost,
    none is written twice, and nothing else is written (the lines for the
    folders themselves are not).  This holds whatever the sort of the
    tree, which decides the order of the lines.  With no path from the
    dialog nothing is written. *)
Theorem export_csv_writes_the_rows srt rows path :
  rearranges srt ->
  truthy path = true ->
  let ui := fold_left add_row rows cleared in
  (exists lines,
     export_csv srt path ui = Some (csv_header :: lines) /\
     Permutation lines (map row_cells rows) /\
     List.length lines = List.length rows) /\
  export_csv srt "" ui = None.
Proof.
  intros Hsrt Hp ui. split; [|reflexivity].
  destruct (export_csv_lines srt path ui Hsrt
              (file_children_fold rows cleared file_children_cleared) Hp)
    as (lines & E & P).
  assert (P' : Permutation lines (map row_cells rows)).
  { rewrite P. apply Permutation_map. unfold ui.
    destruct (groups_as_added rows) as (Ha & _ & _). cbv zeta in Ha. rewrite Ha.
    apply group_by_folder_rows. }
  exists lines. split; [exact E|]. split; [exact P'|].
  rewrite (Permutation_length P'). apply length_map.
Qed.

(** The three rows [x], [y], [z], the tree sorted by name, descending. *)
Lemma export_csv_writes_the_rows_witness :
  let ui := fold_left add_row [x_row; y_row; z_row] cleared in
  (exists lines,
     export_csv (by_name true) "results.csv" ui = Some (csv_header :: lines) /\
     Permutation lines (map row_cells [x_row; y_row; z_row]) /\
     List.length lines = List.length [x_row; y_row; z_row]) /\
  export_csv (by_name true) "" ui = None.
Proof.
  apply (export_csv_writes_the_rows (by_name true) [x_row; y_row; z_row] "results.csv").
  - apply by_name_rearranges.
  - reflexivity.
Defined.

(* ------------------------------------------------------------------ *)
(** ** The chart *)

Lemma chart_children store kids :
  forallb (sized store) kids = true ->
  flat_map (fun c => match nth_error store c with
                     | Some child =>
                         match text3 child with
                         | Some gb => [(float_of_fixed2 gb, text0 child)]
                         | None => []
                         end
                     | None => []
                     end) kids =
  map point_of (flat_map (fun c => match nth_error store c with
                                   | Some ch => item_row ch
                                   | None => []
                                   end) kids).
Proof.
  induction kids as [|c kids IH]; [reflexivity|].
  cbn [forallb flat_map]. intros H. apply andb_true_iff in H. destruct H as [Hc Hk].
  rewrite map_app, (IH Hk). f_equal.
  destruct (sized_inv _ _ Hc) as (ch & mb & gb & -> & H2 & H3 & ->).
  now rewrite H3.
Qed.

Lemma chart_points_as_added ui :
  file_children (items ui) ->
  flat_map (fun entry : string * nat =>
              match nth_error (items ui) (snd entry) with
              | Some item =>
                  flat_map (fun c =>
                              match nth_error (items ui) c with
                              | Some child =>
                                  match text3 child with
                                  | Some gb => [(float_of_fixed2 gb, text0 child)]
                                  | None => []
                                  end
                              | None => []
                              end) (children item)
              | None => []
              end) (folder_items ui)
  = map point_of
        (List.concat (map snd (groups_of (items ui) (map snd (folder_items ui))))).
Proof.
  intros Hf. rewrite concat_groups_of.
  induction (folder_items ui) as [|[f h] es IH]; [reflexivity|].
  cbn [flat_map map snd]. rewrite map_app, IH. f_equal.
  destruct (nth_error (items ui) h) as [it|] eqn:E; [|reflexivity].
  unfold child_rows. apply chart_children. exact (Hf h it E).
Qed.

(** The chart meets every row once, whatever the sort of the tree. *)
Lemma chart_points_perm srt rows :
  rearranges srt ->
  Permutation (chart_points srt (fold_left add_row rows cleared))
              (map point_of rows).
Proof.
  intros Hsrt. set (ui := fold_left add_row rows cleared).
  assert (Hf : file_children (items ui))
    by apply file_children_fold, file_children_cleared.
  destruct (groups_as_added rows) as (_ & Hi & _). cbv zeta in Hi. fold ui in Hi.
  transitivity (map point_of (List.concat (map snd (group_by_folder rows))));
    [| apply Permutation_map, group_by_folder_rows].
  rewrite <- Hi, <- (chart_points_as_added ui Hf). unfold chart_points.
  apply flat_map_perm_pointwise. intros [f h]. cbn [snd].
  destruct (nth_error (items ui) h) as [it|]; [|constructor].
  unfold child. apply Permutation_flat_map, Hsrt.
Qed.

Lemma sorted_reverse_perm data : Permutation data (sorted_reverse data).
Proof.
  unfold sorted_reverse. rewrite <- Permutation_rev, <- sorted_perm.
  apply Permutation_rev.
Qed.

Lemma sorted_reverse_sorted data :
  StronglySorted ranks_before (sorted_reverse data).
Proof.
  unfold sorted_reverse.
  apply StronglySorted_weaken with (R := fun a b => tuple_le b a).
  - apply tuple_le_ranks.
  - apply StronglySorted_rev, sorted_sorted.
Qed.

Lemma ranked_sizes_sorted l :
  StronglySorted ranks_before l ->
  StronglySorted (fun a b => (b <= a)%Q) (map fst l).
Proof.
  induction 1 as [|a l Hl IH Ha]; simpl; constructor; [exact IH|].
  apply Forall_forall. intros q Hq. apply in_map_iff in Hq.
  destruct Hq as (b & <- & Hb). rewrite Forall_forall in Ha.
  exact (proj1 (Ha b Hb)).
Qed.

(** X20.  The chart has one bar for each row of the scan: its sizes and
    labels, taken together, are a rearrangement of the numbers read from
    the size texts of the rows and of their file names, the largest size
    first, whatever the sort of the tree. *)
Theorem chart_has_one_bar_per_row srt rows :
  rearranges srt ->
  rows <> [] ->
  exists sizes labels,
    render_funnel_chart srt (fold_left add_row rows cleared) = Funnel sizes labels /\
    Permutation (combine sizes labels) (map point_of rows) /\
    List.length sizes = List.length rows /\
    List.length labels = List.length rows /\
    StronglySorted (fun a b => (b <= a)%Q) sizes.
Proof.
  intros Hsrt Hne. unfold render_funnel_chart. rewrite combine_fst_snd.
  set (data := chart_points srt (fold_left add_row rows cleared)).
  assert (Hperm : Permutation data (map point_of rows))
    by (unfold data; now apply chart_points_perm).
  assert (Hd : map fst data <> []).
  { intros E. apply map_eq_nil in E. rewrite E in Hperm.
    apply Permutation_nil in Hperm. apply map_eq_nil in Hperm. contradiction. }
  destruct (map fst data) as [|q0 l0] eqn:E; [now elim Hd|]. clear E Hd.
  exists (map fst (sorted_reverse data)), (map snd (sorted_reverse data)).
  pose proof (sorted_reverse_perm data) as Hs.
  split; [reflexivity|]. rewrite combine_fst_snd. repeat split.
  - now rewrite <- Hs.
  - rewrite length_map, <- (Permutation_length Hs), (Permutation_length Hperm).
    apply length_map.
  - rewrite length_map, <- (Permutation_length Hs), (Permutation_length Hperm).
    apply length_map.
  - apply ranked_sizes_sorted, sorted_reverse_sorted.
Qed.

(** The three rows of [tie_rows], the tree sorted by name, descending. *)
Lemma chart_has_one_bar_per_row_witness :
  exists sizes labels,
    render_funnel_chart (by_name true) (fold_left add_row tie_rows cleared)
    = Funnel sizes labels /\
    Permutation (combine sizes labels) (map point_of tie_rows) /\
    List.length sizes = List.length tie_rows /\
    List.length labels = List.length tie_rows /\
    StronglySorted (fun a b => (b <= a)%Q) sizes.
Proof.
  apply (chart_has_one_bar_per_row (by_name true) tie_rows).
  - apply by_name_rearranges.
  - discriminate.
Defined.

(** [max] returns an element that no element exceeds. *)
Lemma fold_max_spec l : forall x,
  let m := fold_left (fun m y => if float_gt y m then y else m) l x in
  (m = x \/ In m l) /\ (x <= m)%Q /\ Forall (fun s => (s <= m)%Q) l.
Proof.
  induction l as [|y l IH]; intros x; cbn [fold_left].
  - split; [now left|]. split; [apply Qle_refl | constructor].
  - cbv zeta in IH.
    destruct (float_gt y x) eqn:G.
    + destruct (IH y) as (Hin & Hle & Hall). apply float_gt_spec in G.
      split; [right; destruct Hin as [->|Hin]; [now left | now right]|].
      split; [apply Qlt_le_weak; eapply Qlt_le_trans; eassumption|].
      constructor; assumption.
    + destruct (IH x) as (Hin & Hle & Hall).
      assert (Hy : (y <= x)%Q).
      { apply Qnot_lt_le. intros H. apply float_gt_spec in H. congruence. }
      split; [destruct Hin as [->|Hin]; [now left | right; now right]|].
      split; [exact Hle|]. constructor; [eapply Qle_trans; eassumption | exact Hall].
Qed.

Lemma py_max_spec l m :
  py_max l = Some m -> In m l /\ Forall (fun s => (s <= m)%Q) l.
Proof.
  destruct l as [|x l]; [discriminate|]. cbn [py_max]. intros H. inversion H as [E].
  destruct (fold_max_spec l x) as (Hin & Hle & Hall). cbv zeta in *. split.
  - destruct Hin as [->|Hin]; [now left | now right].
  - constructor; assumption.
Qed.

Lemma widths_of_zero sizes m :
  sizes <> [] -> (m == 0)%Q -> widths_of sizes m = None.
Proof.
  intros Hne E. destruct sizes as [|s sizes]; [now elim Hne|].
  cbn [widths_of]. unfold float_truediv.
  apply Qeq_bool_iff in E. now rewrite E.
Qed.

Lemma widths_of_nonzero sizes m :
  ~ (m == 0)%Q -> widths_of sizes m = Some (map (fun s => float_div s m) sizes).
Proof.
  intros Hm. assert (B : Qeq_bool m 0 = false).
  { destruct (Qeq_bool m 0) eqn:B; [|reflexivity]. apply Qeq_bool_iff in B. contradiction. }
  induction sizes as [|s sizes IH]; [reflexivity|].
  cbn [widths_of map]. unfold float_truediv at 1. now rewrite B, IH.
Qed.

Lemma float_of_fixed2_0 : float_of_fixed2 0 = 0%Q.
Proof. reflexivity. Qed.

(** X21.  When every row of a scan shows 0.00 as its size in GB (small
    files, with a threshold below 0.005), [render_funnel_chart] divides by
    [max(sizes) = 0.0]: it raises [ZeroDivisionError] and draws nothing. *)
Theorem funnel_of_zero_sizes srt rows :
  rearranges srt ->
  rows <> [] -> Forall (fun r => snd r = 0) rows ->
  draw_funnel srt (fold_left add_row rows cleared) = ZeroDivisionError.
Proof.
  intros Hsrt Hne Hz. unfold draw_funnel. rewrite combine_fst_snd.
  set (data := chart_points srt (fold_left add_row rows cleared)).
  assert (Hperm : Permutation data (map point_of rows))
    by (unfold data; now apply chart_points_perm).
  assert (Hzero : forall p, In p (sorted_reverse data) -> fst p = 0%Q).
  { intros p Hp. apply (Permutation_in _ (Permutation_sym (sorted_reverse_perm data))) in Hp.
    apply (Permutation_in _ Hperm) in Hp. apply in_map_iff in Hp.
    destruct Hp as (r & <- & Hr). rewrite Forall_forall in Hz.
    unfold point_of. cbn [fst]. now rewrite (Hz r Hr). }
  assert (Hd : sorted_reverse data <> []).
  { intros E. pose proof (sorted_reverse_perm data) as Hs. rewrite E in Hs.
    apply Permutation_sym, Permutation_nil in Hs. rewrite Hs in Hperm.
    apply Permutation_nil in Hperm. apply map_eq_nil in Hperm. contradiction. }
  assert (Hd' : map fst data <> []).
  { intros E. apply map_eq_nil in E. apply Hd. now rewrite E. }
  destruct (map fst data) as [|q0 l0] eqn:E; [now elim Hd'|]. clear E Hd'.
  destruct (py_max (map fst (sorted_reverse data))) as [m|] eqn:M.
  - destruct (py_max_spec _ _ M) as [Hin _]. apply in_map_iff in Hin.
    destruct Hin as (p & <- & Hp). rewrite (Hzero p Hp).
    rewrite widths_of_zero; [reflexivity | | reflexivity].
    intros E. apply map_eq_nil in E. contradiction.
  - destruct (sorted_reverse data); [now elim Hd | discriminate].
Qed.

(** Two rows of 0.00 GB. *)
Lemma funnel_of_zero_sizes_witness :
  draw_funnel (by_name true) (fold_left add_row small_rows cleared)
  = ZeroDivisionError.
Proof.
  apply (funnel_of_zero_sizes (by_name true) small_rows).
  - apply by_name_rearranges.
  - discriminate.
  - repeat constructor.
Defined.

Lemma float_div_mono m s1 s2 :
  (0 < m)%Q -> (0 <= s1)%Q -> (s1 <= s2)%Q -> (float_div s1 m <= float_div s2 m)%Q.
Proof.
  intros Hm H1 H12. unfold float_div.
  assert (Hi : (0 <= / m)%Q) by (apply Qinv_le_0_compat; now apply Qlt_le_weak).
  apply round64_mono.
  - unfold Qdiv. now apply Qmult_le_0_compat.
  - unfold Qdiv. now apply Qmult_le_compat_r.
Qed.

Lemma float_div_self s m :
  (0 < m)%Q -> (s == m)%Q -> (float_div s m == 1)%Q.
Proof.
  intros Hm E. unfold float_div. rewrite <- round64_1.
  assert (U : (s / m == 1)%Q).
  { rewrite E. apply Qmult_inv_r. intros Z. rewrite Z in Hm. now apply Qlt_irrefl in Hm. }
  apply round64_Qeq_pos; [now rewrite U | exact U].
Qed.

Lemma float_div_range m s :
  (0 < m)%Q -> (0 <= s)%Q -> (s <= m)%Q ->
  (0 <= float_div s m)%Q /\ (float_div s m <= 1)%Q.
Proof.
  intros Hm H0 H1. split.
  - unfold float_div. apply round64_nonneg. unfold Qdiv.
    apply Qmult_le_0_compat; [exact H0|].
    apply Qinv_le_0_compat. now apply Qlt_le_weak.
  - rewrite <- (float_div_self m m Hm (Qeq_refl m)).
    now apply float_div_mono.
Qed.

Lemma float_2 : (float_of_int 2 == 2)%Q.
Proof. vm_compute. reflexivity. Qed.

Lemma round64_half : (round64 (1 # 2) == 1 # 2)%Q.
Proof. vm_compute. reflexivity. Qed.

Lemma left_range w :
  (0 <= w)%Q -> (w <= 1)%Q ->
  (0 <= float_div (float_sub 1 w) (float_of_int 2))%Q /\
  (float_div (float_sub 1 w) (float_of_int 2) <= 1 # 2)%Q.
Proof.
  intros H0 H1.
  assert (A0 : (0 <= float_sub 1 w)%Q).
  { unfold float_sub. apply round64_nonneg. unfold Qminus.
    rewrite <- (Qplus_opp_r w). now apply Qplus_le_l. }
  assert (A1 : (float_sub 1 w <= 1)%Q).
  { unfold float_sub. rewrite <- round64_1 at 2. apply round64_mono.
    - unfold Qminus. rewrite <- (Qplus_opp_r w). now apply Qplus_le_l.
    - unfold Qminus. rewrite <- (Qplus_0_r 1) at 2. apply Qplus_le_r.
      change 0%Q with (- 0)%Q. now apply Qopp_le_compat. }
  unfold float_div at 1 2. split.
  - apply round64_nonneg. rewrite float_2. unfold Qdiv.
    apply Qmult_le_0_compat; [exact A0 | discriminate].
  - rewrite <- round64_half. apply round64_mono.
    + rewrite float_2. unfold Qdiv. apply Qmult_le_0_compat; [exact A0 | discriminate].
    + rewrite float_2. unfold Qdiv.
      setoid_replace (1 # 2)%Q with (1 * / 2)%Q by reflexivity.
      apply Qmult_le_compat_r; [exact A1 | discriminate].
Qed.

Lemma widths_sorted m sizes :
  (0 < m)%Q -> Forall (fun s => (0 <= s)%Q) sizes ->
  StronglySorted (fun a b => (b <= a)%Q) sizes ->
  StronglySorted (fun a b => (b <= a)%Q) (map (fun s => float_div s m) sizes).
Proof.
  intros Hm Hn Hs. induction Hs as [|a l Hl IH Ha]; simpl; constructor.
  - apply IH. now inversion Hn.
  - inversion Hn as [|? ? Ha0 Hl0]; subst.
    apply Forall_forall. intros w Hw. apply in_map_iff in Hw.
    destruct Hw as (s & <- & Hs). rewrite Forall_forall in Ha, Hl0.
    apply float_div_mono; [exact Hm | now apply Hl0 | now apply Ha].
Qed.

(** X22.  When the sizes shown are not negative and one of them is not
    0.00, [render_funnel_chart] draws one bar per row: the widths lie
    between 0 and 1, never grow from one bar to the next, and the first
    bar has the full width 1; every bar starts between 0 and one half. *)
Theorem funnel_bars srt rows :
  rearranges srt ->
  Forall (fun r => 0 <= snd r) rows -> Exists (fun r => 0 < snd r) rows ->
  exists sizes labels width left,
    draw_funnel srt (fold_left add_row rows cleared)
    = bars sizes labels width left /\
    List.length width = List.length rows /\
    List.length left = List.length rows /\
    Forall (fun w => (0 <= w)%Q /\ (w <= 1)%Q) width /\
    StronglySorted (fun a b => (b <= a)%Q) width /\
    (hd 0%Q width == 1)%Q /\
    Forall (fun l => (0 <= l)%Q /\ (l <= 1 # 2)%Q) left.
Proof.
  intros Hsrt Hnn Hex. unfold draw_funnel. rewrite combine_fst_snd.
  set (data := chart_points srt (fold_left add_row rows cleared)).
  assert (Hperm : Permutation data (map point_of rows))
    by (unfold data; now apply chart_points_perm).
  pose proof (sorted_reverse_perm data) as Hs.
  pose proof (sorted_reverse_sorted data) as Hsorted.
  apply ranked_sizes_sorted in Hsorted.
  set (sd := sorted_reverse data) in *.
  assert (Hlen : List.length (map fst sd) = List.length rows).
  { rewrite length_map, <- (Permutation_length Hs), (Permutation_length Hperm).
    apply length_map. }
  assert (Hin : forall s, In s (map fst sd) ->
                          exists r, In r rows /\ s = float_of_fixed2 (snd r)).
  { intros s H. apply in_map_iff in H. destruct H as (p & <- & Hp).
    apply (Permutation_in _ (Permutation_sym Hs)) in Hp.
    apply (Permutation_in _ Hperm) in Hp. apply in_map_iff in Hp.
    destruct Hp as (r & <- & Hr). now exists r. }
  assert (Hnonneg : Forall (fun s => (0 <= s)%Q) (map fst sd)).
  { apply Forall_forall. intros s H. destruct (Hin s H) as (r & Hr & ->).
    unfold float_of_fixed2. apply round64_nonneg.
    rewrite Forall_forall in Hnn. specialize (Hnn r Hr).
    unfold Qle. cbn [Qnum Qden]. lia. }
  assert (Hpos : exists s, In s (map fst sd) /\ (0 < s)%Q).
  { apply Exists_exists in Hex. destruct Hex as (r & Hr & Hp).
    exists (float_of_fixed2 (snd r)). split.
    - apply in_map_iff. exists (point_of r). split; [reflexivity|].
      apply (Permutation_in _ Hs). apply (Permutation_in _ (Permutation_sym Hperm)).
      now apply in_map.
    - unfold float_of_fixed2. apply round64_pos. unfold Qlt. cbn [Qnum Qden]. lia. }
  assert (Hd : map fst data <> []).
  { intros E. apply map_eq_nil in E. rewrite E in Hperm.
    apply Permutation_nil in Hperm. apply map_eq_nil in Hperm.
    rewrite Hperm in Hex. inversion Hex. }
  destruct (map fst data) as [|q0 l0] eqn:E; [now elim Hd|]. clear E Hd q0 l0.
  destruct (py_max (map fst sd)) as [m|] eqn:M.
  2:{ destruct Hpos as (s & Hs' & _). destruct (map fst sd); [contradiction | discriminate]. }
  destruct (py_max_spec _ _ M) as [Hm Hmax].
  assert (Hmpos : (0 < m)%Q).
  { destruct Hpos as (s & Hs' & Hp). rewrite Forall_forall in Hmax.
    eapply Qlt_le_trans; [exact Hp | now apply Hmax]. }
  rewrite widths_of_nonzero
    by (intros Z; rewrite Z in Hmpos; now apply Qlt_irrefl in Hmpos).
  set (width := map (fun s => float_div s m) (map fst sd)).
  assert (Hrange : Forall (fun w => (0 <= w)%Q /\ (w <= 1)%Q) width).
  { apply Forall_forall. intros w Hw. apply in_map_iff in Hw.
    destruct Hw as (s & <- & Hs'). rewrite Forall_forall in Hnonneg, Hmax.
    apply float_div_range; [exact Hmpos | now apply Hnonneg | now apply Hmax]. }
  eexists _, _, _, _. split; [reflexivity|].
  split; [unfold width; now rewrite length_map|].
  split; [rewrite length_map; unfold width; now rewrite length_map|].
  split; [exact Hrange|].
  split; [now apply widths_sorted|].
  split.
  - unfold width. destruct (map fst sd) as [|s0 rest] eqn:Es; [contradiction|].
    cbn [map hd]. apply float_div_self; [exact Hmpos|].
    apply Qle_antisym.
    + inversion Hmax; assumption.
    + destruct Hm as [->|Hm]; [apply Qle_refl|].
      inversion Hsorted as [|? ? _ Hall]; subst.
      rewrite Forall_forall in Hall. now apply Hall.
  - apply Forall_forall. intros l Hl. apply in_map_iff in Hl.
    destruct Hl as (w & <- & Hw). rewrite Forall_forall in Hrange.
    destruct (Hrange w Hw) as [W0 W1]. now apply left_range.
Qed.

(** The three rows [x], [y], [z], of 2.00, 3.00 and 4.00 GB. *)
Lemma funnel_bars_witness :
  exists sizes labels width left,
    draw_funnel (by_name true) (fold_left add_row [x_row; y_row; z_row] cleared)
    = bars sizes labels width left /\
    List.length width = List.length [x_row; y_row; z_row] /\
    List.length left = List.length [x_row; y_row; z_row] /\
    Forall (fun w => (0 <= w)%Q /\ (w <= 1)%Q) width /\
    StronglySorted (fun a b => (b <= a)%Q) width /\
    (hd 0%Q width == 1)%Q /\
    Forall (fun l => (0 <= l)%Q /\ (l <= 1 # 2)%Q) left.
Proof.
  apply (funnel_bars (by_name true) [x_row; y_row; z_row]).
  - apply by_name_rearranges.
  - repeat constructor; simpl; lia.
  - apply Exists_cons_hd. simpl. lia.
Defined.

(* ------------------------------------------------------------------ *)
(** ** The red mark *)

Lemma round64_nonpos x : (x <= 0)%Q -> (round64 x <= 0)%Q.
Proof.
  destruct x as [[|n|n] d]; unfold round64; cbn [Qnum Qden]; intros H.
  - apply Qle_refl.
  - unfold Qle in H. cbn [Qnum Qden] in H. lia.
  - pose proof (round_pos_pos n d) as P. apply Qlt_le_weak.
    change 0%Q with (- 0)%Q. now apply Qopp_lt_compat.
Qed.

Lemma float_of_fixed2_gt_5 h :
  float_gt (float_of_fixed2 h) float_5_0 = (500 <? h).
Proof.
  unfold float_of_fixed2, float_5_0.
  destruct (Z.ltb_spec 500 h) as [H|H].
  - apply float_gt_spec.
    apply Qlt_le_trans with (round64 (501 # 100)); [vm_compute; reflexivity|].
    apply round64_mono_pos; [reflexivity|].
    unfold Qle. cbn [Qnum Qden]. lia.
  - destruct (float_gt (round64 (h # 100)) 5) eqn:G; [|reflexivity].
    apply float_gt_spec in G. exfalso. apply (Qlt_not_le _ _ G).
    destruct (Z_lt_le_dec 0 h) as [P|N].
    + apply Qle_trans with (round64 (500 # 100)); [|vm_compute; discriminate].
      apply round64_mono_pos; [unfold Qlt; cbn [Qnum Qden]; lia|].
      unfold Qle. cbn [Qnum Qden]. lia.
    + apply Qle_trans with 0%Q; [|discriminate].
      apply round64_nonpos. unfold Qle. cbn [Qnum Qden]. lia.
Qed.

(** X23.  [add_row] appends to the tree one item that carries the four
    texts of the row; its size cell is painted red exactly when the size
    text shows more than 5.00 GB.  A row of 5.00 is not marked. *)
Theorem red_marks_sizes_above_5 ui filename filepath size_mb size_gb :
  let ui' := add_row ui (filename, filepath, size_mb, size_gb) in
  exists child,
    nth_error (items ui') (List.length (items ui') - 1) = Some child /\
    text0 child = filename /\ text1 child = filepath /\
    text2 child = Some size_mb /\ text3 child = Some size_gb /\
    red_background child = (500 <? size_gb).
Proof.
  cbv zeta. unfold add_row.
  set (child_item := mkItem filename filepath (Some size_mb) (Some size_gb)
                            (float_gt (float_of_fixed2 size_gb) float_5_0) []).
  assert (G : forall store h,
             exists child,
               nth_error (addChild h (List.length store) (store ++ [child_item]))
                         (List.length (addChild h (List.length store)
                                                (store ++ [child_item])) - 1)
               = Some child /\
               text0 child = filename /\ text1 child = filepath /\
               text2 child = Some size_mb /\ text3 child = Some size_gb /\
               red_background child = (500 <? size_gb)).
  { intros store h. rewrite length_addChild, length_app. cbn [List.length].
    replace (List.length store + 1 - 1)%nat with (List.length store) by lia.
    assert (E : nth_error (store ++ [child_item]) (List.length store) = Some child_item).
    { now rewrite nth_error_app2, Nat.sub_diag by lia. }
    destruct (Nat.eq_dec (List.length store) h) as [<-|Hne].
    - rewrite (nth_error_addChild_eq _ _ _ _ E). eexists. split; [reflexivity|].
      cbn [text0 text1 text2 text3 red_background child_item].
      repeat split. apply float_of_fixed2_gt_5.
    - rewrite nth_error_addChild_ne by exact Hne. rewrite E.
      eexists. split; [reflexivity|]. repeat split. apply float_of_fixed2_gt_5. }
  destruct (dict_get (dirname filepath) (folder_items ui)) as [h|]; cbn [items]; apply G.
Qed.

(* ------------------------------------------------------------------ *)
(** ** The column widths *)

Lemma sum_map_add e widths :
  fold_right Z.add 0 (map (fun w => w + e) widths) =
  fold_right Z.add 0 widths + Z.of_nat (List.length widths) * e.
Proof.
  induction widths as [|w ws IH]; [reflexivity|].
  cbn [map fold_right List.length]. rewrite IH. lia.
Qed.

(** X24.  [adjust_columns_to_fit] widens every column by the same amount
    when the contents are narrower than the viewport: the columns then
    fill the viewport up to less than one pixel per column and never
    exceed it.  Otherwise it leaves the widths as they are and the header
    in its resize-to-contents mode.  With no column and room to spare the
    division by [column_count] raises. *)
Theorem adjust_columns_fill_the_viewport total_width widths :
  widths <> [] ->
  let n := Z.of_nat (List.length widths) in
  let content := fold_right Z.add 0 widths in
  exists ws interactive,
    adjust_columns_to_fit total_width widths = Some (ws, interactive) /\
    List.length ws = List.length widths /\
    (content < total_width ->
       interactive = true /\
       (exists extra, 0 <= extra /\ ws = map (fun w => w + extra) widths) /\
       total_width - n < fold_right Z.add 0 ws <= total_width) /\
    (total_width <= content -> interactive = false /\ ws = widths) /\
    (0 < total_width -> adjust_columns_to_fit total_width [] = None).
Proof.
  intros Hne n content. unfold adjust_columns_to_fit. fold n. fold content.
  assert (Hn : 0 < n) by (unfold n; destruct widths; [now elim Hne | simpl; lia]).
  destruct (Z.ltb_spec content total_width) as [L|L].
  - destruct (Z.eqb_spec n 0) as [E|_]; [lia|].
    eexists _, _. split; [reflexivity|]. split; [apply length_map|].
    split; [|split; [lia|]].
    + intros _. split; [reflexivity|].
      pose proof (Z.div_mod (total_width - content) n ltac:(lia)) as Hdm.
      pose proof (Z.mod_pos_bound (total_width - content) n Hn) as Hr.
      split.
      * exists ((total_width - content) / n). split; [|reflexivity].
        apply Z.div_pos; lia.
      * rewrite sum_map_add. fold n. fold content.
        set (q := (total_width - content) / n) in *.
        set (r := (total_width - content) mod n) in *. clearbody q r. lia.
    + intros H. cbn [List.length fold_right].
      destruct (Z.ltb_spec 0 total_width); [reflexivity | lia].
  - eexists _, _. split; [reflexivity|]. split; [reflexivity|].
    split; [lia|]. split; [intros _; now split|].
    intros H. cbn [List.length fold_right].
    destruct (Z.ltb_spec 0 total_width); [reflexivity | lia].
Qed.

(** Four columns of 750 pixels in all, in a viewport of 1000. *)
Lemma adjust_columns_fill_the_viewport_witness :
  exists ws interactive,
    adjust_columns_to_fit 1000 [100; 200; 300; 150] = Some (ws, interactive) /\
    interactive = true /\
    1000 - 4 < fold_right Z.add 0 ws <= 1000.
Proof.
  destruct (adjust_columns_fill_the_viewport 1000 [100; 200; 300; 150])
    as (ws & interactive & E & _ & A & _); [discriminate|].
  exists ws, interactive. split; [exact E|].
  destruct A as (I & _ & S); [reflexivity|]. split; [exact I | exact S].
Defined.

(* ------------------------------------------------------------------ *)
(** ** The window during and after a scan *)

(** What a scan has sent: whole emissions for the first [i] candidates,
    and then nothing, or [cancelled], or the final [result_ready]. *)
Lemma scan_stream_cases os self ticks st out :
  exec os ticks (start os self) = (st, out) ->
  let cs := candidates os self in
  exists i body,
    (i <= List.length cs)%nat /\ emitted_upto cs i body /\
    ((out = body /\ pc (snd st) <> Finished) \/
     out = body ++ [cancelled] \/
     (cs <> [] /\ i = List.length cs /\
      out = body ++ [result_ready (map row_of cs)]) \/
     (cs = [] /\ body = [] /\
      out = [progress_update 100 "No files found above threshold.";
             result_ready []])).
Proof.
  intros He. apply scan_inv_start in He. destruct He as [_ H]. simpl in H.
  cbv zeta. set (cs := candidates os self) in *.
  assert (E0 : emitted_upto cs 0 []) by (repeat split).
  destruct (pc (snd st)) as [p | i todo | i c rest |] eqn:Hpc.
  - destruct H as (-> & _). exists 0%nat, []. split; [lia|]. split; [exact E0|].
    left. split; [reflexivity | discriminate].
  - destruct H as (_ & _ & _ & Hi & _ & Hem). exists i, out.
    split; [exact Hi|]. split; [exact Hem|]. left. split; [reflexivity | discriminate].
  - destruct H as (_ & Hs & _ & Hem). exists i, out. split.
    + destruct (Nat.le_gt_cases i (List.length cs)) as [L|L]; [exact L|].
      rewrite skipn_all2 in Hs by lia. discriminate.
    + split; [exact Hem|]. left. split; [reflexivity | discriminate].
  - destruct H as [[_ ->]|[[Hcs ->]|[[_ (i & body & Hi & Hem & ->)]|[Hne (body & Hem & ->)]]]].
    + exists 0%nat, []. split; [lia|]. split; [exact E0|]. right. left. reflexivity.
    + exists 0%nat, []. split; [lia|]. split; [exact E0|]. right. right. right.
      repeat split. exact Hcs.
    + exists i, body. split; [lia|]. split; [exact Hem|]. right. left. reflexivity.
    + exists (List.length cs), body. split; [lia|]. split; [exact Hem|].
      right. right. left. repeat split. exact Hne.
Qed.

Lemma view_fold srt out : forall w,
  view (fold_left (deliver srt) out w) = fold_left add_row (discovered out) (view w).
Proof.
  induction out as [|s out IH]; intros w; [reflexivity|].
  cbn [fold_left]. rewrite IH. destruct s; reflexivity.
Qed.

Lemma setValue_in_range bar v : 0 <= v <= 100 -> setValue bar v = v.
Proof.
  intros H. unfold setValue.
  destruct (Z.leb_spec 0 v); [|lia]. destruct (Z.leb_spec v 100); [reflexivity | lia].
Qed.

Lemma last_default {A} (x : A) l d d' : last (x :: l) d = last (x :: l) d'.
Proof.
  revert x. induction l as [|y l IH]; intros x; [reflexivity|].
  change (last (y :: l) d = last (y :: l) d'). apply IH.
Qed.

Lemma quiet_fold srt body : forall w,
  forallb quiet body = true ->
  Forall (fun v => 0 <= v <= 100) (percents body) ->
  let w' := fold_left (deliver srt) body w in
  cancel_button w' = cancel_button w /\ pause_button w' = pause_button w /\
  export_button w' = export_button w /\ chart_canvas w' = chart_canvas w /\
  progress_bar w' = last (percents body) (progress_bar w).
Proof.
  induction body as [|s body IH]; intros w Hq Hr; [repeat split|].
  cbn [forallb] in Hq. apply andb_true_iff in Hq. destruct Hq as [Hs Hq].
  cbn [fold_left]. cbv zeta.
  destruct s as [v t | rs | | row | eta]; try discriminate Hs.
  - change (percents (progress_update v t :: body)) with (v :: percents body) in Hr |- *.
    apply Forall_cons_iff in Hr. destruct Hr as [Hv Hr'].
    destruct (IH (deliver srt w (progress_update v t)) Hq Hr') as (A & B & C & D & E).
    rewrite A, B, C, D, E. repeat split.
    cbn [deliver update_progress progress_bar]. rewrite setValue_in_range by exact Hv.
    destruct (percents body) as [|z l]; [reflexivity|].
    change (last (v :: z :: l) (progress_bar w)) with (last (z :: l) (progress_bar w)).
    apply last_default.
  - destruct (IH (deliver srt w (live_file_signal row)) Hq Hr) as (A & B & C & D & E).
    rewrite A, B, C, D, E. repeat split.
  - destruct (IH (deliver srt w (eta_signal eta)) Hq Hr) as (A & B & C & D & E).
    rewrite A, B, C, D, E. repeat split.
Qed.

Lemma window_of_emissions srt w0 cs i body :
  (i <= List.length cs)%nat -> emitted_upto cs i body ->
  let w := window_after srt w0 body in
  cancel_button w = true /\ pause_button w = true /\
  export_button w = false /\ chart_canvas w = chart_canvas w0 /\
  progress_bar w = last (percents body) 0 /\
  view w = fold_left add_row (discovered body) cleared.
Proof.
  intros Hi Hem. pose proof (emitted_percents_range cs i body Hi Hem) as Hr.
  destruct Hem as (_ & _ & Hq). cbv zeta. unfold window_after.
  destruct (quiet_fold srt body (scan_started w0) Hq Hr) as (A & B & C & D & E).
  rewrite A, B, C, D, E, view_fold. repeat split.
Qed.

Lemma window_after_snoc srt w0 body s :
  window_after srt w0 (body ++ [s]) = deliver srt (window_after srt w0 body) s.
Proof. unfold window_after. now rewrite fold_left_app. Qed.

Lemma discovered_snoc_final body s :
  quiet s = false -> discovered (body ++ [s]) = discovered body.
Proof.
  intros H. rewrite discovered_app.
  destruct s; try discriminate H; apply app_nil_r.
Qed.

Lemma existsb_snoc {A} (f : A -> bool) l x :
  existsb f (l ++ [x]) = existsb f l || f x.
Proof. rewrite existsb_app. simpl. now rewrite orb_false_r. Qed.

(** The tree of the window holds the rows received so far. *)
Lemma window_tree srt w0 out :
  rearranges srt ->
  map fst (folder_items (view (window_after srt w0 out)))
  = distinct (map folder_of (discovered out)) /\
  same_groups (tree srt (view (window_after srt w0 out)))
              (group_by_folder (discovered out)).
Proof.
  intros Hsrt. unfold window_after. rewrite view_fold. cbn [view scan_started].
  now apply tree_of_rows.
Qed.

(** X25.  At every moment of a scan the window mirrors the signals sent so
    far: the dictionary lists the folders of the rows received in the
    order they were first met, and the tree holds one group per folder
    with the rows of that folder, in the order of the widget's sort,
    whatever it is; the export button is enabled exactly when
    [result_ready] has come; the progress bar shows 0 after a
    cancellation and otherwise the last percentage sent (0 before the
    first). *)
Theorem window_mirrors_the_scan os self srt ticks st out w0 :
  rearranges srt ->
  exec os ticks (start os self) = (st, out) ->
  let w := window_after srt w0 out in
  map fst (folder_items (view w)) = distinct (map folder_of (discovered out)) /\
  same_groups (tree srt (view w)) (group_by_folder (discovered out)) /\
  Permutation (List.concat (map snd (tree srt (view w)))) (discovered out) /\
  export_button w = existsb is_result_ready out /\
  progress_bar w = (if existsb is_cancelled out then 0 else last (percents out) 0).
Proof.
  intros Hsrt He. cbv zeta.
  destruct (window_tree srt w0 out Hsrt) as [T1 T2].
  split; [exact T1|]. split; [exact T2|]. split.
  { rewrite (same_groups_concat _ _ T2). apply group_by_folder_rows. }
  destruct (scan_stream_cases os self ticks st out He) as (i & body & Hi & Hem & Hc).
  destruct (window_of_emissions srt w0 _ i body Hi Hem) as (A & B & C & D & E & F).
  pose proof Hem as (_ & _ & Hq).
  pose proof (quiet_no_result _ Hq) as Q1. pose proof (quiet_no_cancelled _ Hq) as Q2.
  destruct Hc as [[-> _]|[->|[(_ & _ & ->)|(_ & -> & ->)]]].
  - now rewrite C, E, Q1, Q2.
  - rewrite window_after_snoc, !existsb_snoc, Q1, Q2, percents_app.
    cbn [deliver thread_cancelled export_button progress_bar is_result_ready
         is_cancelled orb]. rewrite C. split; [reflexivity|].
    apply setValue_in_range. lia.
  - rewrite window_after_snoc, !existsb_snoc, Q1, Q2, percents_app.
    cbn [deliver show_results export_button progress_bar is_result_ready
         is_cancelled orb percents flat_map]. rewrite app_nil_r. now split.
  - split; reflexivity.
Qed.

(** Seven steps into the scan of [three_files], the tree sorted by name,
    descending. *)
Lemma window_mirrors_the_scan_witness :
  let out := snd (exec three_files (repeat (step 0) 7) (start three_files half_scan)) in
  let w := window_after (by_name true) initial_window out in
  map fst (folder_items (view w)) = distinct (map folder_of (discovered out)) /\
  same_groups (tree (by_name true) (view w)) (group_by_folder (discovered out)) /\
  Permutation (List.concat (map snd (tree (by_name true) (view w)))) (discovered out) /\
  export_button w = existsb is_result_ready out /\
  progress_bar w = (if existsb is_cancelled out then 0 else last (percents out) 0).
Proof.
  intros out.
  apply (window_mirrors_the_scan three_files half_scan (by_name true)
           (repeat (step 0) 7)
           (fst (exec three_files (repeat (step 0) 7) (start three_files half_scan)))).
  - apply by_name_rearranges.
  - vm_compute. reflexivity.
Defined.

(** X26.  When a scan has completed, the window shows it: the progress bar
    is at 100, the status line gives the number of files found, the title
    says [Done], the cancel and pause buttons are disabled and the export
    button is enabled, the tree holds one group per folder with the rows
    of all the candidates (in the order of the widget's sort, whatever it
    is), and the chart has been drawn from that tree. *)
Theorem window_after_a_completed_scan os self srt ticks st out w0 :
  rearranges srt ->
  exec os ticks (start os self) = (st, out) ->
  existsb is_result_ready out = true ->
  let w := window_after srt w0 out in
  progress_bar w = 100 /\
  status_label w =
    ("Completed. " ++ str_of_int (Z.of_nat (List.length (candidates os self)))
     ++ " large files found.")%string /\
  window_title w = "File Analyzer - Done" /\
  cancel_button w = false /\ pause_button w = false /\ export_button w = true /\
  same_groups (tree srt (view w))
              (group_by_folder (map row_of (candidates os self))) /\
  Permutation (List.concat (map snd (tree srt (view w))))
              (map row_of (candidates os self)) /\
  chart_canvas w = Some (draw_funnel srt (view w)).
Proof.
  intros Hsrt He Hr. cbv zeta.
  destruct (window_tree srt w0 out Hsrt) as [_ T].
  assert (G : forall rows,
             same_groups (tree srt (view (window_after srt w0 out)))
                         (group_by_folder rows) ->
             Permutation
               (List.concat (map snd (tree srt (view (window_after srt w0 out)))))
               rows).
  { intros rows S. rewrite (same_groups_concat _ _ S). apply group_by_folder_rows. }
  destruct (scan_stream_cases os self ticks st out He) as (i & body & Hi & Hem & Hc).
  destruct (window_of_emissions srt w0 _ i body Hi Hem) as (A & B & C & D & E & F).
  pose proof Hem as (Hd & Hp & Hq).
  pose proof (quiet_no_result _ Hq) as Q1.
  destruct Hc as [[-> _]|[->|[(Hne & -> & ->)|(Hcs & -> & ->)]]].
  - congruence.
  - rewrite existsb_snoc, Q1 in Hr. discriminate.
  - rewrite discovered_snoc_final, Hd, firstn_all in T by reflexivity.
    specialize (G _ T). revert T G. rewrite window_after_snoc.
    cbn [deliver show_results progress_bar status_label window_title cancel_button
         pause_button export_button view chart_canvas].
    intros T G. rewrite E, Hp, length_map.
    assert (Hlen : (0 < List.length (candidates os self))%nat).
    { destruct (candidates os self); [now elim Hne | simpl; lia]. }
    rewrite last_map_seq by exact Hlen.
    rewrite progress_percent_last by exact Hlen. repeat split; assumption.
  - rewrite Hcs in *. specialize (G _ T). repeat split; assumption.
Qed.

(** The completed scan of [three_files], the tree sorted by name,
    descending. *)
Lemma window_after_a_completed_scan_witness :
  let out := snd (exec three_files (repeat (step 0) 10) (start three_files half_scan)) in
  let w := window_after (by_name true) initial_window out in
  progress_bar w = 100 /\
  status_label w =
    ("Completed. "
     ++ str_of_int (Z.of_nat (List.length (candidates three_files half_scan)))
     ++ " large files found.")%string /\
  window_title w = "File Analyzer - Done" /\
  cancel_button w = false /\ pause_button w = false /\ export_button w = true /\
  same_groups (tree (by_name true) (view w))
              (group_by_folder (map row_of (candidates three_files half_scan))) /\
  Permutation (List.concat (map snd (tree (by_name true) (view w))))
              (map row_of (candidates three_files half_scan)) /\
  chart_canvas w = Some (draw_funnel (by_name true) (view w)).
Proof.
  intros out.
  apply (window_after_a_completed_scan three_files half_scan (by_name true)
           (repeat (step 0) 10)
           (fst (exec three_files (repeat (step 0) 10) (start three_files half_scan)))).
  - apply by_name_rearranges.
  - vm_compute. reflexivity.
  - vm_compute. reflexivity.
Defined.

(** X27.  When a scan has been cancelled, the progress bar is back at 0, the
    status line says [Scan cancelled.], the title says [Cancelled], the
    cancel and pause buttons are disabled, no chart has been drawn, and
    the export button stays disabled although the rows received before
    the cancellation stay in the tree, under the groups of their
    folders. *)
Theorem window_after_a_cancelled_scan os self srt ticks st out w0 :
  rearranges srt ->
  exec os ticks (start os self) = (st, out) ->
  existsb is_cancelled out = true ->
  let w := window_after srt w0 out in
  progress_bar w = 0 /\
  status_label w = "Scan cancelled." /\
  window_title w = "File Analyzer - Cancelled" /\
  cancel_button w = false /\ pause_button w = false /\ export_button w = false /\
  chart_canvas w = chart_canvas w0 /\
  same_groups (tree srt (view w)) (group_by_folder (discovered out)) /\
  Permutation (List.concat (map snd (tree srt (view w)))) (discovered out) /\
  exists i, (i <= List.length (candidates os self))%nat /\
            discovered out = map row_of (firstn i (candidates os self)).
Proof.
  intros Hsrt He Hr. cbv zeta.
  destruct (window_tree srt w0 out Hsrt) as [_ T].
  assert (G : Permutation
                (List.concat (map snd (tree srt (view (window_after srt w0 out)))))
                (discovered out)).
  { rewrite (same_groups_concat _ _ T). apply group_by_folder_rows. }
  destruct (scan_stream_cases os self ticks st out He) as (i & body & Hi & Hem & Hc).
  destruct (window_of_emissions srt w0 _ i body Hi Hem) as (A & B & C & D & E & F).
  pose proof Hem as (Hd & Hp & Hq).
  pose proof (quiet_no_cancelled _ Hq) as Q2.
  destruct Hc as [[-> _]|[->|[(Hne & -> & ->)|(Hcs & -> & ->)]]].
  - congruence.
  - revert T G. rewrite window_after_snoc.
    cbn [deliver thread_cancelled progress_bar status_label window_title cancel_button
         pause_button export_button view chart_canvas].
    intros T G. rewrite C, D.
    split; [apply setValue_in_range; lia|].
    repeat (split; [reflexivity|]).
    split; [exact T|]. split; [exact G|].
    exists i. split; [exact Hi|]. rewrite discovered_snoc_final by reflexivity.
    exact Hd.
  - rewrite existsb_snoc, Q2 in Hr. discriminate.
  - discriminate.
Qed.

(** [three_files], cancelled after its first row, the tree sorted by name,
    descending. *)
Lemma window_after_a_cancelled_scan_witness :
  let ticks := repeat (step 0) 7 ++ [call_cancel; step 0; step 0] in
  let out := snd (exec three_files ticks (start three_files half_scan)) in
  let w := window_after (by_name true) initial_window out in
  progress_bar w = 0 /\
  status_label w = "Scan cancelled." /\
  window_title w = "File Analyzer - Cancelled" /\
  cancel_button w = false /\ pause_button w = false /\ export_button w = false /\
  chart_canvas w = chart_canvas initial_window /\
  same_groups (tree (by_name true) (view w)) (group_by_folder (discovered out)) /\
  Permutation (List.concat (map snd (tree (by_name true) (view w)))) (discovered out) /\
  exists i, (i <= List.length (candidates three_files half_scan))%nat /\
            discovered out = map row_of (firstn i (candidates three_files half_scan)).
Proof.
  intros ticks out.
  apply (window_after_a_cancelled_scan three_files half_scan (by_name true) ticks
           (fst (exec three_files ticks (start three_files half_scan)))).
  - apply by_name_rearranges.
  - vm_compute. reflexivity.
  - vm_compute. reflexivity.
Defined.
